(** * brackets-flow: the Flow runner of [src/node/flow.ts]

    A shallow embedding of the node side of the extension: the command
    runner ([spawnWrapper]), the result mapper
    ([createCodeInspectionReport]), the per-project coalescer
    ([getFlowResult]) and the entry point ([scanFileWithFlow]), together
    with the part of the JavaScript runtime they lean on (promises, the
    microtask queue, one-shot timers and child-process events). *)

From Stdlib Require Import ZArith Ascii String List Lia.
From stdpp Require Import base option list gmap strings fin_maps pretty.

Open Scope string_scope.
Open Scope list_scope.

(** ** Data model *)

(** A JavaScript [Error] object, as far as the program looks at it. *)
Record Error := mkError { name : string; err_message : string; stack : string }.

(** [FlowResult]: the JSON printed by [flow --json], at its declared type.
    Line and column numbers are JavaScript numbers holding integers. *)
Module FlowMessage.
Record t := mk { path : string; type : string; descr : string; line : Z; start : Z }.
End FlowMessage.

Module FlowError.
Record t := mk { level : string; message : list FlowMessage.t }.
End FlowError.

Module FlowResult.
Record t := mk { errors : list FlowError.t }.
End FlowResult.

(** [CodeInspectionResult] and [CodeInspectionReport] of [../types]. *)
Module Pos.
Record t := mk { line : Z; ch : Z }.
End Pos.

Module CodeInspectionResult.
Record t := mk { type : string; message : string; pos : Pos.t }.
End CodeInspectionResult.

Module CodeInspectionReport.
Record t := mk { errors : list CodeInspectionResult.t }.
End CodeInspectionReport.

Definition FLOW_TIMEOUT : Z := 3000%Z.

(** ** The runtime the module is linked against

    [path.resolve], [path.join], [JSON.parse], [process.platform] and
    the stack text captured by [new Error()] belong to Node, not to the
    repository; the program is parametric in them.  [JSON.parse] either
    returns the parsed value or throws, and what it throws is a
    [SyntaxError]. *)
Class NodeEnv := {
  path_resolve : list string -> string;
  path_join : list string -> string;
  JSON_parse : string -> FlowResult.t + Error;
  JSON_parse_SyntaxError :
    forall text e, JSON_parse text = inr e -> name e = "SyntaxError";
  process_platform : string;
  new_Error_stack : string
}.

(** [new Error()] *)
Definition new_Error `{NodeEnv} : Error :=
  {| name := "Error"; err_message := ""; stack := new_Error_stack |}.

(** ** Numbers

    [line] and [start] are numbers of JavaScript, IEEE doubles, here the
    ones with an integer value.  An arithmetic operation gives the exact
    result rounded to the nearest double, ties to the even significand:
    an integer of more than 53 significant bits loses the low ones. *)
Definition round_to_double (z : Z) : Z :=
  let m := Z.abs z in
  let top := Z.log2 m in
  if (top <=? 52)%Z then z
  else
    let shift := (top - 52)%Z in
    let q := Z.shiftr m shift in
    let rest := (m - Z.shiftl q shift)%Z in
    let half := Z.shiftl 1 (shift - 1) in
    let q' := if (half <? rest)%Z || ((rest =? half)%Z && Z.odd q) then (q + 1)%Z else q in
    (Z.sgn z * Z.shiftl q' shift)%Z.

(** [a - b], of the doubles nearest to [a] and [b] *)
Definition Number_sub (a b : Z) : Z :=
  round_to_double (round_to_double a - round_to_double b).

(** [Number.isSafeInteger] *)
Definition isSafeInteger (z : Z) : Prop := (- 2 ^ 53 < z < 2 ^ 53)%Z.

(** ** Result mapper *)

(** The object pushed at lines 75-82. *)
Definition inspectionResult (flowError : FlowError.t) (message : string)
    (flowMessage : FlowMessage.t) : CodeInspectionResult.t :=
  {| CodeInspectionResult.type :=
       if decide (FlowError.level flowError = "error")
       then "problem_type_error" else "problem_type_warning";
     CodeInspectionResult.message := message;
     CodeInspectionResult.pos :=
       {| Pos.line := Number_sub (FlowMessage.line flowMessage) 1;
          Pos.ch := Number_sub (FlowMessage.start flowMessage) 1 |} |}.

(** [flowError.message.filter(x => x.type === 'Comment').map(x => x.descr)] *)
Definition commentsOf (flowError : FlowError.t) : list string :=
  map FlowMessage.descr
    (filter (fun x => FlowMessage.type x = "Comment") (FlowError.message flowError)).

(** The message text of lines 70-73. *)
Definition messageText (comments : list string) (flowMessage : FlowMessage.t) : string :=
  let message := FlowMessage.descr flowMessage in
  if decide (0 < length comments)%nat
  then String.concat " " comments +:+ ": " +:+ message
  else message.

(** The body of the inner [forEach]: [errors] is the array being filled,
    the early [return] leaves it as it is. *)
Definition visitMessage `{NodeEnv} (filePath : string) (flowError : FlowError.t)
    (comments : list string) (errors : list CodeInspectionResult.t)
    (flowMessage : FlowMessage.t) : list CodeInspectionResult.t :=
  let isForFilePath :=
    bool_decide (path_resolve [filePath] = path_resolve [FlowMessage.path flowMessage]) in
  if negb isForFilePath then errors
  else errors ++ [inspectionResult flowError (messageText comments flowMessage) flowMessage].

(** The body of the outer [forEach]. *)
Definition visitError `{NodeEnv} (filePath : string)
    (errors : list CodeInspectionResult.t) (flowError : FlowError.t)
    : list CodeInspectionResult.t :=
  let comments := commentsOf flowError in
  fold_left (visitMessage filePath flowError comments) (FlowError.message flowError) errors.

Definition createCodeInspectionReport `{NodeEnv} (filePath : string)
    (flowResult : FlowResult.t) : CodeInspectionReport.t :=
  let errors := fold_left (visitError filePath) (FlowResult.errors flowResult) [] in
  {| CodeInspectionReport.errors := errors |}.

(** ** A POSIX instance of the runtime

    [path.resolve] of Node on POSIX: the arguments are taken from the
    right until an absolute one is met, the working directory is put in
    front when none is, and the result is normalised (empty and [.]
    segments dropped, [..] resolved). *)
Module Posix.

Definition is_absolute (p : string) : bool :=
  match p with
  | String c _ => bool_decide (c = "/"%char)
  | EmptyString => false
  end.

(** Segments between slashes; [cur] is the segment being read. *)
Fixpoint segments_go (cur : string) (p : string) : list string :=
  match p with
  | EmptyString => [cur]
  | String c rest =>
      if bool_decide (c = "/"%char) then cur :: segments_go "" rest
      else segments_go (cur +:+ String c "") rest
  end.

Definition segments (p : string) : list string := segments_go "" p.

(** [normalizeString]: [stack] holds the kept segments, innermost first. *)
Fixpoint normalize_go (allowAboveRoot : bool) (stack : list string) (segs : list string)
    : list string :=
  match segs with
  | [] => rev stack
  | seg :: rest =>
      if decide (seg = "" \/ seg = ".") then normalize_go allowAboveRoot stack rest
      else if decide (seg = "..") then
        match stack with
        | top :: below =>
            if decide (top = "..") then normalize_go allowAboveRoot (seg :: stack) rest
            else normalize_go allowAboveRoot below rest
        | [] =>
            if allowAboveRoot then normalize_go allowAboveRoot [seg] rest
            else normalize_go allowAboveRoot [] rest
        end
      else normalize_go allowAboveRoot (seg :: stack) rest
  end.

Definition normalizeString (p : string) (allowAboveRoot : bool) : string :=
  String.concat "/" (normalize_go allowAboveRoot [] (segments p)).

(** The right-to-left loop: the text gathered so far and whether an
    absolute argument has been met. *)
Fixpoint resolve_go (args : list string) : string * bool :=
  match args with
  | [] => ("", false)
  | p :: rest =>
      let '(acc, resolvedAbsolute) := resolve_go rest in
      if resolvedAbsolute then (acc, true)
      else if decide (p = "") then (acc, false)
      else (p +:+ "/" +:+ acc, is_absolute p)
  end.

Definition resolve (cwd : string) (args : list string) : string :=
  let '(resolvedPath, resolvedAbsolute) := resolve_go (cwd :: args) in
  let resolvedPath := normalizeString resolvedPath (negb resolvedAbsolute) in
  if resolvedAbsolute then "/" +:+ resolvedPath
  else if decide (resolvedPath = "") then "." else resolvedPath.

(** [path.join]: the non-empty arguments joined by a slash and
    normalised; a leading slash is kept. *)
Definition join (args : list string) : string :=
  let joined := String.concat "/" (filter (fun p => p <> "") args) in
  if decide (joined = "") then "."
  else
    let body := normalizeString joined (negb (is_absolute joined)) in
    if is_absolute joined then "/" +:+ body
    else if decide (body = "") then "." else body.

(** A runtime for examples: POSIX paths, working directory [cwd], and a
    [JSON.parse] that knows the texts listed in [table] and rejects
    every other text. *)
Definition syntaxError : Error :=
  {| name := "SyntaxError"; err_message := "Unexpected token"; stack := "SyntaxError" |}.

Definition parse (table : list (string * FlowResult.t)) (text : string)
    : FlowResult.t + Error :=
  match list_find (fun entry => fst entry = text) table with
  | Some (_, (_, v)) => inl v
  | None => inr syntaxError
  end.

Lemma parse_SyntaxError table text e :
  parse table text = inr e -> name e = "SyntaxError".
Proof.
  unfold parse. destruct (list_find _ table) as [[? [? ?]]|]; [discriminate|].
  intros [= <-]. reflexivity.
Qed.

Definition env (cwd : string) (table : list (string * FlowResult.t)) : NodeEnv :=
  {| path_resolve := resolve cwd;
     path_join := join;
     JSON_parse := parse table;
     JSON_parse_SyntaxError := parse_SyntaxError table;
     process_platform := "linux";
     new_Error_stack := "Error" |}.

End Posix.

(** ** Command runner *)

(** What the child process object emits: a chunk on [child.stdout], the
    [close] event, the [error] event. *)
Inductive child_event :=
| Data (data : string)
| Close (code : Z)
| ChildError (err : Error).

(** The child returned by [spawn(cmd, args, opts)] with the listeners
    [spawnWrapper] puts on it: the chunks pushed so far and whether the
    two [once] listeners are still registered. *)
Record ChildProcess := {
  cmd : string;
  args : list string;
  cwd : string;
  stdout : list string;
  once_close : bool;
  once_error : bool
}.

Definition spawnWrapper (cmd : string) (args : list string) (cwd : string) : ChildProcess :=
  {| cmd := cmd; args := args; cwd := cwd;
     stdout := []; once_close := true; once_error := true |}.

(** [Buffer.concat(stdout).toString()] *)
Definition Buffer_concat (stdout : list string) : string := String.concat "" stdout.

Section Listeners.
Context {S : Type}.
(** [log.error(tag, text)] and [callback(err, result)] act on the
    caller's state. *)
Variable log_error : string -> string -> S -> S.
Variable callback : option Error -> option string -> S -> S.

(** The three listeners of lines 44-54.  A [once] listener is removed
    before it runs. *)
Definition emit (ev : child_event) (child : ChildProcess) (s : S) : ChildProcess * S :=
  match ev with
  | Data data =>
      ({| cmd := cmd child; args := args child; cwd := cwd child;
          stdout := stdout child ++ [data];
          once_close := once_close child; once_error := once_error child |}, s)
  | Close code =>
      if once_close child then
        ({| cmd := cmd child; args := args child; cwd := cwd child;
            stdout := stdout child;
            once_close := false; once_error := once_error child |},
         callback None (Some (Buffer_concat (stdout child))) s)
      else (child, s)
  | ChildError err =>
      if once_error child then
        ({| cmd := cmd child; args := args child; cwd := cwd child;
            stdout := stdout child;
            once_close := once_close child; once_error := false |},
         callback (Some err) None (log_error "spawn-error" (stack err) s))
      else (child, s)
  end.

(** A whole run of the child: its events in the order they are emitted. *)
Fixpoint emit_all (evs : list child_event) (child : ChildProcess) (s : S) : ChildProcess * S :=
  match evs with
  | [] => (child, s)
  | ev :: evs' => let '(child', s') := emit ev child s in emit_all evs' child' s'
  end.
End Listeners.

(** ** Promises and the microtask queue *)

Inductive value :=
| VUndefined
| VFlowResult (res : FlowResult.t).

Inductive outcome :=
| Fulfilled (v : value)
| Rejected (err : Error).

Inductive status :=
| Pending
| Settled (o : outcome).

(** The completion callback handed to [scanFileWithFlow]: [cb_id] tells
    the callers apart, [cb_throws err result] is what the call
    [callback(err, result)] throws, if anything. *)
Record callback_fn := {
  cb_id : nat;
  cb_throws : option Error -> option CodeInspectionReport.t -> option Error
}.

(** The closures passed to [then] and [catch], with what they capture. *)
Inductive onFulfilled :=
| ThenClear (projectRoot : string)
| ThenReport (fullPath : string) (callback : callback_fn).

Inductive onRejected :=
| CatchClear (projectRoot : string)
| CatchReport (callback : callback_fn).

(** A reaction registered by [p.then(f)] or [p.catch(g)]: the handlers
    and the derived promise the call returned. *)
Record reaction := {
  on_fulfilled : option onFulfilled;
  on_rejected : option onRejected;
  target : nat
}.

Record promise := { pstatus : status; reactions : list reaction }.

Inductive timer :=
| Armed (delay : Z)
| Cleared
| Fired.

Definition clearTimeout (t : timer) : timer :=
  match t with
  | Armed _ => Cleared
  | _ => t
  end.

(** The variables one run of the executor of lines 93-122 closes over. *)
Record invocation := {
  projectRoot : string;
  base : nat;
  resolved : bool;
  timedOut : bool;
  timeoutID : timer;
  child : ChildProcess
}.

(** The module's state: the cache object, the promises, the microtask
    queue, the executor closures, and what has been observed from
    outside: the calls of completion callbacks and of [log.error]. *)
Record state := {
  _getFlowResults : gmap string (option nat);
  heap : list promise;
  microtasks : list (reaction * outcome);
  invocations : list invocation;
  callbacks : list (nat * (option Error * option CodeInspectionReport.t));
  errorLog : list (string * string)
}.

Definition init : state :=
  {| _getFlowResults := ∅; heap := []; microtasks := []; invocations := [];
     callbacks := []; errorLog := [] |}.

Definition set_cache (c : gmap string (option nat)) (s : state) : state :=
  {| _getFlowResults := c; heap := heap s; microtasks := microtasks s;
     invocations := invocations s; callbacks := callbacks s; errorLog := errorLog s |}.

Definition set_heap (h : list promise) (s : state) : state :=
  {| _getFlowResults := _getFlowResults s; heap := h; microtasks := microtasks s;
     invocations := invocations s; callbacks := callbacks s; errorLog := errorLog s |}.

Definition set_microtasks (q : list (reaction * outcome)) (s : state) : state :=
  {| _getFlowResults := _getFlowResults s; heap := heap s; microtasks := q;
     invocations := invocations s; callbacks := callbacks s; errorLog := errorLog s |}.

Definition set_invocations (l : list invocation) (s : state) : state :=
  {| _getFlowResults := _getFlowResults s; heap := heap s; microtasks := microtasks s;
     invocations := l; callbacks := callbacks s; errorLog := errorLog s |}.

Definition set_callbacks (l : list (nat * (option Error * option CodeInspectionReport.t)))
    (s : state) : state :=
  {| _getFlowResults := _getFlowResults s; heap := heap s; microtasks := microtasks s;
     invocations := invocations s; callbacks := l; errorLog := errorLog s |}.

Definition log_error (tag text : string) (s : state) : state :=
  {| _getFlowResults := _getFlowResults s; heap := heap s; microtasks := microtasks s;
     invocations := invocations s; callbacks := callbacks s;
     errorLog := errorLog s ++ [(tag, text)] |}.

(** [new Promise(...)], before the executor runs. *)
Definition new_promise (s : state) : nat * state :=
  (length (heap s), set_heap (heap s ++ [{| pstatus := Pending; reactions := [] |}]) s).

(** [resolve(v)] and [reject(e)] of a promise: the first call settles it
    and queues its reactions, later calls do nothing. *)
Definition settle (p : nat) (o : outcome) (s : state) : state :=
  match heap s !! p with
  | Some {| pstatus := Pending; reactions := rs |} =>
      set_microtasks (microtasks s ++ map (fun r => (r, o)) rs)
        (set_heap (<[p := {| pstatus := Settled o; reactions := [] |}]> (heap s)) s)
  | _ => s
  end.

(** [p.then(onF, onR)]: a new promise; the reaction waits on [p], or is
    queued at once when [p] is settled already. *)
Definition then_ (p : nat) (onF : option onFulfilled) (onR : option onRejected)
    (s : state) : nat * state :=
  let '(q, s) := new_promise s in
  let r := {| on_fulfilled := onF; on_rejected := onR; target := q |} in
  match heap s !! p with
  | Some {| pstatus := Pending; reactions := rs |} =>
      (q, set_heap (<[p := {| pstatus := Pending; reactions := rs ++ [r] |}]> (heap s)) s)
  | Some {| pstatus := Settled o |} => (q, set_microtasks (microtasks s ++ [(r, o)]) s)
  | None => (q, s)
  end.

(** [callback(err, result)] inside a handler: the call is observed, and
    the handler completes with what the call did. *)
Definition call_callback (callback : callback_fn) (err : option Error)
    (result : option CodeInspectionReport.t) (s : state) : outcome * state :=
  let s := set_callbacks (callbacks s ++ [(cb_id callback, (err, result))]) s in
  match cb_throws callback err result with
  | None => (Fulfilled VUndefined, s)
  | Some thrown => (Rejected thrown, s)
  end.

(** ** The coalescer and the entry point *)

Definition fileExists (fs : string -> option bool) (fullPath : string) : bool :=
  match fs fullPath with
  | Some isFile => isFile
  | None => false
  end.

Definition hasFlowConfig `{NodeEnv} (fs : string -> option bool) (projectRoot : string) : bool :=
  fileExists fs (path_join [projectRoot; ".flowconfig"]).

Definition hasFlowBin `{NodeEnv} (fs : string -> option bool) (projectRoot : string) : bool :=
  fileExists fs (path_join [projectRoot; "node_modules"; ".bin"; "flow"]).

Definition update_invocation (i : nat) (f : invocation -> invocation) (s : state) : state :=
  match invocations s !! i with
  | Some inv => set_invocations (<[i := f inv]> (invocations s)) s
  | None => s
  end.

(** The timer closure of lines 100-106, for the [i]-th invocation. *)
Definition onTimeout `{NodeEnv} (i : nat) (s : state) : state :=
  match invocations s !! i with
  | Some inv =>
      if resolved inv || timedOut inv then s
      else
        let s := update_invocation i (fun inv =>
          {| projectRoot := projectRoot inv; base := base inv; resolved := resolved inv;
             timedOut := true; timeoutID := timeoutID inv; child := child inv |}) s in
        let err := {| name := "TimeoutError"; err_message := err_message new_Error;
                      stack := stack new_Error |} in
        settle (base inv) (Rejected err) s
  | None => s
  end.

(** The callback of lines 108-122, for the [i]-th invocation. *)
Definition onSpawnDone `{NodeEnv} (i : nat) (err : option Error) (result : option string)
    (s : state) : state :=
  match invocations s !! i with
  | Some inv =>
      if resolved inv || timedOut inv then s
      else
        let s := update_invocation i (fun inv =>
          {| projectRoot := projectRoot inv; base := base inv; resolved := true;
             timedOut := timedOut inv; timeoutID := clearTimeout (timeoutID inv);
             child := child inv |}) s in
        match err with
        | Some err => settle (base inv) (Rejected err) s
        | None =>
            match JSON_parse (default "undefined" result) with
            | inl res => settle (base inv) (Fulfilled (VFlowResult res)) s
            | inr err =>
                settle (base inv) (Rejected err)
                  (log_error "getFlowResult-parse-error" (stack err) s)
            end
        end
  | None => s
  end.

(** The cache is a plain object [{}]: reading a property it does not own
    finds what [Object.prototype] has under that name.  These are the
    names every object of Node inherits; what they hold is a function
    or, for [__proto__], the prototype itself, never a falsy value and
    never a promise. *)
Definition Object_prototype : list string :=
  ["constructor"; "__defineGetter__"; "__defineSetter__"; "hasOwnProperty";
   "__lookupGetter__"; "__lookupSetter__"; "isPrototypeOf"; "propertyIsEnumerable";
   "toString"; "valueOf"; "__proto__"; "toLocaleString"].

(** What [getFlowResult] returns: the promise of a slot, or what the
    key names on [Object.prototype]. *)
Inductive returned :=
| Slot (p : nat)
| FromPrototype (key : string).

(** Lines 93-131: a new invocation and its slot. *)
Definition startFlow `{NodeEnv} (projectRoot : string) (s : state) : nat * state :=
  let '(p1, s) := new_promise s in
  let flowExecName :=
    if decide (process_platform = "win32") then "flow.cmd" else "flow" in
  let flowExecPath := path_resolve [projectRoot; "node_modules"; ".bin"; flowExecName] in
  let inv :=
    {| projectRoot := projectRoot; base := p1; resolved := false; timedOut := false;
       timeoutID := Armed FLOW_TIMEOUT;
       child := spawnWrapper flowExecPath ["--show-all-errors"; "--json"] projectRoot |} in
  let s := set_invocations (invocations s ++ [inv]) s in
  let '(p2, s) := then_ p1 (Some (ThenClear projectRoot)) None s in
  let '(p3, s) := then_ p2 None (Some (CatchClear projectRoot)) s in
  (p3, set_cache (<[projectRoot := Some p3]> (_getFlowResults s)) s).

(** Line 92 returns whatever truthy value the lookup finds: the promise
    the cache owns under the key, or an inherited property; an own
    property holding [undefined] hides the inherited one. *)
Definition getFlowResult `{NodeEnv} (projectRoot : string) (s : state) : returned * state :=
  match _getFlowResults s !! projectRoot with
  | Some (Some p) => (Slot p, s)
  | Some None => let '(p3, s) := startFlow projectRoot s in (Slot p3, s)
  | None =>
      if decide (projectRoot ∈ Object_prototype) then (FromPrototype projectRoot, s)
      else let '(p3, s) := startFlow projectRoot s in (Slot p3, s)
  end.

Definition missingBinReport : CodeInspectionReport.t :=
  {| CodeInspectionReport.errors :=
       [{| CodeInspectionResult.type := "problem_type_error";
           CodeInspectionResult.message :=
             "FlowError: Can't locate node_modules/.bin/flow in your project, please install flow-bin";
           CodeInspectionResult.pos := {| Pos.line := 0; Pos.ch := 0 |} |}] |}.

Definition timeoutReport : CodeInspectionReport.t :=
  {| CodeInspectionReport.errors :=
       [{| CodeInspectionResult.type := "problem_type_error";
           CodeInspectionResult.message :=
             "FlowError: Timed out after waiting " +:+ pretty FLOW_TIMEOUT +:+ "ms";
           CodeInspectionResult.pos := {| Pos.line := 0; Pos.ch := 0 |} |}] |}.

(** Reading [res.errors] of [undefined] throws. *)
Definition typeError `{NodeEnv} : Error :=
  {| name := "TypeError"; err_message := "Cannot read properties of undefined";
     stack := new_Error_stack |}.

(** The bodies of the four handlers. *)
Definition run_onFulfilled `{NodeEnv} (h : onFulfilled) (v : value) (s : state)
    : outcome * state :=
  match h with
  | ThenClear projectRoot =>
      (Fulfilled v, set_cache (<[projectRoot := None]> (_getFlowResults s)) s)
  | ThenReport fullPath callback =>
      match v with
      | VFlowResult res =>
          call_callback callback None (Some (createCodeInspectionReport fullPath res)) s
      | VUndefined => (Rejected typeError, s)
      end
  end.

Definition run_onRejected `{NodeEnv} (h : onRejected) (err : Error) (s : state)
    : outcome * state :=
  match h with
  | CatchClear projectRoot =>
      (Rejected err, set_cache (<[projectRoot := None]> (_getFlowResults s)) s)
  | CatchReport callback =>
      if decide (name err = "TimeoutError")
      then call_callback callback None (Some timeoutReport) s
      else call_callback callback (Some err) None s
  end.

(** One promise reaction job: the handler for the outcome runs and
    its completion settles the derived promise; without a handler the
    outcome passes through. *)
Definition run_job `{NodeEnv} (job : reaction * outcome) (s : state) : state :=
  let '(r, o) := job in
  match o with
  | Fulfilled v =>
      match on_fulfilled r with
      | Some h => let '(o', s) := run_onFulfilled h v s in settle (target r) o' s
      | None => settle (target r) o s
      end
  | Rejected err =>
      match on_rejected r with
      | Some h => let '(o', s) := run_onRejected h err s in settle (target r) o' s
      | None => settle (target r) o s
      end
  end.

Definition scanFileWithFlow `{NodeEnv} (fs : string -> option bool)
    (projectRoot fullPath : string) (callback : callback_fn) (s : state) : state :=
  if negb (hasFlowConfig fs projectRoot) then
    snd (call_callback callback None (Some {| CodeInspectionReport.errors := [] |}) s)
  else if negb (hasFlowBin fs projectRoot) then
    snd (call_callback callback None (Some missingBinReport) s)
  else
    let '(flowResult, s) := getFlowResult projectRoot s in
    match flowResult with
    | Slot p =>
        let '(p4, s) := then_ p (Some (ThenReport fullPath callback)) None s in
        let '(_, s) := then_ p4 None (Some (CatchReport callback)) s in
        s
    | FromPrototype _ =>
        (* [getFlowResult(...).then] is not a function: the call throws a
           [TypeError] to the caller of [scanFileWithFlow] *)
        s
    end.

(** ** The event loop

    What can happen to the module: a call from outside, a timer that
    fires, an event of a child process, and the next microtask. *)
Inductive event :=
| Scan (fs : string -> option bool) (projectRoot fullPath : string) (callback : callback_fn)
| Get (projectRoot : string)
| TimerFires (i : nat)
| Child (i : nat) (ev : child_event)
| Microtask.

Definition step `{NodeEnv} (e : event) (s : state) : state :=
  match e with
  | Scan fs projectRoot fullPath callback => scanFileWithFlow fs projectRoot fullPath callback s
  | Get projectRoot => snd (getFlowResult projectRoot s)
  | TimerFires i =>
      match invocations s !! i with
      | Some {| timeoutID := Armed _ |} =>
          onTimeout i (update_invocation i (fun inv =>
            {| projectRoot := projectRoot inv; base := base inv; resolved := resolved inv;
               timedOut := timedOut inv; timeoutID := Fired; child := child inv |}) s)
      | _ => s
      end
  | Child i ev =>
      match invocations s !! i with
      | Some inv =>
          let '(child', s) := emit log_error (onSpawnDone i) ev (child inv) s in
          update_invocation i (fun inv =>
            {| projectRoot := projectRoot inv; base := base inv; resolved := resolved inv;
               timedOut := timedOut inv; timeoutID := timeoutID inv; child := child' |}) s
      | None => s
      end
  | Microtask =>
      match microtasks s with
      | job :: rest => run_job job (set_microtasks rest s)
      | [] => s
      end
  end.

Definition run `{NodeEnv} (evs : list event) (s : state) : state :=
  fold_left (fun s e => step e s) evs s.

Inductive reachable `{NodeEnv} : state -> Prop :=
| reachable_init : reachable init
| reachable_step e s : reachable s -> reachable (step e s).

(** ** The mapper as the specification words it

    Per finding: the descriptions of the comment messages, joined by a
    space, are the optional prefix; then every message that is not a
    comment and whose path is the target's yields one diagnostic. *)
Definition isForFilePath `{NodeEnv} (filePath : string) (m : FlowMessage.t) : Prop :=
  path_resolve [filePath] = path_resolve [FlowMessage.path m].

#[global] Instance isForFilePath_dec `{NodeEnv} filePath m :
  Decision (isForFilePath filePath m).
Proof. unfold isForFilePath. apply _. Defined.

Definition spec_diagnostics `{NodeEnv} (filePath : string) (finding : FlowError.t)
    : list CodeInspectionResult.t :=
  let prefix := commentsOf finding in
  map (fun m => inspectionResult finding (messageText prefix m) m)
    (filter (fun m => FlowMessage.type m <> "Comment" /\ isForFilePath filePath m)
       (FlowError.message finding)).

Definition spec_report `{NodeEnv} (filePath : string) (raw : FlowResult.t)
    : CodeInspectionReport.t :=
  {| CodeInspectionReport.errors :=
       flat_map (spec_diagnostics filePath) (FlowResult.errors raw) |}.

(** What the code emits for one finding: one diagnostic per message of
    the target file. *)
Definition diagnosticsOf `{NodeEnv} (filePath : string) (flowError : FlowError.t)
    : list CodeInspectionResult.t :=
  map (fun m => inspectionResult flowError (messageText (commentsOf flowError) m) m)
    (filter (isForFilePath filePath) (FlowError.message flowError)).

(** ** The command runner observed from outside

    The calls [spawnWrapper] makes to its callback while the child emits
    [evs], oldest first. *)
Definition record_call (err : option Error) (result : option string)
    (calls : list (option Error * option string)) : list (option Error * option string) :=
  calls ++ [(err, result)].

Definition emit_calls (evs : list child_event) (child : ChildProcess)
    (calls : list (option Error * option string))
    : ChildProcess * list (option Error * option string) :=
  emit_all (fun _ _ calls => calls) record_call evs child calls.

Definition deliveries (cmd : string) (args : list string) (cwd : string)
    (evs : list child_event) : list (option Error * option string) :=
  snd (emit_calls evs (spawnWrapper cmd args cwd) []).

Definition count (f : option Error * option string -> bool)
    (calls : list (option Error * option string)) : nat :=
  length (List.filter f calls).

Definition wellShaped (call : option Error * option string) : Prop :=
  (exists text, call = (None, Some text)) \/ (exists err, call = (Some err, None)).

Definition isSuccess (call : option Error * option string) : bool :=
  match call with (None, _) => true | _ => false end.
Definition isFailure (call : option Error * option string) : bool :=
  match call with (Some _, _) => true | _ => false end.

(** The invocations a call of [getFlowResult] starts. *)
Definition started `{NodeEnv} (projectRoot : string) (s : state) : list invocation :=
  drop (length (invocations s)) (invocations (snd (getFlowResult projectRoot s))).

(** Shorthands for the promises and reactions [getFlowResult] makes. *)
Definition pending (rs : list reaction) : promise := {| pstatus := Pending; reactions := rs |}.

Definition settled (o : outcome) : promise := {| pstatus := Settled o; reactions := [] |}.

Definition thenClear (projectRoot : string) (t : nat) : reaction :=
  {| on_fulfilled := Some (ThenClear projectRoot); on_rejected := None; target := t |}.

Definition catchClear (projectRoot : string) (t : nat) : reaction :=
  {| on_fulfilled := None; on_rejected := Some (CatchClear projectRoot); target := t |}.

Definition newInvocation `{NodeEnv} (projectRoot : string) (p1 : nat) : invocation :=
  {| projectRoot := projectRoot; base := p1; resolved := false; timedOut := false;
     timeoutID := Armed FLOW_TIMEOUT;
     child := spawnWrapper
                (path_resolve [projectRoot; "node_modules"; ".bin";
                               if decide (process_platform = "win32") then "flow.cmd" else "flow"])
                ["--show-all-errors"; "--json"] projectRoot |}.

(** The cache has no promise under the key: the property is absent or
    holds [undefined]. *)
Definition vacant (s : state) (projectRoot : string) : Prop :=
  forall p, _getFlowResults s !! projectRoot <> Some (Some p).

(** The lookup of the key finds a property of [Object.prototype]: the
    cache has no property of its own under a name every object
    inherits. *)
Definition inherited (s : state) (projectRoot : string) : Prop :=
  _getFlowResults s !! projectRoot = None /\ projectRoot ∈ Object_prototype.

(** ** The invariant of the event loop

    Every invocation owns three consecutive promises: the one its
    executor settles ([base]), the one returned by [then] and the one
    returned by [catch], which is the slot kept in the cache.  An
    invocation goes through four stages. *)
Inductive stage :=
| Waiting
| Announced (o : outcome)
| Relayed (o : outcome)
| Delivered (o : outcome).

(** The jobs of the queue that settle promise [t]. *)
Definition jobsFor (t : nat) (q : list (reaction * outcome)) : list (reaction * outcome) :=
  filter (fun job => target (fst job) = t) q.

Definition flags_ok (inv : invocation) (st : stage) : Prop :=
  match st with
  | Waiting =>
      resolved inv = false /\ timedOut inv = false /\ timeoutID inv = Armed FLOW_TIMEOUT
  | Announced o | Relayed o | Delivered o =>
      (resolved inv = true /\ timedOut inv = false /\ timeoutID inv = Cleared) \/
      (resolved inv = false /\ timedOut inv = true /\ timeoutID inv = Fired /\
       exists err, o = Rejected err /\ name err = "TimeoutError")
  end.

Definition promises_ok (s : state) (K : string) (b : nat) (st : stage) : Prop :=
  let q := microtasks s in
  match st with
  | Waiting =>
      heap s !! b = Some (pending [thenClear K (b + 1)]) /\
      heap s !! (b + 1)%nat = Some (pending [catchClear K (b + 2)]) /\
      (exists ws, heap s !! (b + 2)%nat = Some (pending ws)) /\
      jobsFor (b + 1) q = [] /\ jobsFor (b + 2) q = []
  | Announced o =>
      heap s !! b = Some (settled o) /\
      heap s !! (b + 1)%nat = Some (pending [catchClear K (b + 2)]) /\
      (exists ws, heap s !! (b + 2)%nat = Some (pending ws)) /\
      jobsFor (b + 1) q = [(thenClear K (b + 1), o)] /\ jobsFor (b + 2) q = []
  | Relayed o =>
      heap s !! b = Some (settled o) /\
      heap s !! (b + 1)%nat = Some (settled o) /\
      (exists ws, heap s !! (b + 2)%nat = Some (pending ws)) /\
      jobsFor (b + 1) q = [] /\ jobsFor (b + 2) q = [(catchClear K (b + 2), o)]
  | Delivered o =>
      heap s !! b = Some (settled o) /\
      heap s !! (b + 1)%nat = Some (settled o) /\
      heap s !! (b + 2)%nat = Some (settled o) /\
      jobsFor (b + 1) q = [] /\ jobsFor (b + 2) q = []
  end.

Definition in_stage (s : state) (inv : invocation) (st : stage) : Prop :=
  flags_ok inv st /\ promises_ok s (projectRoot inv) (base inv) st.

(** The stages in which the cache still holds the slot: until the
    handler that clears it has run. *)
Definition live (st : stage) : Prop :=
  match st with
  | Waiting | Announced _ | Relayed (Rejected _) => True
  | _ => False
  end.

Definition has_chain (s : state) (K : string) (b : nat) : Prop :=
  exists i inv, invocations s !! i = Some inv /\ projectRoot inv = K /\ base inv = b.

Definition scanlike (r : reaction) : Prop :=
  (forall K, on_fulfilled r <> Some (ThenClear K)) /\
  (forall K, on_rejected r <> Some (CatchClear K)).

(** A reaction is one of the two of some invocation, or one registered
    by [scanFileWithFlow], whose derived promise no invocation owns. *)
Definition rtype (s : state) (r : reaction) : Prop :=
  (exists K b, has_chain s K b /\ r = thenClear K (b + 1)) \/
  (exists K b, has_chain s K b /\ r = catchClear K (b + 2)) \/
  (scanlike r /\
   forall K b, has_chain s K b ->
     target r <> b /\ target r <> (b + 1)%nat /\ target r <> (b + 2)%nat).

Record Inv (s : state) : Prop := {
  inv_apart : forall i j inv inv',
    invocations s !! i = Some inv -> invocations s !! j = Some inv' -> i <> j ->
    (base inv + 3 <= base inv')%nat \/ (base inv' + 3 <= base inv)%nat;
  inv_alloc : forall K b, has_chain s K b -> (b + 2 < length (heap s))%nat;
  inv_queue : forall r o, (r, o) ∈ microtasks s ->
    rtype s r /\ (target r < length (heap s))%nat;
  inv_heap : forall p pr r, heap s !! p = Some pr -> r ∈ reactions pr ->
    rtype s r /\ (target r < length (heap s))%nat /\
    forall K b, has_chain s K b ->
      (target r = (b + 1)%nat -> p = b) /\ (target r = (b + 2)%nat -> p = (b + 1)%nat);
  inv_stage : forall i inv, invocations s !! i = Some inv ->
    exists st, in_stage s inv st /\
      (live st -> _getFlowResults s !! projectRoot inv = Some (Some (base inv + 2)%nat));
  inv_cache : forall K p, _getFlowResults s !! K = Some (Some p) ->
    exists i inv st, invocations s !! i = Some inv /\ projectRoot inv = K /\
      p = (base inv + 2)%nat /\ in_stage s inv st /\ live st
}.

Arguments jobsFor : simpl never.

(** The key and the first promise of every invocation, oldest first. *)
Definition chains (s : state) : list (string * nat) :=
  (fun inv => (projectRoot inv, base inv)) <$> invocations s.

(** A promise no invocation settles itself or through [then]: a slot
    or a promise made by [scanFileWithFlow]. *)
Definition open_to_waiters (s : state) (p : nat) : Prop :=
  forall K b, has_chain s K b -> p <> b /\ p <> (b + 1)%nat.

(** Settled promises stay as they are. *)
Definition keeps (s s' : state) : Prop :=
  forall p o, heap s !! p = Some (settled o) -> heap s' !! p = Some (settled o).

(** The number of invocations started for a key so far. *)
Definition spawned (root : string) (s : state) : nat :=
  length (filter (fun c => fst c = root) (chains s)).

(** The events that make an invocation call [resolve] or [reject]: its
    timer, and the first [close] or [error] of its child. *)
Definition settles (i : nat) (inv : invocation) (e : event) : Prop :=
  e = TimerFires i \/
  (exists code, e = Child i (Close code) /\ once_close (child inv) = true) \/
  (exists err, e = Child i (ChildError err) /\ once_error (child inv) = true).

(** ** A small world to run the module in

    A project [/p] on POSIX whose file system has every file asked for,
    a [flow] binary that prints [<flow output>], parsed to one error on
    [/p/a.js], and callbacks that return normally. *)
Definition demo_raw : FlowResult.t :=
  {| FlowResult.errors :=
       [{| FlowError.level := "error";
           FlowError.message :=
             [{| FlowMessage.path := "/p/a.js"; FlowMessage.type := "Blame";
                 FlowMessage.descr := "number"; FlowMessage.line := 5%Z;
                 FlowMessage.start := 3%Z |}] |}] |}.

Definition demo_env : NodeEnv := Posix.env "/home/u" [("<flow output>", demo_raw)].

Definition demo_fs (fullPath : string) : option bool := Some true.

Definition demo_callback (id : nat) : callback_fn :=
  {| cb_id := id; cb_throws := fun _ _ => None |}.

Definition demo_scan (id : nat) : event :=
  Scan demo_fs "/p" "/p/a.js" (demo_callback id).

(** ** Counting reactions and callback calls *)

(** The sum of a weight over the queued jobs and over the reactions
    registered on the promises of the heap. *)
Definition hsum (w : reaction -> nat) (h : list promise) : nat :=
  sum_list_with (fun pr => sum_list_with w (reactions pr)) h.

Definition weight (wq : reaction * outcome -> nat) (w : reaction -> nat) (s : state) : nat :=
  (sum_list_with wq (microtasks s) + hsum w (heap s))%nat.

Definition hits (t : nat) (r : reaction) : nat := if decide (target r = t) then 1%nat else 0%nat.

(** How many reactions, queued or registered, settle promise [t]. *)
Definition refs (t : nat) (s : state) : nat := weight (fun job => hits t (fst job)) (hits t) s.

(** The reaction is the [then] (the [catch]) of a scan whose callback
    has identity [c]. *)
Definition thenFor (c : nat) (r : reaction) : bool :=
  match on_fulfilled r with
  | Some (ThenReport _ callback) => bool_decide (cb_id callback = c)
  | _ => false
  end.

Definition catchFor (c : nat) (r : reaction) : bool :=
  match on_rejected r with
  | Some (CatchReport callback) => bool_decide (cb_id callback = c)
  | _ => false
  end.

Definition isRejected (o : outcome) : bool :=
  match o with
  | Rejected _ => true
  | Fulfilled _ => false
  end.

Definition owedBy (c : nat) (r : reaction) : nat := if thenFor c r then 1%nat else 0%nat.

Definition catchW (c : nat) (r : reaction) : nat := if catchFor c r then 1%nat else 0%nat.

Definition owedByJob (c : nat) (job : reaction * outcome) : nat :=
  (owedBy c (fst job) + if isRejected (snd job) then catchW c (fst job) else 0)%nat.

(** The calls of callback [c] still to come: one for every [then]
    reaction of a scan that has not run yet, and one for every queued
    [catch] reaction of a scan that is about to see a rejection. *)
Definition owed (c : nat) (s : state) : nat := weight (owedByJob c) (owedBy c) s.

(** The calls of callback [c] made so far. *)
Definition paid (c : nat) (s : state) : nat :=
  sum_list_with (fun call => if decide (fst call = c) then 1%nat else 0%nat) (callbacks s).

(** The scans asked for with callback [c]. *)
Definition scanOf (c : nat) (e : event) : nat :=
  match e with
  | Scan _ _ _ callback => if decide (cb_id callback = c) then 1%nat else 0%nat
  | _ => 0%nat
  end.

Definition scans (c : nat) (evs : list event) : nat := sum_list_with (scanOf c) evs.

(** A callback that returns normally whenever it is handed a report. *)
Definition polite (callback : callback_fn) : Prop :=
  forall result, cb_throws callback None (Some result) = None.

Definition politeEvent (e : event) : Prop :=
  match e with
  | Scan _ _ _ callback => polite callback
  | _ => True
  end.

(** A scan of a project whose root does not name a property the cache
    inherits. *)
Definition ownKeyEvent (e : event) : Prop :=
  match e with
  | Scan _ projectRoot _ _ => projectRoot ∉ Object_prototype
  | _ => True
  end.

(** Nothing is in flight: the queue is empty and every invocation has
    settled. *)
Definition quiescent (s : state) : Prop :=
  microtasks s = [] /\
  Forall (fun inv => resolved inv || timedOut inv = true) (invocations s).

(** A callback that throws whenever it is called. *)
Definition throwing_callback (id : nat) : callback_fn :=
  {| cb_id := id;
     cb_throws := fun _ _ =>
       Some {| name := "Error"; err_message := "callback failed"; stack := "Error: callback failed" |} |}.

(** Where a reaction can be: registered on promise [p], or in a job of
    the queue. *)
Definition sits (s : state) (p : nat) (r : reaction) : Prop :=
  exists pr, heap s !! p = Some pr /\ r ∈ reactions pr.

Definition queued (s : state) (r : reaction) : Prop := exists o, (r, o) ∈ microtasks s.

Definition occurs (s : state) (r : reaction) : Prop := queued s r \/ exists p, sits s p r.

(** The two reactions [scanFileWithFlow] registers (lines 163 and 165). *)
Definition thenReport (fullPath : string) (callback : callback_fn) (t : nat) : reaction :=
  {| on_fulfilled := Some (ThenReport fullPath callback); on_rejected := None; target := t |}.

Definition catchReport (callback : callback_fn) (t : nat) : reaction :=
  {| on_fulfilled := None; on_rejected := Some (CatchReport callback); target := t |}.

(** A scan's [then] reaction settles a pending promise that holds the
    [catch] reaction of the same scan and nothing else; a scan's [catch]
    reaction settles a pending promise nobody waits for. *)
Definition paired (s : state) (r : reaction) : Prop :=
  match on_fulfilled r, on_rejected r with
  | Some (ThenReport _ callback), None =>
      polite callback /\
      exists t, heap s !! target r = Some (pending [catchReport callback t])
  | None, Some (CatchReport _) => heap s !! target r = Some (pending [])
  | _, _ => False
  end.

(** A scan's [then] reaction is registered on a slot, its [catch]
    reaction elsewhere. *)
Definition placed (s : state) (p : nat) (r : reaction) : Prop :=
  match on_fulfilled r with
  | Some _ => exists K b, has_chain s K b /\ p = (b + 2)%nat
  | None => forall K b, has_chain s K b -> p <> (b + 2)%nat
  end.

(** The calls of callback [c] that settling promise [t] with [o] makes
    due: the [catch] reactions waiting on it, when [o] is a rejection. *)
Definition due (c : nat) (o : outcome) (s : state) (t : nat) : nat :=
  match heap s !! t with
  | Some {| pstatus := Pending; reactions := rs |} =>
      if isRejected o then sum_list_with (catchW c) rs else 0%nat
  | _ => 0%nat
  end.

Definition callsOf (c : nat)
    (calls : list (nat * (option Error * option CodeInspectionReport.t))) : nat :=
  sum_list_with (fun call => if decide (fst call = c) then 1%nat else 0%nat) calls.

Record Ledger (s : state) : Prop := {
  led_paired : forall r, occurs s r -> scanlike r -> paired s r;
  led_placed : forall p r, sits s p r -> scanlike r -> placed s p r
}.

(** No promise is settled by two reactions. *)
Definition Uniq (s : state) : Prop := forall t, (refs t s <= 1)%nat.

(** What the handler of a job does before the derived promise is
    settled with [o']: the calls it makes to a completion callback. *)
Definition handled `{NodeEnv} (r : reaction) (o o' : outcome)
    (calls : list (nat * (option Error * option CodeInspectionReport.t))) : Prop :=
  match o with
  | Fulfilled v =>
      match on_fulfilled r with
      | Some (ThenReport fullPath callback) =>
          match v with
          | VFlowResult res =>
              let report := createCodeInspectionReport fullPath res in
              calls = [(cb_id callback, (None, Some report))] /\
              o' = match cb_throws callback None (Some report) with
                   | None => Fulfilled VUndefined
                   | Some thrown => Rejected thrown
                   end
          | VUndefined => calls = [] /\ isRejected o' = true
          end
      | _ => calls = [] /\ o' = o
      end
  | Rejected err =>
      match on_rejected r with
      | Some (CatchReport callback) => exists args, calls = [(cb_id callback, args)]
      | _ => calls = [] /\ o' = o
      end
  end.

(** ** The messages a report is made from *)

(** The messages of a result that are for the target file, in the order
    of the findings and, within a finding, of its messages. *)
Definition messagesFor `{NodeEnv} (filePath : string) (flowResult : FlowResult.t)
    : list FlowMessage.t :=
  flat_map (fun flowError => filter (isForFilePath filePath) (FlowError.message flowError))
    (FlowResult.errors flowResult).

(** [line - 1] and [start - 1] of a message. *)
Definition zeroBased (m : FlowMessage.t) : Pos.t :=
  {| Pos.line := (FlowMessage.line m - 1)%Z; Pos.ch := (FlowMessage.start m - 1)%Z |}.

(** ** The command runner and the log

    What [spawnWrapper] is seen to do while the child emits its events:
    its calls of [log.error] and of the callback, oldest first. *)
Inductive observed :=
| Logged (tag text : string)
| Called (err : option Error) (result : option string).

Definition observe (cmd : string) (args : list string) (cwd : string)
    (evs : list child_event) : list observed :=
  snd (emit_all (fun tag text seen => seen ++ [Logged tag text])
                (fun err result seen => seen ++ [Called err result])
                evs (spawnWrapper cmd args cwd) []).

(** A call of the callback as it is observed: a failure comes right
    after the log entry for it. *)
Definition observedCall (call : option Error * option string) : list observed :=
  match call with
  | (Some err, result) => [Logged "spawn-error" (stack err); Called (Some err) result]
  | (None, result) => [Called None result]
  end.

Definition isData (ev : child_event) : Prop := exists data, ev = Data data.

(** ** Outcomes of an invocation *)

(** What the callback of lines 108-122 settles the promise with when the
    child has closed: the parsed output, or what [JSON.parse] threw. *)
Definition parsed `{NodeEnv} (text : string) : outcome :=
  match JSON_parse text with
  | inl res => Fulfilled (VFlowResult res)
  | inr thrown => Rejected thrown
  end.

(** The error the timer closure of lines 100-106 rejects with. *)
Definition timeoutError `{NodeEnv} : Error :=
  {| name := "TimeoutError"; err_message := err_message new_Error; stack := stack new_Error |}.

(** The outcome an event settles a waiting invocation with. *)
Definition outcomeOf `{NodeEnv} (inv : invocation) (e : event) : outcome :=
  match e with
  | Child _ (Close _) => parsed (Buffer_concat (stdout (child inv)))
  | Child _ (ChildError err) => Rejected err
  | _ => Rejected timeoutError
  end.

(** A call of a completion callback in the Node style: a report and no
    error, or an error and no report; a timeout is not handed over as
    an error. *)
Definition wellAnswered (call : nat * (option Error * option CodeInspectionReport.t)) : Prop :=
  match snd call with
  | (None, Some _) => True
  | (Some err, None) => name err <> "TimeoutError"
  | _ => False
  end.

(** ** Answers to the waiters of a slot *)

(** A reaction put on a slot by [scanFileWithFlow]. *)
Definition isWaiter (r : reaction) : Prop :=
  exists fullPath callback t, r = thenReport fullPath callback t.

(** What the callback of a scan of [fullPath] is called with when the
    slot settles with [o]: lines 154, 159-165 and 168.  Reading
    [res.errors] of [undefined] throws a [TypeError], which the [catch]
    handler hands over. *)
Definition answer `{NodeEnv} (o : outcome) (fullPath : string)
    : option Error * option CodeInspectionReport.t :=
  match o with
  | Fulfilled (VFlowResult res) => (None, Some (createCodeInspectionReport fullPath res))
  | Fulfilled VUndefined => (Some typeError, None)
  | Rejected err =>
      if decide (name err = "TimeoutError") then (None, Some timeoutReport)
      else (Some err, None)
  end.

Definition answerTo `{NodeEnv} (o : outcome) (r : reaction)
    : list (nat * (option Error * option CodeInspectionReport.t)) :=
  match on_fulfilled r with
  | Some (ThenReport fullPath callback) => [(cb_id callback, answer o fullPath)]
  | _ => []
  end.

(** What the [then] handler of a scan whose callback returns normally
    completes with, and the calls the two handlers make. *)
Definition thenOutcome `{NodeEnv} (o : outcome) : outcome :=
  match o with
  | Fulfilled (VFlowResult _) => Fulfilled VUndefined
  | Fulfilled VUndefined => Rejected typeError
  | Rejected err => Rejected err
  end.

Definition thenCalls `{NodeEnv} (o : outcome) (r : reaction)
    : list (nat * (option Error * option CodeInspectionReport.t)) :=
  match o with
  | Fulfilled (VFlowResult _) => answerTo o r
  | _ => []
  end.

Definition catchCalls (job : reaction * outcome)
    : list (nat * (option Error * option CodeInspectionReport.t)) :=
  match on_rejected (fst job), snd job with
  | Some (CatchReport callback), Rejected err =>
      [(cb_id callback,
        if decide (name err = "TimeoutError") then (None, Some timeoutReport)
        else (Some err, None))]
  | _, _ => []
  end.

(** The [catch] job a scan's [then] job leaves behind. *)
Definition follows `{NodeEnv} (o : outcome) (r : reaction) (job : reaction * outcome) : Prop :=
  exists fullPath callback t t',
    r = thenReport fullPath callback t /\ job = (catchReport callback t', thenOutcome o).

(** * Properties *)

(** ** Result mapper *)

Section Mapper.
Context `{NodeEnv}.

Lemma fold_visitMessage filePath flowError comments ms acc :
  fold_left (visitMessage filePath flowError comments) ms acc =
  acc ++ map (fun m => inspectionResult flowError (messageText comments m) m)
           (filter (isForFilePath filePath) ms).
Proof.
  revert acc. induction ms as [|m ms IH]; intros acc; simpl.
  - by rewrite app_nil_r.
  - rewrite IH. unfold visitMessage at 1. rewrite filter_cons. unfold isForFilePath at 2.
    destruct (decide (path_resolve [filePath] = path_resolve [FlowMessage.path m])) as [E|E].
    + rewrite bool_decide_eq_true_2 by done. simpl. by rewrite <- app_assoc.
    + rewrite bool_decide_eq_false_2 by done. reflexivity.
Qed.

Lemma fold_visitError filePath fes acc :
  fold_left (visitError filePath) fes acc = acc ++ flat_map (diagnosticsOf filePath) fes.
Proof.
  revert acc. induction fes as [|fe fes IH]; intros acc; simpl.
  - by rewrite app_nil_r.
  - rewrite IH. unfold visitError at 1. rewrite fold_visitMessage.
    by rewrite <- app_assoc.
Qed.

Lemma report_diagnosticsOf filePath flowResult :
  CodeInspectionReport.errors (createCodeInspectionReport filePath flowResult) =
  flat_map (diagnosticsOf filePath) (FlowResult.errors flowResult).
Proof. unfold createCodeInspectionReport. simpl. by rewrite fold_visitError. Qed.

End Mapper.

(** C6: every diagnostic of the report stems from a message whose
    resolved path is the resolved target path, the report has exactly
    one diagnostic per such message, and so a message for [/b.js] leaves
    nothing in a report asked for [/a.js]. *)
Theorem mapper_filters_by_path :
  (forall (env : NodeEnv) filePath flowResult,
     let report := CodeInspectionReport.errors (createCodeInspectionReport filePath flowResult) in
     (forall d, In d report ->
        exists flowError m,
          In flowError (FlowResult.errors flowResult) /\
          In m (FlowError.message flowError) /\
          path_resolve [filePath] = path_resolve [FlowMessage.path m] /\
          d = inspectionResult flowError (messageText (commentsOf flowError) m) m) /\
     length report =
       list_sum (map (fun flowError =>
                   length (filter (isForFilePath filePath) (FlowError.message flowError)))
                 (FlowResult.errors flowResult)) /\
     ((forall flowError m,
         In flowError (FlowResult.errors flowResult) ->
         In m (FlowError.message flowError) ->
         path_resolve [filePath] <> path_resolve [FlowMessage.path m]) ->
      report = [])) /\
  (forall cwd table flowResult,
     (forall flowError m,
        In flowError (FlowResult.errors flowResult) ->
        In m (FlowError.message flowError) -> FlowMessage.path m = "/b.js") ->
     createCodeInspectionReport (H := Posix.env cwd table) "/a.js" flowResult =
     {| CodeInspectionReport.errors := [] |}).
Proof.
  assert (G : forall (env : NodeEnv) filePath flowResult,
    (forall flowError m,
         In flowError (FlowResult.errors flowResult) ->
         In m (FlowError.message flowError) ->
         path_resolve [filePath] <> path_resolve [FlowMessage.path m]) ->
    CodeInspectionReport.errors (createCodeInspectionReport filePath flowResult) = []).
  { intros env filePath flowResult Hno. rewrite report_diagnosticsOf.
    induction (FlowResult.errors flowResult) as [|fe fes IH]; [done|]. simpl.
    rewrite IH by (intros; eapply Hno; [right|]; eauto). rewrite app_nil_r.
    unfold diagnosticsOf.
    assert (Hfe : forall m, In m (FlowError.message fe) ->
              path_resolve [filePath] <> path_resolve [FlowMessage.path m])
      by (intros; eapply Hno; [left|]; eauto).
    induction (FlowError.message fe) as [|m ms IHm]; [done|].
    rewrite filter_cons_False by (apply Hfe; by left).
    apply IHm. intros; apply Hfe; by right. }
  split.
  - intros env filePath flowResult report. subst report. repeat split.
    + intros d. rewrite report_diagnosticsOf. rewrite in_flat_map.
      intros (fe & Hfe & Hd). unfold diagnosticsOf in Hd. rewrite in_map_iff in Hd.
      destruct Hd as (m & <- & Hm). apply list_elem_of_In, list_elem_of_filter in Hm.
      destruct Hm as [Hp Hm]. exists fe, m.
      split; [done|]. split; [by apply list_elem_of_In|]. split; [exact Hp|done].
    + rewrite report_diagnosticsOf.
      induction (FlowResult.errors flowResult) as [|fe fes IH]; [done|]. simpl.
      rewrite length_app, IH. unfold diagnosticsOf. by rewrite length_map.
    + apply G.
  - intros cwd table flowResult Hb.
    pose proof (G (Posix.env cwd table) "/a.js" flowResult) as G'.
    destruct (createCodeInspectionReport "/a.js" flowResult) as [errs]. simpl in G'.
    rewrite G'; [done|]. intros fe m Hfe Hm. rewrite (Hb fe m Hfe Hm).
    vm_compute. discriminate.
Qed.

(** C4, as the code has it: a diagnostic is emitted for every message
    whose resolved path is the target's, whatever its kind; a message of
    type [Comment] that is not for the target is never turned into a
    diagnostic, and when no [Comment] message is for the target the
    report is the one the specification describes. *)
Theorem comments_off_target_are_prefix_only `{NodeEnv} (filePath : string)
    (flowResult : FlowResult.t) :
  (forall flowError m,
     In flowError (FlowResult.errors flowResult) ->
     In m (FlowError.message flowError) ->
     FlowMessage.type m = "Comment" -> ~ isForFilePath filePath m) ->
  CodeInspectionReport.errors (createCodeInspectionReport filePath flowResult) =
    flat_map (diagnosticsOf filePath) (FlowResult.errors flowResult) /\
  createCodeInspectionReport filePath flowResult = spec_report filePath flowResult.
Proof.
  intros Hc. split; [apply report_diagnosticsOf|].
  unfold createCodeInspectionReport, spec_report. f_equal.
  rewrite fold_visitError. simpl.
  induction (FlowResult.errors flowResult) as [|fe fes IH]; [done|]. simpl.
  rewrite IH by (intros; eapply Hc; [right|..]; eauto). f_equal.
  unfold diagnosticsOf, spec_diagnostics. f_equal.
  assert (Hfe : forall m, In m (FlowError.message fe) ->
            FlowMessage.type m = "Comment" -> ~ isForFilePath filePath m)
    by (intros; eapply Hc; [left|..]; eauto).
  induction (FlowError.message fe) as [|m ms IHm]; [done|].
  rewrite !filter_cons. rewrite IHm by (intros; apply Hfe; [by right|done]).
  destruct (decide (isForFilePath filePath m)) as [Hp|Hp].
  - rewrite decide_True; [done|]. split; [|done]. intros Ht. apply (Hfe m); [by left|done..].
  - rewrite decide_False; [done|]. by intros [_ ?].
Qed.

Lemma comments_off_target_witness :
  let comment := {| FlowMessage.path := ""; FlowMessage.type := "Comment";
                    FlowMessage.descr := "This type is incompatible with";
                    FlowMessage.line := 0%Z; FlowMessage.start := 1%Z |} in
  let blame := {| FlowMessage.path := "/a.js"; FlowMessage.type := "Blame";
                  FlowMessage.descr := "number"; FlowMessage.line := 5%Z;
                  FlowMessage.start := 3%Z |} in
  let raw := {| FlowResult.errors :=
                  [{| FlowError.level := "error";
                      FlowError.message := [blame; comment] |}] |} in
  CodeInspectionReport.errors
    (createCodeInspectionReport (H := Posix.env "/home/u" []) "/a.js" raw) =
    flat_map (diagnosticsOf (H := Posix.env "/home/u" []) "/a.js") (FlowResult.errors raw) /\
  createCodeInspectionReport (H := Posix.env "/home/u" []) "/a.js" raw =
    spec_report (H := Posix.env "/home/u" []) "/a.js" raw.
Proof.
  intros comment blame raw.
  apply (comments_off_target_are_prefix_only (H := Posix.env "/home/u" []) "/a.js" raw).
  intros flowError m [<-|[]] [<-|[<-|[]]] Hkind; [discriminate Hkind|].
  vm_compute. discriminate.
Defined.

(** C4 fails as stated: a finding whose only message is a [Comment] for
    the target file yields a diagnostic made from that comment. *)
Lemma comment_for_target_is_reported :
  let note := {| FlowMessage.path := "/a.js"; FlowMessage.type := "Comment";
                 FlowMessage.descr := "note"; FlowMessage.line := 2%Z;
                 FlowMessage.start := 1%Z |} in
  let raw := {| FlowResult.errors :=
                  [{| FlowError.level := "warning"; FlowError.message := [note] |}] |} in
  createCodeInspectionReport (H := Posix.env "/home/u" []) "/a.js" raw =
    {| CodeInspectionReport.errors :=
         [{| CodeInspectionResult.type := "problem_type_warning";
             CodeInspectionResult.message := "note: note";
             CodeInspectionResult.pos := {| Pos.line := 1; Pos.ch := 0 |} |}] |} /\
  spec_report (H := Posix.env "/home/u" []) "/a.js" raw =
    {| CodeInspectionReport.errors := [] |}.
Proof. split; vm_compute; reflexivity. Qed.

(** C5, as the code has it: with the comment message of type [Comment]
    and not itself for the target file, the finding maps to the single
    diagnostic with the joined prefix, the severity of the level and the
    0-based position. *)
Theorem mapper_round_trip `{NodeEnv} (level commentPath kind : string) (commentLine commentStart : Z) :
  path_resolve ["/a.js"] <> path_resolve [commentPath] ->
  kind <> "Comment" ->
  createCodeInspectionReport "/a.js"
    {| FlowResult.errors :=
         [{| FlowError.level := level;
             FlowError.message :=
               [{| FlowMessage.path := commentPath; FlowMessage.type := "Comment";
                   FlowMessage.descr := "Foo"; FlowMessage.line := commentLine;
                   FlowMessage.start := commentStart |};
                {| FlowMessage.path := "/a.js"; FlowMessage.type := kind;
                   FlowMessage.descr := "bad"; FlowMessage.line := 5%Z;
                   FlowMessage.start := 3%Z |}] |}] |} =
  {| CodeInspectionReport.errors :=
       [{| CodeInspectionResult.type :=
             if decide (level = "error") then "problem_type_error" else "problem_type_warning";
           CodeInspectionResult.message := "Foo: bad";
           CodeInspectionResult.pos := {| Pos.line := 4; Pos.ch := 2 |} |}] |}.
Proof.
  intros Hpath Hkind.
  unfold createCodeInspectionReport. f_equal. rewrite fold_visitError.
  cbn [FlowResult.errors flat_map app]. unfold diagnosticsOf, commentsOf.
  cbn [FlowError.message].
  rewrite (filter_cons_False (isForFilePath "/a.js")) by exact Hpath.
  rewrite (filter_cons_True (isForFilePath "/a.js")) by reflexivity.
  rewrite (filter_cons_True (fun x => FlowMessage.type x = "Comment")) by reflexivity.
  rewrite (filter_cons_False (fun x => FlowMessage.type x = "Comment")) by exact Hkind.
  reflexivity.
Qed.

Lemma mapper_round_trip_witness :
  createCodeInspectionReport (H := Posix.env "/home/u" []) "/a.js"
    {| FlowResult.errors :=
         [{| FlowError.level := "error";
             FlowError.message :=
               [{| FlowMessage.path := ""; FlowMessage.type := "Comment";
                   FlowMessage.descr := "Foo"; FlowMessage.line := 0%Z;
                   FlowMessage.start := 1%Z |};
                {| FlowMessage.path := "/a.js"; FlowMessage.type := "Blame";
                   FlowMessage.descr := "bad"; FlowMessage.line := 5%Z;
                   FlowMessage.start := 3%Z |}] |}] |} =
  {| CodeInspectionReport.errors :=
       [{| CodeInspectionResult.type := "problem_type_error";
           CodeInspectionResult.message := "Foo: bad";
           CodeInspectionResult.pos := {| Pos.line := 4; Pos.ch := 2 |} |}] |}.
Proof.
  apply (mapper_round_trip (H := Posix.env "/home/u" []) "error" "" "Blame" 0%Z 1%Z).
  - vm_compute. discriminate.
  - discriminate.
Defined.

(** C5 fails as stated: when the comment message is itself for [/a.js]
    the mapping yields two diagnostics, the first made from the comment. *)
Lemma round_trip_with_comment_for_target :
  createCodeInspectionReport (H := Posix.env "/home/u" []) "/a.js"
    {| FlowResult.errors :=
         [{| FlowError.level := "error";
             FlowError.message :=
               [{| FlowMessage.path := "/a.js"; FlowMessage.type := "Comment";
                   FlowMessage.descr := "Foo"; FlowMessage.line := 5%Z;
                   FlowMessage.start := 1%Z |};
                {| FlowMessage.path := "/a.js"; FlowMessage.type := "Blame";
                   FlowMessage.descr := "bad"; FlowMessage.line := 5%Z;
                   FlowMessage.start := 3%Z |}] |}] |} =
  {| CodeInspectionReport.errors :=
       [{| CodeInspectionResult.type := "problem_type_error";
           CodeInspectionResult.message := "Foo: Foo";
           CodeInspectionResult.pos := {| Pos.line := 4; Pos.ch := 0 |} |};
        {| CodeInspectionResult.type := "problem_type_error";
           CodeInspectionResult.message := "Foo: bad";
           CodeInspectionResult.pos := {| Pos.line := 4; Pos.ch := 2 |} |}] |}.
Proof. vm_compute. reflexivity. Qed.

(** ** Command runner *)

Section Runner.

Lemma emit_calls_cons ev evs child calls :
  emit_calls (ev :: evs) child calls =
  let '(child', calls') := emit (fun _ _ calls => calls) record_call ev child calls in
  emit_calls evs child' calls'.
Proof. reflexivity. Qed.

Lemma emit_all_bounds evs : forall child calls,
  exists new,
    snd (emit_calls evs child calls) = calls ++ new /\
    (count isSuccess new <= if once_close child then 1 else 0)%nat /\
    (count isFailure new <= if once_error child then 1 else 0)%nat /\
    Forall wellShaped new.
Proof.
  induction evs as [|ev evs IH]; intros child calls.
  - exists []. rewrite app_nil_r. repeat split; simpl; try by constructor.
    all: destruct (once_close child), (once_error child); cbn; lia.
  - destruct ev as [data|code|err]; rewrite emit_calls_cons; cbn [emit].
    + destruct (IH {| cmd := cmd child; args := args child; cwd := cwd child;
                      stdout := stdout child ++ [data];
                      once_close := once_close child; once_error := once_error child |}
                   calls) as (new & E & ?); exists new; auto.
    + destruct (once_close child) eqn:Hc.
      * destruct (IH {| cmd := cmd child; args := args child; cwd := cwd child;
                        stdout := stdout child;
                        once_close := false; once_error := once_error child |}
                     (record_call None (Some (Buffer_concat (stdout child))) calls))
          as (new & E & Hs & Hf & Hw).
        exists ((None, Some (Buffer_concat (stdout child))) :: new).
        rewrite E. unfold record_call. rewrite <- app_assoc.
        cbn in *. unfold count in *. split; [done|]. split; [lia|]. split; [done|].
        constructor; [left; eauto|done].
      * destruct (IH child calls) as (new & E & Hs & Hf & Hw). rewrite Hc in Hs.
        exists new; auto.
    + destruct (once_error child) eqn:Hc.
      * destruct (IH {| cmd := cmd child; args := args child; cwd := cwd child;
                        stdout := stdout child;
                        once_close := once_close child; once_error := false |}
                     (record_call (Some err) None calls))
          as (new & E & Hs & Hf & Hw).
        exists ((Some err, None) :: new).
        rewrite E. unfold record_call. rewrite <- app_assoc.
        cbn in *. unfold count in *. split; [done|]. split; [done|]. split; [lia|].
        constructor; [right; eauto|done].
      * destruct (IH child calls) as (new & E & Hs & Hf & Hw). rewrite Hc in Hf.
        exists new; auto.
Qed.

Lemma emit_all_data chunks : forall child calls,
  emit_calls (map Data chunks) child calls =
  ({| cmd := cmd child; args := args child; cwd := cwd child;
      stdout := stdout child ++ chunks;
      once_close := once_close child; once_error := once_error child |}, calls).
Proof.
  induction chunks as [|c chunks IH]; intros child calls.
  - cbn. rewrite app_nil_r. by destruct child.
  - cbn [map]. rewrite emit_calls_cons. cbn [emit]. rewrite IH. cbn. by rewrite <- app_assoc.
Qed.

Lemma emit_all_after_close evs : forall child calls,
  once_close child = false ->
  Forall (fun ev => forall err, ev <> ChildError err) evs ->
  snd (emit_calls evs child calls) = calls.
Proof.
  induction evs as [|ev evs IH]; intros child calls Hc Hev; [done|].
  inversion Hev as [|? ? Hhd Htl]; subst.
  destruct ev as [data|code|err]; rewrite emit_calls_cons; cbn [emit].
  - apply IH; done.
  - rewrite Hc. apply IH; done.
  - by destruct (Hhd err).
Qed.

Lemma emit_all_after_error evs : forall child calls,
  once_error child = false ->
  Forall (fun ev => forall code, ev <> Close code) evs ->
  snd (emit_calls evs child calls) = calls.
Proof.
  induction evs as [|ev evs IH]; intros child calls Hc Hev; [done|].
  inversion Hev as [|? ? Hhd Htl]; subst.
  destruct ev as [data|code|err]; rewrite emit_calls_cons; cbn [emit].
  - apply IH; done.
  - by destruct (Hhd code).
  - rewrite Hc. apply IH; done.
Qed.

Lemma emit_all_app evs1 evs2 child calls :
  emit_calls (evs1 ++ evs2) child calls =
  let '(child', calls') := emit_calls evs1 child calls in emit_calls evs2 child' calls'.
Proof.
  revert child calls. induction evs1 as [|ev evs1 IH]; intros child calls; [done|].
  cbn [app]. rewrite !emit_calls_cons.
  destruct (emit _ _ ev child calls) as [child' calls']. apply IH.
Qed.

(** C7, as the code has it: the callback is called at most once with a
    result and at most once with an error, each call carrying one of the
    two; when the child emits [close] and no [error] the only call is
    the success with the chunks concatenated in order, and when it emits
    [error] and no [close] the only call is that error. *)
Theorem spawnWrapper_deliveries (cmd : string) (args : list string) (cwd : string) :
  (forall evs,
     (count isSuccess (deliveries cmd args cwd evs) <= 1)%nat /\
     (count isFailure (deliveries cmd args cwd evs) <= 1)%nat /\
     Forall wellShaped (deliveries cmd args cwd evs)) /\
  (forall chunks code rest,
     Forall (fun ev => forall err, ev <> ChildError err) rest ->
     deliveries cmd args cwd (map Data chunks ++ Close code :: rest) =
     [(None, Some (String.concat "" chunks))]) /\
  (forall chunks err rest,
     Forall (fun ev => forall code, ev <> Close code) rest ->
     deliveries cmd args cwd (map Data chunks ++ ChildError err :: rest) =
     [(Some err, None)]).
Proof.
  repeat split.
  1-3: destruct (emit_all_bounds evs (spawnWrapper cmd args cwd) []) as (new & E & Hs & Hf & Hw);
    unfold deliveries; rewrite E; simpl in *; done.
  - intros chunks code rest Hrest. unfold deliveries.
    rewrite emit_all_app, emit_all_data, emit_calls_cons. cbn [emit once_close spawnWrapper].
    rewrite emit_all_after_close by done. reflexivity.
  - intros chunks err rest Hrest. unfold deliveries.
    rewrite emit_all_app, emit_all_data, emit_calls_cons. cbn [emit once_error spawnWrapper].
    rewrite emit_all_after_error by done. reflexivity.
Qed.

(** C7 fails as stated: a child that could not be spawned emits [error]
    and then [close], and the callback is called with the error and then
    with a result. *)
Lemma spawn_failure_delivers_twice :
  let err := {| name := "Error"; err_message := "spawn flow ENOENT"; stack := "Error" |} in
  deliveries "/p/node_modules/.bin/flow" ["--show-all-errors"; "--json"] "/p"
    [ChildError err; Close (-2)] =
  [(Some err, None); (None, Some "")].
Proof. reflexivity. Qed.

End Runner.

(** ** The coalescer: what a call does *)

Section Coalescer.
Context `{NodeEnv}.

Lemma getFlowResult_hit projectRoot s p :
  _getFlowResults s !! projectRoot = Some (Some p) ->
  getFlowResult projectRoot s = (Slot p, s).
Proof. intros E. unfold getFlowResult. by rewrite E. Qed.

Lemma getFlowResult_inherited projectRoot s :
  inherited s projectRoot -> getFlowResult projectRoot s = (FromPrototype projectRoot, s).
Proof. intros [E Hin]. unfold getFlowResult. rewrite E. by rewrite decide_True. Qed.

Lemma then_pending p onF onR s rs :
  heap s !! p = Some (pending rs) ->
  then_ p onF onR s =
  (length (heap s),
   set_heap (<[p := pending (rs ++ [{| on_fulfilled := onF; on_rejected := onR;
                                       target := length (heap s) |}])]> (heap s)
             ++ [pending []]) s).
Proof.
  intros E. unfold then_, new_promise. cbn.
  rewrite (lookup_app_l_Some _ _ _ _ E). cbn.
  rewrite insert_app_l by (by eapply lookup_lt_Some). reflexivity.
Qed.

Lemma then_settled p onF onR s o rs :
  heap s !! p = Some {| pstatus := Settled o; reactions := rs |} ->
  then_ p onF onR s =
  (length (heap s),
   set_microtasks (microtasks s ++ [({| on_fulfilled := onF; on_rejected := onR;
                                        target := length (heap s) |}, o)])
     (set_heap (heap s ++ [pending []]) s)).
Proof.
  intros E. unfold then_, new_promise. cbn.
  rewrite (lookup_app_l_Some _ _ _ _ E). reflexivity.
Qed.

Lemma startFlow_eq projectRoot s :
  let n := length (heap s) in
  startFlow projectRoot s =
  ((n + 2)%nat,
   {| _getFlowResults := <[projectRoot := Some (n + 2)%nat]> (_getFlowResults s);
      heap := heap s ++ [pending [thenClear projectRoot (n + 1)];
                         pending [catchClear projectRoot (n + 2)];
                         pending []];
      microtasks := microtasks s;
      invocations := invocations s ++ [newInvocation projectRoot n];
      callbacks := callbacks s;
      errorLog := errorLog s |}).
Proof.
  intros n.
  assert (E : startFlow projectRoot s =
    let '(p1, s) := new_promise s in
    let s := set_invocations (invocations s ++ [newInvocation projectRoot p1]) s in
    let '(p2, s) := then_ p1 (Some (ThenClear projectRoot)) None s in
    let '(p3, s) := then_ p2 None (Some (CatchClear projectRoot)) s in
    (p3, set_cache (<[projectRoot := Some p3]> (_getFlowResults s)) s)) by reflexivity.
  rewrite E. unfold new_promise. cbv beta iota zeta.
  erewrite (then_pending _ _ _ _ []) by (cbn; by apply list_lookup_middle).
  cbv beta iota zeta.
  erewrite (then_pending _ _ _ _ []).
  2:{ cbn. apply list_lookup_middle. by rewrite length_insert. }
  cbn. rewrite !length_app, !length_insert, !length_app. cbn. fold n.
  replace (n + 1 + 1)%nat with (n + 2)%nat by lia.
  unfold set_cache. cbn. f_equal. f_equal.
  rewrite (insert_app_r_alt (heap s)) by (unfold n; lia).
  replace (n - length (heap s))%nat with 0%nat by (unfold n; lia). cbn.
  rewrite <- !app_assoc. cbn.
  rewrite (insert_app_r_alt (heap s)) by (unfold n; lia).
  replace (n + 1 - length (heap s))%nat with 1%nat by (unfold n; lia).
  cbn. by rewrite <- app_assoc.
Qed.

Lemma getFlowResult_miss projectRoot s :
  vacant s projectRoot -> ~ inherited s projectRoot ->
  let n := length (heap s) in
  getFlowResult projectRoot s =
  (Slot (n + 2)%nat,
   {| _getFlowResults := <[projectRoot := Some (n + 2)%nat]> (_getFlowResults s);
      heap := heap s ++ [pending [thenClear projectRoot (n + 1)];
                         pending [catchClear projectRoot (n + 2)];
                         pending []];
      microtasks := microtasks s;
      invocations := invocations s ++ [newInvocation projectRoot n];
      callbacks := callbacks s;
      errorLog := errorLog s |}).
Proof.
  intros Hv Hown n. unfold getFlowResult.
  destruct (_getFlowResults s !! projectRoot) as [[p|]|] eqn:E.
  - by destruct (Hv p).
  - by rewrite startFlow_eq.
  - rewrite decide_False by (intros Hin; by apply Hown). by rewrite startFlow_eq.
Qed.

Lemma started_hit projectRoot s p :
  _getFlowResults s !! projectRoot = Some (Some p) -> started projectRoot s = [].
Proof.
  intros E. unfold started. rewrite (getFlowResult_hit _ _ _ E). cbn.
  by rewrite drop_all.
Qed.

Lemma started_miss projectRoot s :
  vacant s projectRoot -> ~ inherited s projectRoot ->
  started projectRoot s = [newInvocation projectRoot (length (heap s))].
Proof.
  intros Hv Hown. unfold started. rewrite (getFlowResult_miss _ _ Hv Hown). cbn.
  by rewrite drop_app_length.
Qed.

Lemma started_inherited projectRoot s : inherited s projectRoot -> started projectRoot s = [].
Proof.
  intros Hin. unfold started. rewrite (getFlowResult_inherited _ _ Hin). cbn.
  by rewrite drop_all.
Qed.

Lemma vacant_dec projectRoot s :
  vacant s projectRoot \/ exists p, _getFlowResults s !! projectRoot = Some (Some p).
Proof.
  unfold vacant. destruct (_getFlowResults s !! projectRoot) as [[p|]|]; eauto.
  all: left; intros p; discriminate.
Qed.

(** The three ways the lookup of line 92 can go. *)
Lemma lookup_cases projectRoot s :
  (vacant s projectRoot /\ ~ inherited s projectRoot) \/
  (exists p, _getFlowResults s !! projectRoot = Some (Some p)) \/
  inherited s projectRoot.
Proof.
  unfold vacant, inherited.
  destruct (_getFlowResults s !! projectRoot) as [[p|]|] eqn:E; [eauto| |].
  - left. split; [discriminate|]. by intros [? _].
  - destruct (decide (projectRoot ∈ Object_prototype)) as [Hin|Hout]; [auto|].
    left. split; [discriminate|]. by intros [_ ?].
Qed.

Lemma started_armed root s inv :
  In inv (started root s) -> timeoutID inv = Armed 3000 /\ projectRoot inv = root.
Proof.
  destruct (lookup_cases root s) as [[Hv Hown]|[[p E]|Hin]].
  - rewrite (started_miss _ _ Hv Hown). intros [<-|[]]. done.
  - rewrite (started_hit _ _ _ E). intros [].
  - rewrite (started_inherited _ _ Hin). intros [].
Qed.

(** C9, as the code has it: the delay is the module constant
    [FLOW_TIMEOUT] = 3000 ms; every invocation [getFlowResult] starts,
    for whatever key and in whatever state, arms its timer with it, and
    the timeout diagnostic prints the same constant. *)
Theorem timeout_is_the_module_constant (projectRoot : string) (s : state) :
  FLOW_TIMEOUT = 3000%Z /\
  (forall inv, In inv (started projectRoot s) -> timeoutID inv = Armed 3000) /\
  timeoutReport =
    {| CodeInspectionReport.errors :=
         [{| CodeInspectionResult.type := "problem_type_error";
             CodeInspectionResult.message := "FlowError: Timed out after waiting 3000ms";
             CodeInspectionResult.pos := {| Pos.line := 0; Pos.ch := 0 |} |}] |}.
Proof.
  split; [reflexivity|]. split; [|vm_compute; reflexivity].
  intros inv Hin. by destruct (started_armed _ _ _ Hin).
Qed.

End Coalescer.

(** C9 fails as stated: the delay is no parameter of the call; no call
    of [getFlowResult], in any runtime, for any key and from any state,
    arms a timer of 5000 ms. *)
Lemma timeout_is_not_a_parameter :
  ~ (forall timeoutMs : Z,
       exists (env : NodeEnv) (projectRoot : string) (s : state) (inv : invocation),
         In inv (started projectRoot s) /\ timeoutID inv = Armed timeoutMs).
Proof.
  intros Hall. destruct (Hall 5000%Z) as (env & root & s & inv & Hin & Ht).
  destruct (started_armed _ _ _ Hin) as [Ht' _]. congruence.
Qed.

(** ** The invariant holds in every reachable state *)

Section Invariant.
Context `{NodeEnv}.

Lemma jobsFor_app t q1 q2 : jobsFor t (q1 ++ q2) = jobsFor t q1 ++ jobsFor t q2.
Proof. apply filter_app. Qed.

Lemma jobsFor_none t (q : list (reaction * outcome)) :
  (forall r o, (r, o) ∈ q -> target r <> t) -> jobsFor t q = [].
Proof.
  induction q as [|[r o] q IH]; intros Hq; [done|].
  unfold jobsFor. rewrite filter_cons_False.
  - apply IH. intros r' o' Hin. apply (Hq r' o'). by right.
  - cbn. apply (Hq r o). by left.
Qed.

Lemma jobsFor_map_none t o (rs : list reaction) :
  (forall r, r ∈ rs -> target r <> t) -> jobsFor t (map (fun r => (r, o)) rs) = [].
Proof.
  intros Hrs. apply jobsFor_none. intros r o' Hin.
  apply list_elem_of_In, in_map_iff in Hin. destruct Hin as (r' & [= <- <-] & Hin).
  apply Hrs. by apply list_elem_of_In.
Qed.

Lemma settle_pending p o s rs :
  heap s !! p = Some (pending rs) ->
  settle p o s =
  set_microtasks (microtasks s ++ map (fun r => (r, o)) rs)
    (set_heap (<[p := settled o]> (heap s)) s).
Proof. intros E. unfold settle. by rewrite E. Qed.

Lemma settle_settled p o s o' rs :
  heap s !! p = Some {| pstatus := Settled o'; reactions := rs |} -> settle p o s = s.
Proof. intros E. unfold settle. by rewrite E. Qed.

Lemma settle_none p o s : heap s !! p = None -> settle p o s = s.
Proof. intros E. unfold settle. by rewrite E. Qed.

Lemma Inv_init : Inv init.
Proof.
  split.
  - intros i j inv inv' E. by destruct i.
  - intros K b (i & inv & E & _). by destruct i.
  - intros r o Hin. by apply elem_of_nil in Hin.
  - intros p pr r E. by destruct p.
  - intros i inv E. by destruct i.
  - intros K p E. cbn in E. by rewrite lookup_empty in E.
Qed.

Lemma promises_ok_frame s s' K b st :
  heap s' !! b = heap s !! b ->
  heap s' !! (b + 1)%nat = heap s !! (b + 1)%nat ->
  (forall ws, heap s !! (b + 2)%nat = Some (pending ws) ->
     exists ws', heap s' !! (b + 2)%nat = Some (pending ws')) ->
  (forall o, heap s !! (b + 2)%nat = Some (settled o) ->
     heap s' !! (b + 2)%nat = Some (settled o)) ->
  jobsFor (b + 1) (microtasks s') = jobsFor (b + 1) (microtasks s) ->
  jobsFor (b + 2) (microtasks s') = jobsFor (b + 2) (microtasks s) ->
  promises_ok s K b st -> promises_ok s' K b st.
Proof.
  intros H0 H1 H2 H3 Hq1 Hq2.
  destruct st as [|o|o|o]; unfold promises_ok; rewrite H0, H1, Hq1, Hq2;
    intros (?&?&Hw&?&?); repeat split; try done.
  1-3: destruct Hw as [ws Hw]; by apply (H2 ws).
  by apply H3.
Qed.

Lemma has_chain_snoc_inv s s' inv K b :
  invocations s' = invocations s ++ [inv] ->
  has_chain s' K b -> has_chain s K b \/ (projectRoot inv = K /\ base inv = b).
Proof.
  intros E. unfold has_chain. rewrite E.
  intros (i & inv' & Hl & HK & Hb). apply lookup_snoc_Some in Hl.
  destruct Hl as [[_ Hl]|[_ <-]]; eauto 10.
Qed.

Lemma has_chain_snoc_old s s' inv K b :
  invocations s' = invocations s ++ [inv] -> has_chain s K b -> has_chain s' K b.
Proof.
  intros E. unfold has_chain. rewrite E.
  intros (i & inv' & Hl & HK & Hb).
  exists i, inv'. split; [|done]. by apply lookup_app_l_Some.
Qed.

Lemma has_chain_snoc_new s s' inv :
  invocations s' = invocations s ++ [inv] -> has_chain s' (projectRoot inv) (base inv).
Proof.
  intros E. unfold has_chain. rewrite E.
  exists (length (invocations s)), inv. split; [|done]. by apply list_lookup_middle.
Qed.

Lemma rtype_snoc s s' inv r :
  invocations s' = invocations s ++ [inv] ->
  (target r < base inv)%nat ->
  rtype s r -> rtype s' r.
Proof.
  intros E Hlt [(K & b & Hc & ->)|[(K & b & Hc & ->)|[Hs Hfar]]].
  - left. exists K, b. split; [|done]. by eapply has_chain_snoc_old.
  - right; left. exists K, b. split; [|done]. by eapply has_chain_snoc_old.
  - right; right. split; [done|]. intros K b Hc.
    eapply has_chain_snoc_inv in Hc; [|done].
    destruct Hc as [Hc|[_ <-]]; [by apply (Hfar K)|lia].
Qed.

Lemma Inv_getFlowResult_miss root s :
  Inv s -> vacant s root -> ~ inherited s root -> Inv (snd (getFlowResult root s)).
Proof.
  intros HI Hv Hown. rewrite (getFlowResult_miss _ _ Hv Hown). cbn [snd].
  set (n := length (heap s)).
  set (s' := {| _getFlowResults := _ |}).
  assert (Einv : invocations s' = invocations s ++ [newInvocation root n]) by done.
  assert (Hheap_old : forall p, (p < n)%nat -> heap s' !! p = heap s !! p).
  { intros p Hp. cbn. by apply lookup_app_l. }
  assert (Hold : forall i inv st, invocations s !! i = Some inv ->
            in_stage s inv st -> in_stage s' inv st).
  { intros i inv st Hl [Hf Hp]. split; [done|].
    assert (base inv + 2 < n)%nat by (apply (inv_alloc s HI (projectRoot inv)); by exists i, inv).
    eapply promises_ok_frame; [..|exact Hp]; try done.
    - apply Hheap_old; lia.
    - apply Hheap_old; lia.
    - intros ws Hw. exists ws. rewrite Hheap_old by lia. done.
    - intros o Hw. rewrite Hheap_old by lia. done. }
  split.
  - intros i j inv inv' Hi Hj Hij. rewrite Einv in Hi, Hj.
    apply lookup_snoc_Some in Hi, Hj.
    destruct Hi as [[_ Hi]|[-> <-]], Hj as [[? Hj]|[-> <-]].
    + by apply (inv_apart s HI i j).
    + left. cbn. assert (base inv + 2 < n)%nat; [|lia].
      apply (inv_alloc s HI (projectRoot inv)). by exists i, inv.
    + right. cbn. assert (base inv' + 2 < n)%nat; [|lia].
      apply (inv_alloc s HI (projectRoot inv')). by exists j, inv'.
    + done.
  - intros K b Hc. eapply has_chain_snoc_inv in Hc; [|done]. cbn.
    rewrite length_app. cbn. destruct Hc as [Hc|[_ <-]].
    + pose proof (inv_alloc s HI K b Hc). lia.
    + cbn. fold n. lia.
  - intros r o Hin. destruct (inv_queue s HI r o Hin) as [Ht Hlt]. split.
    + by apply (rtype_snoc _ _ _ _ Einv).
    + cbn. rewrite length_app. cbn. lia.
  - intros p pr r Hl Hr. cbn in Hl. apply lookup_app_Some in Hl.
    destruct Hl as [Hl|[Hge Hl]].
    + destruct (inv_heap s HI p pr r Hl Hr) as (Ht & Hlt & Hloc). split; [|split].
      * by apply (rtype_snoc _ _ _ _ Einv).
      * cbn. rewrite length_app. cbn. lia.
      * intros K b Hc. eapply has_chain_snoc_inv in Hc; [|done].
        destruct Hc as [Hc|[_ <-]]; [by apply (Hloc K)|]. cbn. fold n. lia.
    + fold n in Hge, Hl. 
      assert (Hnew : has_chain s' root n).
      { by apply (has_chain_snoc_new s s' (newInvocation root n)). }
      assert (Hfar : forall K b, has_chain s' K b -> b = n \/ (b + 2 < n)%nat).
      { intros K b Hc. eapply has_chain_snoc_inv in Hc; [|done].
        destruct Hc as [Hc|[_ <-]]; [right|by left]. apply (inv_alloc s HI K b Hc). }
      destruct (p - n)%nat as [|[|[|k]]] eqn:Ek; cbn in Hl; [| | |done].
      * injection Hl as <-. apply list_elem_of_singleton in Hr. subst r.
        split; [|split].
        -- left. by exists root, n.
        -- cbn. rewrite length_app. cbn. fold n. lia.
        -- intros K b Hc. cbn. destruct (Hfar K b Hc); lia.
      * injection Hl as <-. apply list_elem_of_singleton in Hr. subst r.
        split; [|split].
        -- right; left. by exists root, n.
        -- cbn. rewrite length_app. cbn. fold n. lia.
        -- intros K b Hc. cbn. destruct (Hfar K b Hc); lia.
      * injection Hl as <-. by apply elem_of_nil in Hr.
  - intros i inv Hl. rewrite Einv in Hl. apply lookup_snoc_Some in Hl.
    destruct Hl as [[_ Hl]|[_ <-]].
    + destruct (inv_stage s HI i inv Hl) as (st & Hst & Hlive). exists st. split; [by eapply Hold|].
      intros Hlv. specialize (Hlive Hlv). cbn.
      rewrite lookup_insert_ne; [done|]. intros Heq. rewrite <- Heq in Hlive.
      by apply (Hv _ Hlive).
    + exists Waiting. split; [|intros _; cbn; by rewrite lookup_insert_eq].
      split; [done|]. cbn. fold n.
      assert (Hq : forall t, (n <= t)%nat -> jobsFor t (microtasks s) = []).
      { intros t Ht. apply jobsFor_none. intros r o Hin.
        destruct (inv_queue s HI r o Hin) as [_ Hlt]. lia. }
      repeat split.
      * by apply list_lookup_middle.
      * rewrite lookup_app_r by lia. by replace (n + 1 - length (heap s))%nat with 1%nat by lia.
      * exists []. rewrite lookup_app_r by lia.
        by replace (n + 2 - length (heap s))%nat with 2%nat by lia.
      * apply Hq; lia.
      * apply Hq; lia.
  - intros K p Hl. cbn in Hl. destruct (decide (root = K)) as [<-|Hne].
    + rewrite lookup_insert_eq in Hl. injection Hl as <-.
      exists (length (invocations s)), (newInvocation root n), Waiting.
      split; [rewrite Einv; by apply list_lookup_middle|]. split; [done|]. split; [done|].
      split; [|done]. split; [done|]. cbn. fold n.
      assert (Hq : forall t, (n <= t)%nat -> jobsFor t (microtasks s) = []).
      { intros t Ht. apply jobsFor_none. intros r o Hin.
        destruct (inv_queue s HI r o Hin) as [_ Hlt]. lia. }
      repeat split.
      * by apply list_lookup_middle.
      * rewrite lookup_app_r by lia. by replace (n + 1 - length (heap s))%nat with 1%nat by lia.
      * exists []. rewrite lookup_app_r by lia.
        by replace (n + 2 - length (heap s))%nat with 2%nat by lia.
      * apply Hq; lia.
      * apply Hq; lia.
    + rewrite lookup_insert_ne in Hl by done.
      destruct (inv_cache s HI K p Hl) as (i & inv & st & Hi & HK & Hp & Hst & Hlv).
      exists i, inv, st. split; [rewrite Einv; by apply lookup_app_l_Some|].
      repeat split; try done. all: by eapply Hold.
Qed.

Lemma in_stage_frame s s' inv st :
  heap s' !! base inv = heap s !! base inv ->
  heap s' !! (base inv + 1)%nat = heap s !! (base inv + 1)%nat ->
  (forall ws, heap s !! (base inv + 2)%nat = Some (pending ws) ->
     exists ws', heap s' !! (base inv + 2)%nat = Some (pending ws')) ->
  (forall o, heap s !! (base inv + 2)%nat = Some (settled o) ->
     heap s' !! (base inv + 2)%nat = Some (settled o)) ->
  jobsFor (base inv + 1) (microtasks s') = jobsFor (base inv + 1) (microtasks s) ->
  jobsFor (base inv + 2) (microtasks s') = jobsFor (base inv + 2) (microtasks s) ->
  in_stage s inv st -> in_stage s' inv st.
Proof. intros ? ? ? ? ? ? [Hf Hp]. split; [done|]. by eapply promises_ok_frame. Qed.

Lemma Inv_then p onF onR s ws :
  Inv s ->
  heap s !! p = Some (pending ws) ->
  open_to_waiters s p ->
  (forall K, onF <> Some (ThenClear K)) ->
  (forall K, onR <> Some (CatchClear K)) ->
  Inv (snd (then_ p onF onR s)).
Proof.
  intros HI Hp Hopen HF HR. rewrite (then_pending _ _ _ _ _ Hp). cbn [snd].
  set (n := length (heap s)).
  set (r := {| on_fulfilled := onF; on_rejected := onR; target := n |}).
  set (s' := set_heap _ s).
  assert (Hp_lt : (p < n)%nat) by (by eapply lookup_lt_Some).
  assert (Hlen : length (heap s') = S n).
  { cbn. rewrite length_app, length_insert. cbn. fold n. lia. }
  assert (Hother : forall q, q <> p -> (q < n)%nat -> heap s' !! q = heap s !! q).
  { intros q Hq Hlt. cbn. rewrite lookup_app_l by (rewrite length_insert; done).
    by rewrite list_lookup_insert_ne. }
  assert (Hat : heap s' !! p = Some (pending (ws ++ [r]))).
  { cbn. rewrite lookup_app_l by (rewrite length_insert; done).
    by rewrite list_lookup_insert_eq. }
  assert (Hframe : forall i inv st, invocations s !! i = Some inv ->
            in_stage s inv st -> in_stage s' inv st).
  { intros i inv st Hl. 
    assert (Hc : has_chain s (projectRoot inv) (base inv)) by (by exists i, inv).
    pose proof (inv_alloc s HI _ _ Hc). destruct (Hopen _ _ Hc).
    apply in_stage_frame; try done.
    - apply Hother; [done|lia].
    - apply Hother; [done|lia].
    - intros ws' Hw. destruct (decide (p = base inv + 2)%nat) as [->|Hne].
      + eauto.
      + exists ws'. rewrite Hother; [done..|lia].
    - intros o Hw. destruct (decide (p = base inv + 2)%nat) as [->|Hne].
      + rewrite Hp in Hw. discriminate.
      + rewrite Hother; [done..|lia]. }
  split.
  - apply (inv_apart s HI).
  - intros K b Hc. pose proof (inv_alloc s HI K b Hc). lia.
  - intros r0 o Hin. destruct (inv_queue s HI r0 o Hin). split; [done|lia].
  - intros q pr r0 Hl Hr.
    assert (Hnew : rtype s' r /\ (target r < length (heap s'))%nat /\
              forall K b, has_chain s' K b ->
                (target r = (b + 1)%nat -> q = b) /\ (target r = (b + 2)%nat -> q = (b + 1)%nat)).
    { split; [|split].
      - right; right. split; [split; cbn; done|]. intros K b Hc.
        pose proof (inv_alloc s HI K b Hc). cbn. fold n. lia.
      - rewrite Hlen. cbn. lia.
      - intros K b Hc. pose proof (inv_alloc s HI K b Hc). cbn. fold n. lia. }
    assert (Hold : forall pr0, heap s !! q = Some pr0 -> r0 ∈ reactions pr0 ->
              rtype s' r0 /\ (target r0 < length (heap s'))%nat /\
              forall K b, has_chain s' K b ->
                (target r0 = (b + 1)%nat -> q = b) /\ (target r0 = (b + 2)%nat -> q = (b + 1)%nat)).
    { intros pr0 Hl0 Hr0. destruct (inv_heap s HI q pr0 r0 Hl0 Hr0) as (?&?&?).
      split; [done|]. split; [lia|done]. }
    destruct (decide (q = p)) as [->|Hne].
    + rewrite Hat in Hl. injection Hl as <-. cbn in Hr. apply elem_of_app in Hr.
      destruct Hr as [Hr|Hr%list_elem_of_singleton]; [by eapply Hold|by subst r0].
    + destruct (decide (q < n)%nat) as [Hlt|Hge].
      * rewrite Hother in Hl by done. by eapply Hold.
      * cbn in Hl. rewrite lookup_app_r in Hl by (rewrite length_insert; fold n; lia).
        rewrite length_insert in Hl. fold n in Hl.
        destruct (q - n)%nat as [|k]; cbn in Hl; [|done].
        injection Hl as <-. by apply elem_of_nil in Hr.
  - intros i inv Hl. destruct (inv_stage s HI i inv Hl) as (st & Hst & Hlive).
    exists st. split; [by eapply Hframe|done].
  - intros K q Hl. destruct (inv_cache s HI K q Hl) as (i & inv & st & ? & ? & ? & ? & ?).
    exists i, inv, st. repeat split; try done. all: by eapply Hframe.
Qed.

Lemma then_fresh p onF onR s ws :
  heap s !! p = Some (pending ws) ->
  let s' := snd (then_ p onF onR s) in
  fst (then_ p onF onR s) = length (heap s) /\
  heap s' !! length (heap s) = Some (pending []) /\
  length (heap s') = S (length (heap s)).
Proof.
  intros Hp. rewrite (then_pending _ _ _ _ _ Hp). cbn.
  split; [done|]. split.
  - apply list_lookup_middle. by rewrite length_insert.
  - rewrite length_app, length_insert. cbn. lia.
Qed.


Lemma chains_lookup s s' j x :
  chains s' = chains s -> invocations s' !! j = Some x ->
  exists y, invocations s !! j = Some y /\ projectRoot y = projectRoot x /\ base y = base x.
Proof.
  intros E Hx. assert (Hc : chains s' !! j = Some (projectRoot x, base x)).
  { unfold chains. by rewrite list_lookup_fmap, Hx. }
  rewrite E in Hc. unfold chains in Hc. rewrite list_lookup_fmap in Hc.
  destruct (invocations s !! j) as [y|]; [|done]. injection Hc as ? ?. eauto.
Qed.

Lemma has_chain_same s s' K b :
  chains s' = chains s -> has_chain s' K b -> has_chain s K b.
Proof.
  intros E (j & x & Hx & <- & <-).
  destruct (chains_lookup _ _ _ _ E Hx) as (y & ? & ? & ?). by exists j, y.
Qed.

Lemma rtype_same s s' r : chains s' = chains s -> rtype s r -> rtype s' r.
Proof.
  intros E [(K & b & Hc & ->)|[(K & b & Hc & ->)|[Hs Hfar]]].
  - left. exists K, b. split; [|done]. by eapply has_chain_same.
  - right; left. exists K, b. split; [|done]. by eapply has_chain_same.
  - right; right. split; [done|]. intros K b Hc. apply (Hfar K). by eapply has_chain_same.
Qed.

Lemma chains_update s s' i inv inv' :
  invocations s' = <[i := inv']> (invocations s) ->
  invocations s !! i = Some inv ->
  projectRoot inv' = projectRoot inv -> base inv' = base inv ->
  chains s' = chains s.
Proof.
  intros E Hl HK Hb. unfold chains. rewrite E, list_fmap_insert, HK, Hb.
  apply list_insert_id. by rewrite list_lookup_fmap, Hl.
Qed.

(** The part of the invariant that only tells which reactions exist and
    where: it carries over to any state that registers nothing new. *)
Lemma typing_transfer s s' :
  Inv s ->
  chains s' = chains s ->
  length (heap s') = length (heap s) ->
  (forall r o, (r, o) ∈ microtasks s' ->
     (exists o', (r, o') ∈ microtasks s) \/
     (exists p pr, heap s !! p = Some pr /\ r ∈ reactions pr)) ->
  (forall p pr r, heap s' !! p = Some pr -> r ∈ reactions pr ->
     exists pr0, heap s !! p = Some pr0 /\ r ∈ reactions pr0) ->
  (forall i inv, invocations s' !! i = Some inv ->
     exists st, in_stage s' inv st /\
       (live st -> _getFlowResults s' !! projectRoot inv = Some (Some (base inv + 2)%nat))) ->
  (forall K p, _getFlowResults s' !! K = Some (Some p) ->
     exists i inv st, invocations s' !! i = Some inv /\ projectRoot inv = K /\
       p = (base inv + 2)%nat /\ in_stage s' inv st /\ live st) ->
  Inv s'.
Proof.
  intros HI Ec Hlen Hq Hh Hst Hca.
  assert (Ec' : chains s = chains s') by done.
  split; [| | | |done|done].
  - intros i j x x' Hi Hj Hij.
    destruct (chains_lookup _ _ _ _ Ec Hi) as (y & ? & ? & <-).
    destruct (chains_lookup _ _ _ _ Ec Hj) as (y' & ? & ? & <-).
    by apply (inv_apart s HI i j).
  - intros K b Hc. rewrite Hlen. apply (inv_alloc s HI K). by eapply has_chain_same.
  - intros r o Hin. rewrite Hlen.
    destruct (Hq r o Hin) as [[o' Hin']|(p & pr & Hp & Hr)].
    + destruct (inv_queue s HI r o' Hin'). split; [by eapply rtype_same|done].
    + destruct (inv_heap s HI p pr r Hp Hr) as (?&?&?). split; [by eapply rtype_same|done].
  - intros p pr r Hp Hr. rewrite Hlen. destruct (Hh p pr r Hp Hr) as (pr0 & Hp0 & Hr0).
    destruct (inv_heap s HI p pr0 r Hp0 Hr0) as (?&?&Hloc).
    split; [by eapply rtype_same|]. split; [done|].
    intros K b Hc. apply (Hloc K). by eapply has_chain_same.
Qed.

(** Two stages of one invocation in one state are the same stage. *)
Lemma promises_ok_unique s K b st1 st2 :
  promises_ok s K b st1 -> promises_ok s K b st2 -> st1 = st2.
Proof.
  destruct st1, st2; cbn; unfold settled, pending;
    intros (H0 & H1 & H2 & _) (H0' & H1' & H2' & _);
    repeat match goal with H : exists _, _ |- _ => destruct H end;
    simplify_eq; done.
Qed.


Lemma others_frame s s' i j inv inv_j st :
  Inv s ->
  invocations s !! i = Some inv -> invocations s !! j = Some inv_j -> j <> i ->
  (forall q, q <> base inv -> q <> (base inv + 1)%nat -> q <> (base inv + 2)%nat ->
     heap s' !! q = heap s !! q) ->
  (forall t, t <> (base inv + 1)%nat -> t <> (base inv + 2)%nat ->
     t = (base inv_j + 1)%nat \/ t = (base inv_j + 2)%nat ->
     jobsFor t (microtasks s') = jobsFor t (microtasks s)) ->
  in_stage s inv_j st -> in_stage s' inv_j st.
Proof.
  intros HI Hi Hj Hij Hheap Hjobs.
  pose proof (inv_apart s HI j i inv_j inv Hj Hi Hij) as Hap.
  apply in_stage_frame.
  - apply Hheap; lia.
  - apply Hheap; lia.
  - intros ws Hw. exists ws. rewrite Hheap; [done|lia..].
  - intros o Hw. rewrite Hheap; [done|lia..].
  - apply Hjobs; [lia..|by left].
  - apply Hjobs; [lia..|by right].
Qed.

Lemma Inv_announce s i inv inv' o :
  Inv s -> invocations s !! i = Some inv -> in_stage s inv Waiting ->
  projectRoot inv' = projectRoot inv -> base inv' = base inv ->
  flags_ok inv' (Announced o) ->
  Inv (settle (base inv) o (set_invocations (<[i := inv']> (invocations s)) s)).
Proof.
  intros HI Hi [Hf (H0 & H1 & [ws H2] & Hq1 & Hq2)] HK Hb Hf'.
  erewrite settle_pending by (cbn; exact H0).
  set (b := base inv) in *. set (K := projectRoot inv) in *.
  set (s' := set_microtasks _ _).
  assert (Ei : invocations s' = <[i := inv']> (invocations s)) by done.
  assert (Ec : chains s' = chains s) by (by eapply chains_update).
  assert (Hlive : _getFlowResults s !! K = Some (Some (b + 2)%nat)).
  { destruct (inv_stage s HI i inv Hi) as (st & Hst & Hl). apply Hl.
    assert (st = Waiting) as ->; [|done].
    destruct Hst as [_ Hst]. eapply promises_ok_unique; [exact Hst|]. cbn. eauto 10. }
  assert (Hme : in_stage s' inv' (Announced o)).
  { split; [done|]. rewrite HK, Hb. fold K b. cbn.
    rewrite !jobsFor_app, Hq1, Hq2. unfold jobsFor at 1 2.
    rewrite filter_cons_True by done. rewrite filter_cons_False by (cbn; lia).
    rewrite (list_lookup_insert_ne _ b (b + 1)) by lia.
    rewrite (list_lookup_insert_ne _ b (b + 2)) by lia.
    rewrite list_lookup_insert_eq by (by eapply lookup_lt_Some). eauto 10. }
  assert (Hothers : forall j inv_j st, j <> i -> invocations s !! j = Some inv_j ->
            in_stage s inv_j st -> in_stage s' inv_j st).
  { intros j inv_j st Hji Hj. apply (others_frame s s' i j inv inv_j st HI Hi Hj Hji).
    - intros q ? ? ?. cbn. by rewrite list_lookup_insert_ne.
    - intros t ? ? _. cbn. rewrite jobsFor_app. unfold jobsFor at 2.
      rewrite filter_cons_False by (cbn; fold b; lia). by rewrite app_nil_r. }
  apply (typing_transfer s s' HI Ec).
  - cbn. by rewrite length_insert.
  - intros r o0 Hin. cbn in Hin. apply elem_of_app in Hin.
    destruct Hin as [Hin|Hin%list_elem_of_singleton]; [left; eauto|].
    injection Hin as -> ->. right. exists b, (pending [thenClear K (b + 1)]).
    split; [done|]. by apply list_elem_of_singleton.
  - intros p pr r Hp Hr. cbn in Hp. destruct (decide (p = b)) as [->|Hne].
    + rewrite list_lookup_insert_eq in Hp by (by eapply lookup_lt_Some).
      injection Hp as <-. by apply elem_of_nil in Hr.
    + rewrite list_lookup_insert_ne in Hp by done. eauto.
  - intros j x Hj. rewrite Ei in Hj. apply list_lookup_insert_Some in Hj.
    destruct Hj as [(<- & <- & _)|[Hji Hj]].
    + exists (Announced o). split; [done|]. intros _. by rewrite HK, Hb.
    + destruct (inv_stage s HI j x Hj) as (st & Hst & Hl). exists st.
      split; [by eapply Hothers|done].
  - intros K' p Hc. destruct (inv_cache s HI K' p Hc) as (j & x & st & Hj & HK' & Hp & Hst & Hl).
    destruct (decide (j = i)) as [->|Hji].
    + rewrite Hi in Hj. injection Hj as <-. exists i, inv', (Announced o).
      rewrite Ei, HK, Hb. split; [|done].
      apply list_lookup_insert_eq. by eapply lookup_lt_Some.
    + exists j, x, st. rewrite Ei. split; [by rewrite list_lookup_insert_ne|].
      repeat split; try done. all: by eapply Hothers.
Qed.

(** Replacing the child of an invocation, or anything else the
    invariant does not look at. *)
Lemma Inv_replace s i inv inv' :
  Inv s -> invocations s !! i = Some inv ->
  projectRoot inv' = projectRoot inv -> base inv' = base inv ->
  resolved inv' = resolved inv -> timedOut inv' = timedOut inv ->
  timeoutID inv' = timeoutID inv ->
  Inv (set_invocations (<[i := inv']> (invocations s)) s).
Proof.
  intros HI Hi HK Hb Hr Ht Hid.
  set (s' := set_invocations _ _).
  assert (Ei : invocations s' = <[i := inv']> (invocations s)) by done.
  assert (Ec : chains s' = chains s) by (by eapply chains_update).
  assert (Hme : forall st, in_stage s inv st -> in_stage s' inv' st).
  { intros st [Hf Hp]. split.
    - destruct st; cbn in *; rewrite Hr, Ht, Hid; done.
    - rewrite HK, Hb. done. }
  apply (typing_transfer s s' HI Ec); [done|eauto..| |].
  - intros j x Hj. rewrite Ei in Hj. apply list_lookup_insert_Some in Hj.
    destruct Hj as [(<- & <- & _)|[Hji Hj]].
    + destruct (inv_stage s HI i inv Hi) as (st & Hst & Hl). exists st.
      split; [by apply Hme|]. by rewrite HK, Hb.
    + destruct (inv_stage s HI j x Hj) as (st & Hst & Hl). by exists st.
  - intros K' p Hc. destruct (inv_cache s HI K' p Hc) as (j & x & st & Hj & HK' & Hp & Hst & Hl).
    destruct (decide (j = i)) as [->|Hji].
    + rewrite Hi in Hj. injection Hj as <-. exists i, inv', st.
      rewrite Ei, HK, Hb. split; [|by auto].
      apply list_lookup_insert_eq. by eapply lookup_lt_Some.
    + exists j, x, st. rewrite Ei. split; [by rewrite list_lookup_insert_ne|done].
Qed.


Lemma jobsFor_nil t : jobsFor t [] = [].
Proof. reflexivity. Qed.

Lemma jobsFor_cons_ne t (job : reaction * outcome) rest :
  target (fst job) <> t -> jobsFor t (job :: rest) = jobsFor t rest.
Proof. intros. unfold jobsFor. by rewrite filter_cons_False. Qed.

Lemma jobsFor_cons_eq t (job : reaction * outcome) rest :
  target (fst job) = t -> jobsFor t (job :: rest) = job :: jobsFor t rest.
Proof. intros. unfold jobsFor. by rewrite filter_cons_True. Qed.

(** The job at the head of the queue is the [then] reaction of an
    invocation: the invocation is [Announced], and running the job
    relays the outcome to the second promise. *)
Lemma head_thenClear s K b o rest i inv :
  Inv s -> microtasks s = (thenClear K (b + 1), o) :: rest ->
  invocations s !! i = Some inv -> projectRoot inv = K -> base inv = b ->
  in_stage s inv (Announced o) /\ jobsFor (b + 1) rest = [] /\ jobsFor (b + 2) rest = [] /\
  _getFlowResults s !! K = Some (Some (b + 2)%nat).
Proof.
  intros HI Eq Hi HK Hb. destruct (inv_stage s HI i inv Hi) as (st & Hst & Hl).
  rewrite HK, Hb in Hl. destruct Hst as [Hf Hp]. rewrite HK, Hb in Hp.
  assert (E1 : jobsFor (b + 1) (microtasks s) = (thenClear K (b + 1), o) :: jobsFor (b + 1) rest)
    by (rewrite Eq; by apply jobsFor_cons_eq).
  assert (E2 : jobsFor (b + 2) (microtasks s) = jobsFor (b + 2) rest)
    by (rewrite Eq; apply jobsFor_cons_ne; cbn; lia).
  destruct st as [|o'|o'|o']; destruct Hp as (H0 & H1 & H2 & Hq1 & Hq2);
    rewrite E1 in Hq1; try discriminate.
  injection Hq1 as <- Hq1. rewrite E2 in Hq2.
  split; [|split; [done|split; [done|by apply Hl]]].
  split; [done|]. rewrite HK, Hb. cbn. rewrite E1, E2, Hq1, Hq2. done.
Qed.

Lemma Inv_relay s K b o rest :
  Inv s -> microtasks s = (thenClear K (b + 1), o) :: rest -> has_chain s K b ->
  Inv (run_job (thenClear K (b + 1), o) (set_microtasks rest s)).
Proof.
  intros HI Eq (i & inv & Hi & <- & <-).
  destruct (head_thenClear s _ _ o rest i inv HI Eq Hi eq_refl eq_refl)
    as ([Hf (H0 & H1 & [ws H2] & _ & _)] & Hq1 & Hq2 & Hcache).
  set (K := projectRoot inv) in *. set (b := base inv) in *.
  set (c' := match o with
             | Fulfilled _ => <[K := None]> (_getFlowResults s)
             | Rejected _ => _getFlowResults s
             end).
  set (s' := set_cache c' (set_microtasks (rest ++ [(catchClear K (b + 2), o)])
                             (set_heap (<[(b + 1)%nat := settled o]> (heap s)) s))).
  assert (Es : run_job (thenClear K (b + 1), o) (set_microtasks rest s) = s').
  { destruct o; cbn; erewrite settle_pending by (cbn; exact H1); reflexivity. }
  rewrite Es.
  assert (Ec : chains s' = chains s) by done.
  assert (Hlt : (b + 1 < length (heap s))%nat) by (by eapply lookup_lt_Some).
  assert (Hme : in_stage s' inv (Relayed o)).
  { split; [done|]. fold K b. cbn.
    rewrite !jobsFor_app, Hq1, Hq2.
    rewrite jobsFor_cons_ne by (cbn; lia). rewrite jobsFor_cons_eq by done.
    rewrite (list_lookup_insert_ne _ (b + 1) b) by lia.
    rewrite (list_lookup_insert_ne _ (b + 1) (b + 2)) by lia.
    rewrite list_lookup_insert_eq by done. eauto 10. }
  assert (Hothers : forall j inv_j st, j <> i -> invocations s !! j = Some inv_j ->
            in_stage s inv_j st -> in_stage s' inv_j st).
  { intros j inv_j st Hji Hj. apply (others_frame s s' i j inv inv_j st HI Hi Hj Hji).
    - intros q ? ? ?. cbn. rewrite list_lookup_insert_ne; [done|lia].
    - intros t ? ? _. cbn. rewrite Eq, jobsFor_app.
      rewrite !jobsFor_cons_ne by (cbn; lia). by rewrite jobsFor_nil, app_nil_r. }
  assert (Hkeys : forall j inv_j, j <> i -> invocations s !! j = Some inv_j ->
            _getFlowResults s !! projectRoot inv_j = Some (Some (base inv_j + 2)%nat) ->
            projectRoot inv_j <> K).
  { intros j inv_j Hji Hj Hc Heq. rewrite Heq, Hcache in Hc. injection Hc as Hc.
    pose proof (inv_apart s HI j i inv_j inv Hj Hi Hji). lia. }
  apply (typing_transfer s s' HI Ec).
  - cbn. by rewrite length_insert.
  - intros r o0 Hin. cbn in Hin. apply elem_of_app in Hin.
    destruct Hin as [Hin|Hin%list_elem_of_singleton].
    + left. exists o0. rewrite Eq. by right.
    + injection Hin as -> ->. right. exists (b + 1)%nat, (pending [catchClear K (b + 2)]).
      split; [done|]. by apply list_elem_of_singleton.
  - intros p pr r Hp Hr. cbn in Hp. destruct (decide (p = b + 1)%nat) as [->|Hne].
    + rewrite list_lookup_insert_eq in Hp by done.
      injection Hp as <-. by apply elem_of_nil in Hr.
    + rewrite list_lookup_insert_ne in Hp by done. eauto.
  - intros j x Hj. change (invocations s') with (invocations s) in Hj.
    destruct (decide (j = i)) as [->|Hji].
    + rewrite Hi in Hj. injection Hj as <-. exists (Relayed o). split; [done|].
      fold K b. destruct o; [done|]. intros _. exact Hcache.
    + destruct (inv_stage s HI j x Hj) as (st & Hst & Hl). exists st.
      split; [by eapply Hothers|]. intros Hlv. specialize (Hl Hlv). cbn. unfold c'.
      destruct o; [|done]. rewrite lookup_insert_ne; [done|].
      intros Heq. by apply (Hkeys j x Hji Hj Hl).
  - intros K' p Hc. cbn in Hc.
    assert (Hc' : _getFlowResults s !! K' = Some (Some p) /\
                  (K' = K -> exists err, o = Rejected err)).
    { unfold c' in Hc. destruct o as [v|err]; [|by eauto].
      destruct (decide (K = K')) as [<-|Hne].
      - by rewrite lookup_insert_eq in Hc.
      - rewrite lookup_insert_ne in Hc by done. split; [done|]. by intros ->. }
    destruct Hc' as [Hc' Hrej].
    destruct (inv_cache s HI K' p Hc') as (j & x & st & Hj & HK' & Hp & Hst & Hl).
    destruct (decide (j = i)) as [->|Hji].
    + rewrite Hi in Hj. injection Hj as <-. exists i, inv, (Relayed o).
      split; [done|]. split; [done|]. split; [done|]. split; [exact Hme|].
      destruct Hrej as [err ->]; [by rewrite <- HK'|done].
    + exists j, x, st. split; [done|]. split; [done|]. split; [done|].
      split; [by eapply Hothers|done].
Qed.


Lemma head_catchClear s o rest i inv :
  Inv s ->
  microtasks s = (catchClear (projectRoot inv) (base inv + 2), o) :: rest ->
  invocations s !! i = Some inv ->
  in_stage s inv (Relayed o) /\
  jobsFor (base inv + 1) rest = [] /\ jobsFor (base inv + 2) rest = [].
Proof.
  intros HI Eq Hi. destruct (inv_stage s HI i inv Hi) as (st & Hst & Hl).
  destruct Hst as [Hf Hp].
  set (K := projectRoot inv) in *. set (b := base inv) in *.
  assert (E1 : jobsFor (b + 2) (microtasks s) = (catchClear K (b + 2), o) :: jobsFor (b + 2) rest)
    by (rewrite Eq; by apply jobsFor_cons_eq).
  assert (E2 : jobsFor (b + 1) (microtasks s) = jobsFor (b + 1) rest)
    by (rewrite Eq; apply jobsFor_cons_ne; cbn; lia).
  destruct st as [|o'|o'|o']; destruct Hp as (H0 & H1 & H2 & Hq1 & Hq2);
    rewrite E1 in Hq2; try discriminate.
  injection Hq2 as <- Hq2. rewrite E2 in Hq1.
  split; [|done]. split; [done|]. fold K b. cbn. rewrite E1, E2, Hq1, Hq2. done.
Qed.

Lemma Inv_deliver s K b o rest :
  Inv s -> microtasks s = (catchClear K (b + 2), o) :: rest -> has_chain s K b ->
  Inv (run_job (catchClear K (b + 2), o) (set_microtasks rest s)).
Proof.
  intros HI Eq (i & inv & Hi & <- & <-).
  destruct (head_catchClear s o rest i inv HI Eq Hi)
    as ([Hf (H0 & H1 & [ws H2] & _ & _)] & Hq1 & Hq2).
  assert (Hnot : forall st, in_stage s inv st -> live st -> exists err, o = Rejected err).
  { intros st [_ Hp] Hlv. assert (st = Relayed o) as ->.
    { eapply promises_ok_unique; [exact Hp|]. cbn.
      rewrite Eq, jobsFor_cons_ne, jobsFor_cons_eq, Hq1, Hq2 by (cbn; lia). eauto 10. }
    destruct o; [done|eauto]. }
  set (K := projectRoot inv) in *. set (b := base inv) in *.
  set (c' := match o with
             | Fulfilled _ => _getFlowResults s
             | Rejected _ => <[K := None]> (_getFlowResults s)
             end).
  set (s' := set_cache c' (set_microtasks (rest ++ map (fun r => (r, o)) ws)
                             (set_heap (<[(b + 2)%nat := settled o]> (heap s)) s))).
  assert (Es : run_job (catchClear K (b + 2), o) (set_microtasks rest s) = s').
  { destruct o; cbn; erewrite settle_pending by (cbn; exact H2); reflexivity. }
  rewrite Es.
  assert (Ec : chains s' = chains s) by done.
  assert (Hlt : (b + 2 < length (heap s))%nat) by (by eapply lookup_lt_Some).
  assert (Hc : has_chain s K b) by (by exists i, inv).
  assert (Hws : forall r, r ∈ ws -> forall K0 b0, has_chain s K0 b0 ->
            (target r = (b0 + 1)%nat -> (b + 2)%nat = b0) /\
            (target r = (b0 + 2)%nat -> (b + 2)%nat = (b0 + 1)%nat)).
  { intros r Hr. by destruct (inv_heap s HI _ _ r H2 Hr) as (_ & _ & Hloc). }
  assert (Hme : in_stage s' inv (Delivered o)).
  { split; [done|]. fold K b. cbn.
    rewrite !jobsFor_app, Hq1, Hq2.
    rewrite !jobsFor_map_none.
    2:{ intros r Hr. destruct (Hws r Hr K b Hc). lia. }
    2:{ intros r Hr. destruct (Hws r Hr K b Hc). lia. }
    rewrite (list_lookup_insert_ne _ (b + 2) b) by lia.
    rewrite (list_lookup_insert_ne _ (b + 2) (b + 1)) by lia.
    rewrite list_lookup_insert_eq by done. eauto 10. }
  assert (Hothers : forall j inv_j st, j <> i -> invocations s !! j = Some inv_j ->
            in_stage s inv_j st -> in_stage s' inv_j st).
  { intros j inv_j st Hji Hj. apply (others_frame s s' i j inv inv_j st HI Hi Hj Hji).
    - intros q ? ? ?. cbn. rewrite list_lookup_insert_ne; [done|lia].
    - intros t ? ? Ht. cbn. rewrite Eq, jobsFor_app.
      rewrite jobsFor_cons_ne by (cbn; lia).
      rewrite jobsFor_map_none; [by rewrite app_nil_r|].
      intros r Hr. pose proof (inv_apart s HI j i inv_j inv Hj Hi Hji) as Hap.
      assert (Hcj : has_chain s (projectRoot inv_j) (base inv_j)) by (by exists j, inv_j).
      destruct (Hws r Hr _ _ Hcj). fold b in Hap. lia. }
  apply (typing_transfer s s' HI Ec).
  - cbn. by rewrite length_insert.
  - intros r o0 Hin. cbn in Hin. apply elem_of_app in Hin. destruct Hin as [Hin|Hin].
    + left. exists o0. rewrite Eq. by right.
    + apply list_elem_of_In, in_map_iff in Hin. destruct Hin as (r' & [= <- <-] & Hin).
      right. exists (b + 2)%nat, (pending ws). split; [done|]. by apply list_elem_of_In.
  - intros p pr r Hp Hr. cbn in Hp. destruct (decide (p = b + 2)%nat) as [->|Hne].
    + rewrite list_lookup_insert_eq in Hp by done.
      injection Hp as <-. by apply elem_of_nil in Hr.
    + rewrite list_lookup_insert_ne in Hp by done. eauto.
  - intros j x Hj. change (invocations s') with (invocations s) in Hj.
    destruct (decide (j = i)) as [->|Hji].
    + rewrite Hi in Hj. injection Hj as <-. exists (Delivered o). split; [done|]. done.
    + destruct (inv_stage s HI j x Hj) as (st & Hst & Hl). exists st.
      split; [by eapply Hothers|]. intros Hlv. specialize (Hl Hlv). cbn. unfold c'.
      destruct o as [v|err]; [done|]. rewrite lookup_insert_ne; [done|].
      intros Heq.
      destruct (inv_stage s HI i inv Hi) as (sti & Hsti & Hli).
      assert (sti = Relayed (Rejected err)) as ->.
      { destruct Hsti as [_ Hp]. eapply promises_ok_unique; [exact Hp|]. cbn. fold K b.
        rewrite Eq, jobsFor_cons_ne, jobsFor_cons_eq, Hq1, Hq2 by (cbn; lia). eauto 10. }
      specialize (Hli I). fold K b in Hli. rewrite <- Heq, Hli in Hl. injection Hl as Hl.
      pose proof (inv_apart s HI j i x inv Hj Hi Hji) as Hap. fold b in Hap. lia.
  - intros K' p Hc0. cbn in Hc0.
    assert (Hc' : _getFlowResults s !! K' = Some (Some p) /\
                  (K' = K -> exists v, o = Fulfilled v)).
    { unfold c' in Hc0. destruct o as [v|err]; [by eauto|].
      destruct (decide (K = K')) as [<-|Hne].
      - by rewrite lookup_insert_eq in Hc0.
      - rewrite lookup_insert_ne in Hc0 by done. split; [done|]. by intros ->. }
    destruct Hc' as [Hc' Hful].
    destruct (inv_cache s HI K' p Hc') as (j & x & st & Hj & HK' & Hp & Hst & Hl).
    destruct (decide (j = i)) as [->|Hji].
    + rewrite Hi in Hj. injection Hj as <-.
      destruct (Hnot st Hst Hl) as [err ->]. destruct Hful as [v ?]; [by rewrite <- HK'|done].
    + exists j, x, st. split; [done|]. split; [done|]. split; [done|].
      split; [by eapply Hothers|done].
Qed.


(** Running a job that settles a promise no invocation owns. *)
Lemma Inv_pop_free s s' t job rest extra :
  Inv s ->
  microtasks s = job :: rest -> target (fst job) = t ->
  (forall K b, has_chain s K b -> t <> b /\ t <> (b + 1)%nat /\ t <> (b + 2)%nat) ->
  _getFlowResults s' = _getFlowResults s ->
  invocations s' = invocations s ->
  microtasks s' = rest ++ extra ->
  (forall r o, (r, o) ∈ extra -> exists pr, heap s !! t = Some pr /\ r ∈ reactions pr) ->
  length (heap s') = length (heap s) ->
  (forall q, q <> t -> heap s' !! q = heap s !! q) ->
  (forall pr r, heap s' !! t = Some pr -> r ∈ reactions pr ->
     exists pr0, heap s !! t = Some pr0 /\ r ∈ reactions pr0) ->
  Inv s'.
Proof.
  intros HI Eq Ht Hfree Ecache Einv Equeue Hextra Hlen Hheap Hat.
  assert (Ec : chains s' = chains s) by (unfold chains; by rewrite Einv).
  assert (Hframe : forall i inv st, invocations s !! i = Some inv ->
            in_stage s inv st -> in_stage s' inv st).
  { intros i inv st Hi.
    assert (Hc : has_chain s (projectRoot inv) (base inv)) by (by exists i, inv).
    destruct (Hfree _ _ Hc) as (? & ? & ?).
    assert (Hjobs : forall t', t' = (base inv + 1)%nat \/ t' = (base inv + 2)%nat ->
              jobsFor t' (microtasks s') = jobsFor t' (microtasks s)).
    { intros t' Ht'. rewrite Equeue, Eq, jobsFor_app.
      rewrite jobsFor_cons_ne by lia.
      rewrite (jobsFor_none t' extra); [by rewrite app_nil_r|].
      intros r o Hin. destruct (Hextra r o Hin) as (pr & Hpr & Hr).
      destruct (inv_heap s HI t pr r Hpr Hr) as (_ & _ & Hloc).
      destruct (Hloc _ _ Hc). lia. }
    apply in_stage_frame.
    - by apply Hheap.
    - by apply Hheap.
    - intros ws Hw. exists ws. by rewrite Hheap.
    - intros o Hw. by rewrite Hheap.
    - apply Hjobs. by left.
    - apply Hjobs. by right. }
  apply (typing_transfer s s' HI Ec Hlen).
  - intros r o Hin. rewrite Equeue in Hin. apply elem_of_app in Hin.
    destruct Hin as [Hin|Hin].
    + left. exists o. rewrite Eq. by right.
    + right. destruct (Hextra r o Hin) as (pr & ? & ?). by exists t, pr.
  - intros p pr r Hp Hr. destruct (decide (p = t)) as [->|Hne].
    + by eapply Hat.
    + rewrite Hheap in Hp by done. eauto.
  - intros i inv Hi. rewrite Einv in Hi.
    destruct (inv_stage s HI i inv Hi) as (st & Hst & Hl). exists st.
    split; [by eapply Hframe|]. by rewrite Ecache.
  - intros K p Hc. rewrite Ecache in Hc.
    destruct (inv_cache s HI K p Hc) as (i & inv & st & Hi & ? & ? & Hst & ?).
    exists i, inv, st. rewrite Einv. split; [done|]. split; [done|]. split; [done|].
    split; [by eapply Hframe|done].
Qed.

Lemma Inv_settle_free s t o l job rest :
  Inv s ->
  microtasks s = job :: rest -> target (fst job) = t ->
  (forall K b, has_chain s K b -> t <> b /\ t <> (b + 1)%nat /\ t <> (b + 2)%nat) ->
  Inv (settle t o (set_callbacks l (set_microtasks rest s))).
Proof.
  intros HI Eq Ht Hfree. unfold settle. cbn [heap set_callbacks set_microtasks].
  destruct (heap s !! t) as [[[|o'] rs]|] eqn:E.
  - eapply (Inv_pop_free s _ t job rest (map (fun r => (r, o)) rs)); try done.
    + intros r o0 Hin. apply list_elem_of_In, in_map_iff in Hin.
      destruct Hin as (r' & [= <- <-] & Hin). eexists. split; [done|].
      by apply list_elem_of_In.
    + cbn. by rewrite length_insert.
    + intros q Hq. cbn. by rewrite list_lookup_insert_ne.
    + intros pr r Hp Hr. cbn in Hp.
      rewrite list_lookup_insert_eq in Hp by (by eapply lookup_lt_Some).
      injection Hp as <-. by apply elem_of_nil in Hr.
  - eapply (Inv_pop_free s _ t job rest []); try done.
    + cbn. by rewrite app_nil_r.
    + intros r o0 Hin. by apply elem_of_nil in Hin.
    + intros pr r Hp Hr. cbn in Hp. eauto.
  - eapply (Inv_pop_free s _ t job rest []); try done.
    + cbn. by rewrite app_nil_r.
    + intros r o0 Hin. by apply elem_of_nil in Hin.
    + intros pr r Hp Hr. cbn in Hp. eauto.
Qed.

Lemma settle_same_callbacks t o s :
  settle t o s = settle t o (set_callbacks (callbacks s) s).
Proof. by destruct s. Qed.

Lemma run_job_scanlike r o s :
  scanlike r ->
  exists o' l, run_job (r, o) s = settle (target r) o' (set_callbacks l s).
Proof.
  intros [HF HR]. unfold run_job. destruct o as [v|err].
  - destruct (on_fulfilled r) as [[K|fullPath callback]|] eqn:E.
    + by destruct (HF K).
    + cbn. destruct v as [|res].
      * eexists _, _. apply settle_same_callbacks.
      * unfold call_callback. destruct (cb_throws _ _ _); by eexists _, _.
    + eexists _, _. apply settle_same_callbacks.
  - destruct (on_rejected r) as [[K|callback]|] eqn:E.
    + by destruct (HR K).
    + cbn. unfold call_callback.
      destruct (decide _); destruct (cb_throws _ _ _); by eexists _, _.
    + eexists _, _. apply settle_same_callbacks.
Qed.

Lemma Inv_run_job s job rest :
  Inv s -> microtasks s = job :: rest -> Inv (run_job job (set_microtasks rest s)).
Proof.
  intros HI Eq. destruct job as [r o].
  assert (Hin : (r, o) ∈ microtasks s) by (rewrite Eq; by left).
  destruct (inv_queue s HI r o Hin) as [[(K & b & Hc & ->)|[(K & b & Hc & ->)|[Hs Hfar]]] _].
  - by apply Inv_relay.
  - by apply Inv_deliver.
  - destruct (run_job_scanlike r o (set_microtasks rest s) Hs) as (o' & l & ->).
    by eapply Inv_settle_free.
Qed.

Lemma Inv_callbacks l s : Inv s -> Inv (set_callbacks l s).
Proof. intros [A B C D E F]. by split. Qed.

Lemma Inv_log_error tag text s : Inv s -> Inv (log_error tag text s).
Proof. intros [A B C D E F]. by split. Qed.

Lemma Inv_update_child i c s :
  Inv s ->
  Inv (update_invocation i (fun inv =>
         {| projectRoot := projectRoot inv; base := base inv; resolved := resolved inv;
            timedOut := timedOut inv; timeoutID := timeoutID inv; child := c |}) s).
Proof.
  intros HI. unfold update_invocation. destruct (invocations s !! i) as [inv|] eqn:Hi; [|done].
  by eapply Inv_replace.
Qed.

(** Only a waiting invocation has both flags down, and only it has its
    timer armed. *)
Lemma flags_down_waiting s i inv :
  Inv s -> invocations s !! i = Some inv ->
  resolved inv || timedOut inv = false -> in_stage s inv Waiting.
Proof.
  intros HI Hi Hflags. destruct (inv_stage s HI i inv Hi) as (st & Hst & _).
  destruct st; [done|..]; destruct Hst as [[(Hr & _)|(_ & Ht & _)] _];
    rewrite ?Hr, ?Ht in Hflags; try done; by destruct (resolved inv).
Qed.

Lemma armed_waiting s i inv delay :
  Inv s -> invocations s !! i = Some inv ->
  timeoutID inv = Armed delay -> in_stage s inv Waiting.
Proof.
  intros HI Hi Harmed. destruct (inv_stage s HI i inv Hi) as (st & Hst & _).
  destruct st; [done|..]; destruct Hst as [[(_ & _ & Ht)|(_ & _ & Ht & _)] _]; congruence.
Qed.

Lemma Inv_onSpawnDone i err result s : Inv s -> Inv (onSpawnDone i err result s).
Proof.
  intros HI. unfold onSpawnDone. destruct (invocations s !! i) as [inv|] eqn:Hi; [|done].
  destruct (resolved inv || timedOut inv) eqn:Hflags; [done|].
  pose proof (flags_down_waiting s i inv HI Hi Hflags) as Hw.
  unfold update_invocation. rewrite Hi.
  assert (Hf' : forall o, flags_ok
            {| projectRoot := projectRoot inv; base := base inv; resolved := true;
               timedOut := timedOut inv; timeoutID := clearTimeout (timeoutID inv);
               child := child inv |} (Announced o)).
  { intros o. left. destruct Hw as [(Hr & Ht & Hid) _]. cbn. by rewrite Ht, Hid. }
  destruct err as [err|].
  - by apply Inv_announce.
  - destruct (JSON_parse _) as [res|err].
    + by apply Inv_announce.
    + apply (Inv_announce (log_error _ _ s) i inv); try done. by apply Inv_log_error.
Qed.

Lemma Inv_onTimeout_fired i inv delay s :
  Inv s -> invocations s !! i = Some inv -> timeoutID inv = Armed delay ->
  Inv (onTimeout i (update_invocation i (fun inv =>
         {| projectRoot := projectRoot inv; base := base inv; resolved := resolved inv;
            timedOut := timedOut inv; timeoutID := Fired; child := child inv |}) s)).
Proof.
  intros HI Hi Harmed. pose proof (armed_waiting s i inv delay HI Hi Harmed) as Hw.
  destruct Hw as [(Hr & Ht & Hid) Hp].
  assert (Hlt : (i < length (invocations s))%nat) by (by eapply lookup_lt_Some).
  unfold onTimeout, update_invocation. rewrite Hi. cbn [invocations set_invocations].
  rewrite list_lookup_insert_eq by done.
  cbn [resolved timedOut base projectRoot timeoutID child]. rewrite Hr, Ht.
  cbn [orb]. rewrite list_insert_insert_eq.
  apply (Inv_announce s i inv); try done.
  right. cbn. eauto 10.
Qed.

Lemma getFlowResult_slot root s :
  Inv s ->
  Inv (snd (getFlowResult root s)) /\
  match fst (getFlowResult root s) with
  | Slot p => _getFlowResults (snd (getFlowResult root s)) !! root = Some (Some p)
  | FromPrototype _ => snd (getFlowResult root s) = s
  end.
Proof.
  intros HI. destruct (lookup_cases root s) as [[Hv Hown]|[[p Hp]|Hin]].
  - split; [by apply Inv_getFlowResult_miss|].
    rewrite (getFlowResult_miss _ _ Hv Hown). cbn. by rewrite lookup_insert_eq.
  - by rewrite (getFlowResult_hit _ _ _ Hp).
  - by rewrite (getFlowResult_inherited _ _ Hin).
Qed.

(** The slot under a key of the cache is pending, and waiters may be
    put on it. *)
Lemma slot_open s K p :
  Inv s -> _getFlowResults s !! K = Some (Some p) ->
  (exists ws, heap s !! p = Some (pending ws)) /\ open_to_waiters s p.
Proof.
  intros HI Hc. destruct (inv_cache s HI K p Hc) as (i & inv & st & Hi & HK & -> & [_ Hp] & Hl).
  split.
  - destruct st as [| |[]|]; try done; by destruct Hp as (_ & _ & Hw & _).
  - intros K' b' (j & inv' & Hj & _ & <-). destruct (decide (j = i)) as [->|Hji].
    + rewrite Hi in Hj. injection Hj as <-. lia.
    + pose proof (inv_apart s HI j i inv' inv Hj Hi Hji). lia.
Qed.

Lemma call_callback_state callback err result s :
  snd (call_callback callback err result s) =
  set_callbacks (callbacks s ++ [(cb_id callback, (err, result))]) s.
Proof. unfold call_callback. by destruct (cb_throws _ _ _). Qed.

Lemma Inv_scanFileWithFlow fs root fullPath callback s :
  Inv s -> Inv (scanFileWithFlow fs root fullPath callback s).
Proof.
  intros HI. unfold scanFileWithFlow.
  destruct (negb (hasFlowConfig fs root));
    [rewrite call_callback_state; by apply Inv_callbacks|].
  destruct (negb (hasFlowBin fs root));
    [rewrite call_callback_state; by apply Inv_callbacks|].
  destruct (getFlowResult_slot root s HI) as [HI1 Hslot].
  destruct (getFlowResult root s) as [[p|key] s1]; cbn [fst snd] in *; [|done].
  destruct (slot_open s1 root p HI1 Hslot) as [[ws Hp] Hopen].
  pose proof (Inv_then p (Some (ThenReport fullPath callback)) None s1 ws HI1 Hp Hopen) as HI2.
  destruct (then_fresh p (Some (ThenReport fullPath callback)) None s1 ws Hp) as (E4 & Hp4 & Hlen).
  destruct (then_ p _ None s1) as [p4 s2]. cbn [fst snd] in *. subst p4.
  specialize (HI2 ltac:(done) ltac:(done)).
  pose proof (Inv_then (length (heap s1)) None (Some (CatchReport callback)) s2 [] HI2 Hp4) as HI3.
  destruct (then_ (length (heap s1)) None _ s2) as [p5 s3]. cbn [snd] in *.
  apply HI3; [|done..].
  intros K b Hc. pose proof (inv_alloc s2 HI2 K b Hc) as Hlt. rewrite Hlen in Hlt. lia.
Qed.

Lemma Inv_step e s : Inv s -> Inv (step e s).
Proof.
  intros HI. destruct e as [fs root fullPath callback|root|i|i ev|]; cbn [step].
  - by apply Inv_scanFileWithFlow.
  - by apply getFlowResult_slot.
  - destruct (invocations s !! i) as [inv|] eqn:Hi; [|done].
    destruct inv as [K b r t [delay| |] c] eqn:Einv; try done.
    by eapply Inv_onTimeout_fired.
  - destruct (invocations s !! i) as [inv|] eqn:Hi; [|done].
    destruct ev as [data|code|err]; cbn [emit].
    + by apply Inv_update_child.
    + destruct (once_close (child inv)); [|by apply Inv_update_child].
      by apply Inv_update_child, Inv_onSpawnDone.
    + destruct (once_error (child inv)); [|by apply Inv_update_child].
      by apply Inv_update_child, Inv_onSpawnDone, Inv_log_error.
  - destruct (microtasks s) as [|job rest] eqn:Eq; [done|]. by apply Inv_run_job.
Qed.

Lemma reachable_Inv s : reachable s -> Inv s.
Proof. induction 1; [apply Inv_init|by apply Inv_step]. Qed.

End Invariant.

(** ** Stability of outcomes and the growth of the state *)

Section Stability.
Context `{NodeEnv}.

Lemma keeps_refl s : keeps s s.
Proof. by intros p o. Qed.

Lemma keeps_trans s1 s2 s3 : keeps s1 s2 -> keeps s2 s3 -> keeps s1 s3.
Proof. intros H12 H23 p o Hp. by apply H23, H12. Qed.

Lemma keeps_same s s' : heap s' = heap s -> keeps s s'.
Proof. intros E p o. by rewrite E. Qed.

Lemma keeps_settle p o s : keeps s (settle p o s).
Proof.
  intros q o' Hq. unfold settle. destruct (heap s !! p) as [[[|o''] rs]|] eqn:E; try done.
  cbn. rewrite list_lookup_insert_ne; [done|]. intros <-. rewrite E in Hq. discriminate.
Qed.

Lemma keeps_then p onF onR s : keeps s (snd (then_ p onF onR s)).
Proof.
  intros q o Hq. unfold then_, new_promise. cbn.
  destruct ((heap s ++ [_]) !! p) as [[[|o'] rs]|] eqn:E; cbn.
  - rewrite list_lookup_insert_ne.
    + by apply lookup_app_l_Some.
    + intros <-. rewrite (lookup_app_l_Some _ _ _ _ Hq) in E. discriminate.
  - by apply lookup_app_l_Some.
  - by apply lookup_app_l_Some.
Qed.

Lemma keeps_getFlowResult root s : keeps s (snd (getFlowResult root s)).
Proof.
  destruct (lookup_cases root s) as [[Hv Hown]|[[p Hp]|Hin]].
  - rewrite (getFlowResult_miss _ _ Hv Hown). intros q o Hq. cbn. by apply lookup_app_l_Some.
  - rewrite (getFlowResult_hit _ _ _ Hp). apply keeps_refl.
  - rewrite (getFlowResult_inherited _ _ Hin). apply keeps_refl.
Qed.

Lemma keeps_run_job job s : keeps s (run_job job s).
Proof.
  destruct job as [r [v|err]]; cbn.
  - destruct (on_fulfilled r) as [[K|fullPath callback]|]; [| |apply keeps_settle].
    + cbn. eapply keeps_trans; [|apply keeps_settle]. by apply keeps_same.
    + cbn. destruct v as [|res].
      * apply keeps_settle.
      * unfold call_callback. destruct (cb_throws _ _ _);
          (eapply keeps_trans; [|apply keeps_settle]); by apply keeps_same.
  - destruct (on_rejected r) as [[K|callback]|]; [| |apply keeps_settle].
    + cbn. eapply keeps_trans; [|apply keeps_settle]. by apply keeps_same.
    + cbn. unfold call_callback. destruct (decide _); destruct (cb_throws _ _ _);
        (eapply keeps_trans; [|apply keeps_settle]); by apply keeps_same.
Qed.

Lemma keeps_update i f s : keeps s (update_invocation i f s).
Proof. unfold update_invocation. destruct (invocations s !! i); by apply keeps_same. Qed.

Lemma keeps_onSpawnDone i err result s : keeps s (onSpawnDone i err result s).
Proof.
  unfold onSpawnDone. destruct (invocations s !! i) as [inv|]; [|apply keeps_refl].
  destruct (resolved inv || timedOut inv); [apply keeps_refl|].
  destruct err as [err|]; [|destruct (JSON_parse _)];
    (eapply keeps_trans; [|apply keeps_settle]).
  - apply keeps_update.
  - apply keeps_update.
  - eapply keeps_trans; [apply keeps_update|]. by apply keeps_same.
Qed.

Lemma keeps_onTimeout i s : keeps s (onTimeout i s).
Proof.
  unfold onTimeout. destruct (invocations s !! i) as [inv|]; [|apply keeps_refl].
  destruct (resolved inv || timedOut inv); [apply keeps_refl|].
  eapply keeps_trans; [|apply keeps_settle]. apply keeps_update.
Qed.

Lemma keeps_step e s : keeps s (step e s).
Proof.
  destruct e as [fs root fullPath callback|root|i|i ev|]; cbn [step].
  - unfold scanFileWithFlow.
    destruct (negb _); [rewrite call_callback_state; by apply keeps_same|].
    destruct (negb _); [rewrite call_callback_state; by apply keeps_same|].
    pose proof (keeps_getFlowResult root s) as H1.
    destruct (getFlowResult root s) as [[p|key] s1]; cbn [snd] in H1; [|done].
    pose proof (keeps_then p (Some (ThenReport fullPath callback)) None s1) as H2.
    destruct (then_ p _ None s1) as [p4 s2]. cbn [snd] in H2.
    pose proof (keeps_then p4 None (Some (CatchReport callback)) s2) as H3.
    destruct (then_ p4 None _ s2) as [p5 s3]. cbn [snd] in H3.
    eauto using keeps_trans.
  - apply keeps_getFlowResult.
  - destruct (invocations s !! i) as [[K b r t [delay| |] c]|]; try apply keeps_refl.
    eapply keeps_trans; [apply keeps_update|apply keeps_onTimeout].
  - destruct (invocations s !! i) as [inv|]; [|apply keeps_refl].
    destruct ev as [data|code|err]; cbn [emit].
    + apply keeps_update.
    + destruct (once_close (child inv)); [|apply keeps_update].
      eapply keeps_trans; [apply keeps_onSpawnDone|apply keeps_update].
    + destruct (once_error (child inv)); [|apply keeps_update].
      eapply keeps_trans; [|apply keeps_update].
      eapply keeps_trans; [|apply keeps_onSpawnDone]. by apply keeps_same.
  - destruct (microtasks s) as [|job rest]; [apply keeps_refl|].
    eapply keeps_trans; [|apply keeps_run_job]. by apply keeps_same.
Qed.

Lemma run_cons e evs s : run (e :: evs) s = run evs (step e s).
Proof. reflexivity. Qed.

Lemma run_app evs1 evs2 s : run (evs1 ++ evs2) s = run evs2 (run evs1 s).
Proof. unfold run. by rewrite fold_left_app. Qed.

Lemma keeps_run evs s : keeps s (run evs s).
Proof.
  revert s. induction evs as [|e evs IH]; intros s; [apply keeps_refl|].
  rewrite run_cons. eapply keeps_trans; [apply keeps_step|apply IH].
Qed.

Lemma reachable_run evs s : reachable s -> reachable (run evs s).
Proof.
  revert s. induction evs as [|e evs IH]; intros s Hs; [done|].
  rewrite run_cons. apply IH. by constructor.
Qed.

(** An event starts at most one invocation, and only for a key the
    cache has no promise for. *)
Lemma chains_getFlowResult root s :
  (vacant s root /\ ~ inherited s root /\
   chains (snd (getFlowResult root s)) = chains s ++ [(root, length (heap s))]) \/
  ((~ vacant s root \/ inherited s root) /\ snd (getFlowResult root s) = s).
Proof.
  destruct (lookup_cases root s) as [[Hv Hown]|[[p Hp]|Hin]].
  - left. split; [done|]. split; [done|].
    rewrite (getFlowResult_miss _ _ Hv Hown). unfold chains. cbn.
    by rewrite fmap_app.
  - right. split; [|by rewrite (getFlowResult_hit _ _ _ Hp)]. left. intros Hv. by apply (Hv p).
  - right. split; [by right|by rewrite (getFlowResult_inherited _ _ Hin)].
Qed.

Lemma chains_then p onF onR s : chains (snd (then_ p onF onR s)) = chains s.
Proof.
  unfold then_, new_promise. cbn.
  by destruct ((heap s ++ [_]) !! p) as [[[|o'] rs]|].
Qed.

Lemma chains_settle p o s : chains (settle p o s) = chains s.
Proof. unfold settle. by destruct (heap s !! p) as [[[|o'] rs]|]. Qed.

Lemma chains_update_invocation i f s :
  (forall inv, projectRoot (f inv) = projectRoot inv /\ base (f inv) = base inv) ->
  chains (update_invocation i f s) = chains s.
Proof.
  intros Hf. unfold update_invocation. destruct (invocations s !! i) as [inv|] eqn:Hi; [|done].
  destruct (Hf inv). by eapply chains_update.
Qed.

Lemma chains_run_job job s : chains (run_job job s) = chains s.
Proof.
  destruct job as [r [v|err]]; cbn.
  - destruct (on_fulfilled r) as [[K|fullPath callback]|]; cbn; [by rewrite chains_settle| |by rewrite chains_settle].
    destruct v as [|res]; [by rewrite chains_settle|].
    unfold call_callback. destruct (cb_throws _ _ _); by rewrite chains_settle.
  - destruct (on_rejected r) as [[K|callback]|]; cbn; [by rewrite chains_settle| |by rewrite chains_settle].
    unfold call_callback. destruct (decide _); destruct (cb_throws _ _ _); by rewrite chains_settle.
Qed.

Lemma chains_log_error tag text s : chains (log_error tag text s) = chains s.
Proof. reflexivity. Qed.

Lemma chains_onSpawnDone i err result s : chains (onSpawnDone i err result s) = chains s.
Proof.
  unfold onSpawnDone. destruct (invocations s !! i) as [inv|]; [|done].
  destruct (resolved inv || timedOut inv); [done|].
  destruct err as [err|]; [|destruct (JSON_parse _)];
    rewrite chains_settle, ?chains_log_error, chains_update_invocation; done.
Qed.

Lemma chains_onTimeout i s : chains (onTimeout i s) = chains s.
Proof.
  unfold onTimeout. destruct (invocations s !! i) as [inv|]; [|done].
  destruct (resolved inv || timedOut inv); [done|].
  rewrite chains_settle, chains_update_invocation; done.
Qed.

Lemma chains_step e s :
  chains (step e s) = chains s \/
  exists root n, vacant s root /\ chains (step e s) = chains s ++ [(root, n)].
Proof.
  destruct e as [fs root fullPath callback|root|i|i ev|]; cbn [step].
  - unfold scanFileWithFlow.
    destruct (negb _); [left; by rewrite call_callback_state|].
    destruct (negb _); [left; by rewrite call_callback_state|].
    pose proof (chains_getFlowResult root s) as H1.
    destruct (getFlowResult root s) as [[p|key] s1]; cbn [snd] in H1.
    + pose proof (chains_then p (Some (ThenReport fullPath callback)) None s1) as H2.
      destruct (then_ p _ None s1) as [p4 s2]. cbn [snd] in H2.
      pose proof (chains_then p4 None (Some (CatchReport callback)) s2) as H3.
      destruct (then_ p4 None _ s2) as [p5 s3]. cbn [snd] in H3.
      rewrite H3, H2. destruct H1 as [(Hv & _ & ->)|[_ ->]]; eauto.
    + destruct H1 as [(Hv & _ & ->)|[_ ->]]; eauto.
  - destruct (chains_getFlowResult root s) as [(Hv & _ & ->)|[_ ->]]; eauto.
  - left. destruct (invocations s !! i) as [[K b r t [delay| |] c]|]; try done.
    rewrite chains_onTimeout, chains_update_invocation; done.
  - left. destruct (invocations s !! i) as [inv|]; [|done].
    destruct ev as [data|code|err]; cbn [emit].
    + by rewrite chains_update_invocation.
    + destruct (once_close (child inv)); rewrite chains_update_invocation; try done.
      by rewrite chains_onSpawnDone.
    + destruct (once_error (child inv)); rewrite chains_update_invocation; try done.
      by rewrite chains_onSpawnDone.
  - left. destruct (microtasks s) as [|job rest]; [done|]. by rewrite chains_run_job.
Qed.

Lemma chains_has_chain s i K b :
  chains s !! i = Some (K, b) ->
  exists inv, invocations s !! i = Some inv /\ projectRoot inv = K /\ base inv = b.
Proof.
  unfold chains. rewrite list_lookup_fmap.
  destruct (invocations s !! i) as [inv|]; [|done]. intros [= <- <-]. eauto.
Qed.

(** An invocation whose first promise is pending is waiting, and its slot
    is in the cache. *)
Lemma pending_waiting s i K b rs :
  Inv s -> chains s !! i = Some (K, b) -> heap s !! b = Some (pending rs) ->
  exists inv, invocations s !! i = Some inv /\ projectRoot inv = K /\ base inv = b /\
    in_stage s inv Waiting /\ _getFlowResults s !! K = Some (Some (b + 2)%nat).
Proof.
  intros HI Hc Hp. destruct (chains_has_chain s i K b Hc) as (inv & Hi & <- & <-).
  destruct (inv_stage s HI i inv Hi) as (st & Hst & Hl).
  exists inv. split; [done|]. split; [done|]. split; [done|].
  destruct st as [|o|o|o].
  - split; [done|]. by apply Hl.
  - destruct Hst as [_ (H0 & _)]. rewrite Hp in H0. discriminate.
  - destruct Hst as [_ (H0 & _)]. rewrite Hp in H0. discriminate.
  - destruct Hst as [_ (H0 & _)]. rewrite Hp in H0. discriminate.
Qed.

Lemma base_pending_or_settled s i K b :
  Inv s -> chains s !! i = Some (K, b) ->
  (exists rs, heap s !! b = Some (pending rs)) \/ (exists o, heap s !! b = Some (settled o)).
Proof.
  intros HI Hc. destruct (chains_has_chain s i K b Hc) as (inv & Hi & <- & <-).
  destruct (inv_stage s HI i inv Hi) as (st & [_ Hp] & _).
  destruct st; destruct Hp as (H0 & _); eauto.
Qed.

Lemma still_pending s i K b evs rs :
  reachable s -> chains s !! i = Some (K, b) ->
  heap (run evs s) !! b = Some (pending rs) ->
  exists rs', heap s !! b = Some (pending rs').
Proof.
  intros Hs Hc Hp.
  destruct (base_pending_or_settled s i K b (reachable_Inv s Hs) Hc) as [?|[o Ho]]; [done|].
  apply (keeps_run evs) in Ho. rewrite Hp in Ho. discriminate.
Qed.

Lemma chains_step_lookup e s i c :
  chains s !! i = Some c -> chains (step e s) !! i = Some c.
Proof.
  intros Hc. destruct (chains_step e s) as [->|(root & n & _ & ->)]; [done|].
  by apply lookup_app_l_Some.
Qed.

Lemma coalesced s i root b evs rs :
  reachable s -> chains s !! i = Some (root, b) ->
  heap (run evs s) !! b = Some (pending rs) ->
  spawned root (run evs s) = spawned root s /\
  forall evs1 evs2, evs = evs1 ++ evs2 ->
    _getFlowResults (run evs1 s) !! root = Some (Some (b + 2)%nat).
Proof.
  revert s. induction evs as [|e evs IH]; intros s Hs Hc Hp.
  - split; [done|]. intros evs1 evs2 E. symmetry in E. apply app_eq_nil in E as [-> ->].
    destruct (pending_waiting s i root b rs (reachable_Inv s Hs) Hc Hp) as (?&?&?&?&?&?). done.
  - rewrite run_cons in Hp.
    destruct (still_pending s i root b (e :: evs) rs Hs Hc Hp) as [rs' Hp'].
    destruct (pending_waiting s i root b rs' (reachable_Inv s Hs) Hc Hp')
      as (inv & Hi & HK & Hb & Hw & Hcache).
    destruct (IH (step e s) (reachable_step e s Hs) (chains_step_lookup e s i _ Hc) Hp)
      as [IH1 IH2].
    split.
    + rewrite run_cons, IH1. unfold spawned.
      destruct (chains_step e s) as [->|(root' & n & Hv & ->)]; [done|].
      rewrite filter_app, filter_cons_False, filter_nil, app_nil_r; [done|].
      cbn. intros ->. by apply (Hv _ Hcache).
    + intros [|e' evs1] evs2 E; [done|]. injection E as <- ->.
      rewrite run_cons. by apply (IH2 evs1 evs2).
Qed.


Lemma step_timer_armed s i inv delay :
  invocations s !! i = Some inv -> timeoutID inv = Armed delay ->
  step (TimerFires i) s =
  onTimeout i (update_invocation i (fun inv =>
    {| projectRoot := projectRoot inv; base := base inv; resolved := resolved inv;
       timedOut := timedOut inv; timeoutID := Fired; child := child inv |}) s).
Proof.
  intros Hi Hid. cbn [step]. rewrite Hi. destruct inv as [K b r t tid c].
  cbn in Hid. by subst tid.
Qed.

(** What a settling event does to a waiting invocation. *)
Lemma settles_step s i inv e :
  Inv s -> invocations s !! i = Some inv ->
  resolved inv || timedOut inv = false -> settles i inv e ->
  exists o inv',
    heap (step e s) = <[base inv := settled o]> (heap s) /\
    microtasks (step e s) =
      microtasks s ++ [(thenClear (projectRoot inv) (base inv + 1), o)] /\
    _getFlowResults (step e s) = _getFlowResults s /\
    callbacks (step e s) = callbacks s /\
    invocations (step e s) = <[i := inv']> (invocations s) /\
    projectRoot inv' = projectRoot inv /\ base inv' = base inv /\
    match e with
    | TimerFires _ =>
        resolved inv' = false /\ timedOut inv' = true /\ timeoutID inv' = Fired /\
        exists err, o = Rejected err /\ name err = "TimeoutError"
    | _ => resolved inv' = true /\ timedOut inv' = false /\ timeoutID inv' = Cleared
    end.
Proof.
  intros HI Hi Hflags He.
  destruct (flags_down_waiting s i inv HI Hi Hflags) as [(Hr & Ht & Hid) (H0 & _)].
  assert (Hlt : (i < length (invocations s))%nat) by (by eapply lookup_lt_Some).
  destruct He as [->|[(code & -> & Hc)|(err & -> & Hc)]].
  - rewrite (step_timer_armed s i inv _ Hi Hid).
    unfold onTimeout, update_invocation. rewrite Hi. cbn [invocations set_invocations].
    rewrite list_lookup_insert_eq by done.
    cbn [resolved timedOut base projectRoot timeoutID child]. rewrite Hr, Ht. cbn [orb].
    rewrite list_insert_insert_eq.
    erewrite settle_pending by (cbn; exact H0). cbn.
    eexists _, _. repeat split; eauto.
  - cbn [step]. rewrite Hi. cbn [emit]. rewrite Hc.
    unfold onSpawnDone, update_invocation. rewrite Hi, Hflags.
    cbn [invocations set_invocations default].
    destruct (JSON_parse _) as [res|err];
      erewrite settle_pending by (cbn; exact H0); cbn;
      rewrite list_lookup_insert_eq by done; cbn; rewrite list_insert_insert_eq;
      eexists _, _; rewrite Hid; repeat split; eauto.
  - cbn [step]. rewrite Hi. cbn [emit]. rewrite Hc.
    unfold onSpawnDone, update_invocation. cbn [log_error invocations]. rewrite Hi, Hflags.
    cbn [invocations set_invocations].
    erewrite settle_pending by (cbn; exact H0). cbn.
    rewrite list_lookup_insert_eq by done. cbn. rewrite list_insert_insert_eq.
    eexists _, _; rewrite Hid; repeat split; eauto.
Qed.

(** What happens to an invocation that has settled already. *)
Lemma child_event_discarded s i inv ev :
  invocations s !! i = Some inv -> resolved inv || timedOut inv = true ->
  heap (step (Child i ev) s) = heap s /\
  microtasks (step (Child i ev) s) = microtasks s /\
  _getFlowResults (step (Child i ev) s) = _getFlowResults s /\
  callbacks (step (Child i ev) s) = callbacks s.
Proof.
  intros Hi Hflags. cbn [step]. rewrite Hi.
  destruct ev as [data|code|err]; cbn [emit].
  - unfold update_invocation. by rewrite Hi.
  - destruct (once_close (child inv)); unfold onSpawnDone, update_invocation;
      rewrite ?Hi, ?Hflags, ?Hi; repeat split; reflexivity.
  - destruct (once_error (child inv)).
    + unfold onSpawnDone.
      change (invocations (log_error "spawn-error" (stack err) s)) with (invocations s).
      rewrite Hi, Hflags. unfold update_invocation.
      change (invocations (log_error "spawn-error" (stack err) s)) with (invocations s).
      rewrite Hi. repeat split; reflexivity.
    + unfold update_invocation. rewrite Hi. repeat split; reflexivity.
Qed.

Lemma onSpawnDone_discarded s i inv err result :
  invocations s !! i = Some inv -> resolved inv || timedOut inv = true ->
  onSpawnDone i err result s = s.
Proof. intros Hi Hflags. unfold onSpawnDone. by rewrite Hi, Hflags. Qed.

Lemma onTimeout_discarded s i inv :
  invocations s !! i = Some inv -> resolved inv || timedOut inv = true ->
  onTimeout i s = s.
Proof. intros Hi Hflags. unfold onTimeout. by rewrite Hi, Hflags. Qed.

(** C2: of the timer and the completion of the invocation, the first to
    come settles the promise and the other is discarded: after the timer
    a completion or error changes nothing, after a completion the timer
    is cleared and cannot fire, and the outcome delivered is never
    replaced nor relayed twice. *)
Theorem race_has_one_winner (s : state) (i : nat) (inv : invocation) :
  reachable s -> invocations s !! i = Some inv ->
  ~ (resolved inv = true /\ timedOut inv = true) /\
  (resolved inv || timedOut inv = false <->
     exists rs, heap s !! base inv = Some (pending rs)) /\
  (timedOut inv = true ->
     timeoutID inv = Fired /\
     (forall err result, onSpawnDone i err result s = s) /\
     (forall ev,
        heap (step (Child i ev) s) = heap s /\
        microtasks (step (Child i ev) s) = microtasks s /\
        _getFlowResults (step (Child i ev) s) = _getFlowResults s /\
        callbacks (step (Child i ev) s) = callbacks s)) /\
  (resolved inv = true ->
     timeoutID inv = Cleared /\ onTimeout i s = s /\ step (TimerFires i) s = s) /\
  (resolved inv || timedOut inv = false ->
     forall e, settles i inv e ->
       exists o inv',
         heap (step e s) !! base inv = Some (settled o) /\
         invocations (step e s) !! i = Some inv' /\
         match e with
         | TimerFires _ =>
             resolved inv' = false /\ timedOut inv' = true /\ timeoutID inv' = Fired /\
             exists err, o = Rejected err /\ name err = "TimeoutError"
         | _ => resolved inv' = true /\ timedOut inv' = false /\ timeoutID inv' = Cleared
         end) /\
  (forall o evs, heap s !! base inv = Some (settled o) ->
     heap (run evs s) !! base inv = Some (settled o)) /\
  (length (jobsFor (base inv + 1) (microtasks s)) <= 1)%nat /\
  (length (jobsFor (base inv + 2) (microtasks s)) <= 1)%nat.
Proof.
  intros Hs Hi. pose proof (reachable_Inv s Hs) as HI.
  destruct (inv_stage s HI i inv Hi) as (st & [Hf Hp] & _).
  assert (Hlt : (i < length (invocations s))%nat) by (by eapply lookup_lt_Some).
  split; [|split; [|split; [|split; [|split; [|split; [|split]]]]]].
  - intros [Hr Ht]. destruct st; cbn in Hf; [destruct Hf as (? & _); congruence|..];
      destruct Hf as [(_ & ? & _)|(? & _)]; congruence.
  - split.
    + intros Hflags. destruct (flags_down_waiting s i inv HI Hi Hflags) as [_ (H0 & _)]. eauto.
    + intros [rs Hrs]. destruct st; destruct Hp as (H0 & _); rewrite Hrs in H0; try discriminate.
      destruct Hf as (-> & -> & _). done.
  - intros Ht. assert (Hflags : resolved inv || timedOut inv = true)
      by (rewrite Ht; by destruct (resolved inv)).
    split; [|split].
    + destruct st; cbn in Hf; [destruct Hf as (_ & ? & _); congruence|..];
        destruct Hf as [(_ & ? & _)|(_ & _ & ? & _)]; congruence.
    + intros err result. by eapply onSpawnDone_discarded.
    + intros ev. by eapply child_event_discarded.
  - intros Hr. assert (Hflags : resolved inv || timedOut inv = true) by (by rewrite Hr).
    assert (Hid : timeoutID inv = Cleared).
    { destruct st; cbn in Hf; [destruct Hf as (? & _); congruence|..];
        destruct Hf as [(_ & _ & ?)|(? & _)]; congruence. }
    split; [done|]. split; [by eapply onTimeout_discarded|].
    cbn [step]. rewrite Hi. destruct inv as [K b r t tid c]. cbn in Hid. by subst tid.
  - intros Hflags e He.
    destruct (settles_step s i inv e HI Hi Hflags He)
      as (o & inv' & Eh & _ & _ & _ & Ei & _ & _ & Hfl).
    exists o, inv'. rewrite Eh, Ei. split; [|split; [|done]].
    + apply list_lookup_insert_eq.
      destruct (flags_down_waiting s i inv HI Hi Hflags) as [_ (H0 & _)].
      by eapply lookup_lt_Some.
    + by apply list_lookup_insert_eq.
  - intros o evs Ho. by apply keeps_run.
  - destruct st; destruct Hp as (_ & _ & _ & -> & _); cbn; lia.
  - destruct st; destruct Hp as (_ & _ & _ & _ & ->); cbn; lia.
Qed.

Lemma run_job_thenClear s K t o rs :
  heap s !! t = Some (pending rs) ->
  heap (run_job (thenClear K t, o) s) = <[t := settled o]> (heap s) /\
  microtasks (run_job (thenClear K t, o) s) = microtasks s ++ map (fun r => (r, o)) rs /\
  _getFlowResults (run_job (thenClear K t, o) s) =
    match o with
    | Fulfilled _ => <[K := None]> (_getFlowResults s)
    | Rejected _ => _getFlowResults s
    end.
Proof.
  intros Ht. destruct o; cbn; erewrite settle_pending by (cbn; exact Ht); done.
Qed.

Lemma run_job_catchClear s K t o rs :
  heap s !! t = Some (pending rs) ->
  heap (run_job (catchClear K t, o) s) = <[t := settled o]> (heap s) /\
  microtasks (run_job (catchClear K t, o) s) = microtasks s ++ map (fun r => (r, o)) rs /\
  _getFlowResults (run_job (catchClear K t, o) s) =
    match o with
    | Fulfilled _ => _getFlowResults s
    | Rejected _ => <[K := None]> (_getFlowResults s)
    end.
Proof.
  intros Ht. destruct o; cbn; erewrite settle_pending by (cbn; exact Ht); done.
Qed.

Lemma step_microtask s job rest :
  microtasks s = job :: rest -> step Microtask s = run_job job (set_microtasks rest s).
Proof. intros E. cbn [step]. by rewrite E. Qed.

(** C3, as the code has it: the slot is cleared by a handler of the
    invocation's own promise chain, a job after the settlement, and the
    key then holds [undefined]; it is not removed.  A promise kept in
    the cache is never a settled one.  Once the timer or the child has
    settled an invocation, the key still holds the slot, and a call
    still returns it, until the invocation's two reaction jobs, the next
    in an idle microtask queue, have put [undefined] under the key,
    before any waiter is served.  From then on, as for every key with
    no promise under it that does not name a property the cache
    inherits, a call starts a new invocation with new promises. *)
Theorem slot_cleared_on_settlement (s : state) :
  reachable s ->
  (forall K p, _getFlowResults s !! K = Some (Some p) ->
     exists ws, heap s !! p = Some (pending ws)) /\
  (forall K, vacant s K -> ~ inherited s K ->
     fst (getFlowResult K s) = Slot (length (heap s) + 2)%nat /\
     heap s !! (length (heap s) + 2)%nat = None /\
     invocations (snd (getFlowResult K s)) =
       invocations s ++ [newInvocation K (length (heap s))]) /\
  (forall i inv e,
     microtasks s = [] -> invocations s !! i = Some inv ->
     resolved inv || timedOut inv = false -> settles i inv e ->
     let s1 := step e s in
     let s3 := run [e; Microtask; Microtask] s in
     exists o ws,
       heap s !! (base inv + 2)%nat = Some (pending ws) /\
       heap s1 !! base inv = Some (settled o) /\
       getFlowResult (projectRoot inv) s1 = (Slot (base inv + 2)%nat, s1) /\
       heap s3 !! base inv = Some (settled o) /\
       heap s3 !! (base inv + 2)%nat = Some (settled o) /\
       _getFlowResults s3 !! projectRoot inv = Some None /\
       vacant s3 (projectRoot inv) /\ ~ inherited s3 (projectRoot inv) /\
       microtasks s3 = map (fun r => (r, o)) ws).
Proof.
  intros Hs. pose proof (reachable_Inv s Hs) as HI. split; [|split].
  - intros K p Hc. by destruct (slot_open s K p HI Hc).
  - intros K Hv Hown. rewrite (getFlowResult_miss _ _ Hv Hown). cbn.
    split; [done|]. split; [|done]. apply lookup_ge_None_2. lia.
  - intros i inv e Hq Hi Hflags He s1 s3.
    destruct (flags_down_waiting s i inv HI Hi Hflags) as [_ (H0 & H1 & [ws H2] & _)].
    assert (Hkey : _getFlowResults s !! projectRoot inv = Some (Some (base inv + 2)%nat)).
    { destruct (inv_stage s HI i inv Hi) as (st & [Hf _] & Hlive).
      destruct st as [|o0|o0|o0]; [by apply Hlive|..];
        destruct Hf as [(Hr & _)|(_ & Ht & _)];
        rewrite ?Hr, ?Ht in Hflags; try done; by rewrite orb_true_r in Hflags. }
    set (K := projectRoot inv) in *. set (b := base inv) in *.
    destruct (settles_step s i inv e HI Hi Hflags He)
      as (o & inv' & Eh1 & Eq1 & Ec1 & _).
    fold K b in Eh1, Eq1. rewrite Hq in Eq1. cbn [app] in Eq1.
    fold s1 in Eh1, Eq1, Ec1.
    assert (Hb1 : (b < length (heap s))%nat) by (by eapply lookup_lt_Some).
    assert (Hb2 : (b + 1 < length (heap s))%nat) by (by eapply lookup_lt_Some).
    assert (Hb3 : (b + 2 < length (heap s))%nat) by (by eapply lookup_lt_Some).
    (* the first job: the [then] reaction *)
    assert (E2 : step Microtask s1 =
                 run_job (thenClear K (b + 1), o) (set_microtasks [] s1))
      by (by apply step_microtask).
    destruct (run_job_thenClear (set_microtasks [] s1) K (b + 1) o [catchClear K (b + 2)])
      as (Eh2 & Eq2 & Ec2).
    { cbn [heap set_microtasks]. rewrite Eh1. by rewrite list_lookup_insert_ne by lia. }
    rewrite <- E2 in Eh2, Eq2, Ec2. set (s2 := step Microtask s1) in *.
    cbn [heap microtasks _getFlowResults set_microtasks app map] in Eh2, Eq2, Ec2.
    (* the second job: the [catch] reaction *)
    assert (E3 : step Microtask s2 =
                 run_job (catchClear K (b + 2), o) (set_microtasks [] s2))
      by (by apply step_microtask).
    destruct (run_job_catchClear (set_microtasks [] s2) K (b + 2) o ws) as (Eh3 & Eq3 & Ec3).
    { cbn [heap set_microtasks]. rewrite Eh2, Eh1. by rewrite !list_lookup_insert_ne by lia. }
    rewrite <- E3 in Eh3, Eq3, Ec3.
    change s3 with (step Microtask s2). clear s3.
    set (s3 := step Microtask s2) in *.
    cbn [heap microtasks _getFlowResults set_microtasks app] in Eh3, Eq3, Ec3.
    assert (Hcache : _getFlowResults s3 !! K = Some None).
    { rewrite Ec3, Ec2. destruct o; by rewrite lookup_insert_eq. }
    exists o, ws. split; [done|].
    split; [rewrite Eh1; by apply list_lookup_insert_eq|].
    split; [apply getFlowResult_hit; by rewrite Ec1|].
    rewrite Eh3, Eh2, Eh1, Eq3.
    split; [|split; [|split; [|split; [|split]]]]; try done.
    + rewrite !list_lookup_insert_ne by lia. apply list_lookup_insert_eq. done.
    + apply list_lookup_insert_eq. by rewrite !length_insert.
    + intros p. rewrite Hcache. discriminate.
    + intros [Hnone _]. rewrite Hcache in Hnone. discriminate.
Qed.

(** The two handlers of [scanFileWithFlow], job by job: the [catch]
    handler answers a rejection named [TimeoutError] with a report
    holding the one timeout diagnostic, and passes any other rejection
    to the callback as its error; the [then] handler leaves a rejection
    alone; what the timer of the coalescer rejects with is named
    [TimeoutError], and what [JSON.parse] throws is not. *)
Lemma catch_handler_tells_by_name (callback : callback_fn) (err : Error) (s : state) :
  (forall t,
     let job := ({| on_fulfilled := None; on_rejected := Some (CatchReport callback);
                    target := t |}, Rejected err) in
     (name err = "TimeoutError" ->
        callbacks (run_job job s) =
        callbacks s ++ [(cb_id callback, (None, Some timeoutReport))]) /\
     (name err <> "TimeoutError" ->
        callbacks (run_job job s) = callbacks s ++ [(cb_id callback, (Some err, None))])) /\
  (forall t fullPath,
     callbacks (run_job ({| on_fulfilled := Some (ThenReport fullPath callback);
                            on_rejected := None; target := t |}, Rejected err) s) =
     callbacks s) /\
  timeoutReport =
    {| CodeInspectionReport.errors :=
         [{| CodeInspectionResult.type := "problem_type_error";
             CodeInspectionResult.message := "FlowError: Timed out after waiting 3000ms";
             CodeInspectionResult.pos := {| Pos.line := 0; Pos.ch := 0 |} |}] |} /\
  (forall i inv,
     reachable s -> invocations s !! i = Some inv -> resolved inv || timedOut inv = false ->
     exists timeout,
       name timeout = "TimeoutError" /\
       heap (step (TimerFires i) s) !! base inv = Some (settled (Rejected timeout))) /\
  (forall text thrown, JSON_parse text = inr thrown -> name thrown <> "TimeoutError").
Proof.
  assert (Hcb : forall p o s0, callbacks (settle p o s0) = callbacks s0).
  { intros p o s0. unfold settle. by destruct (heap s0 !! p) as [[[|o'] rs]|]. }
  split; [|split; [|split; [|split]]].
  - intros t job. subst job. cbn. split; intros Hn.
    + rewrite decide_True by done. unfold call_callback.
      destruct (cb_throws _ _ _); by rewrite Hcb.
    + rewrite decide_False by done. unfold call_callback.
      destruct (cb_throws _ _ _); by rewrite Hcb.
  - intros t fullPath. cbn. by rewrite Hcb.
  - vm_compute. reflexivity.
  - intros i inv Hs Hi Hflags. pose proof (reachable_Inv s Hs) as HI.
    destruct (settles_step s i inv (TimerFires i) HI Hi Hflags)
      as (o & inv' & Eh & _ & _ & _ & _ & _ & _ & _ & _ & _ & timeout & -> & Hn); [by left|].
    exists timeout. split; [done|]. rewrite Eh. apply list_lookup_insert_eq.
    destruct (flags_down_waiting s i inv HI Hi Hflags) as [_ (H0 & _)].
    by eapply lookup_lt_Some.
  - intros text thrown Hp Hn. apply JSON_parse_SyntaxError in Hp. congruence.
Qed.

(** X18: single flight, for a key that holds no promise and does not
    name a property the cache inherits: the first call starts one
    invocation; the calls made for the key while that invocation has
    not settled all get the promise of the first call and start nothing;
    and the shared promise settles once, with the outcome of that
    invocation. *)
Theorem single_flight (s : state) (root : string) (evs : list event) (rs : list reaction) :
  reachable s ->
  vacant s root -> ~ inherited s root ->
  let p := (length (heap s) + 2)%nat in
  let s1 := snd (getFlowResult root s) in
  let s2 := run evs s1 in
  heap s2 !! length (heap s) = Some (pending rs) ->
  getFlowResult root s = (Slot p, s1) /\
  invocations s1 = invocations s ++ [newInvocation root (length (heap s))] /\
  spawned root s2 = S (spawned root s) /\
  (forall evs1 evs2, evs = evs1 ++ evs2 ->
     getFlowResult root (run evs1 s1) = (Slot p, run evs1 s1)) /\
  (forall evs3 o, heap (run evs3 s2) !! p = Some (settled o) ->
     heap (run evs3 s2) !! length (heap s) = Some (settled o) /\
     forall evs4, heap (run evs4 (run evs3 s2)) !! p = Some (settled o)).
Proof.
  intros Hs Hv Hown p s1 s2 Hp.
  assert (Hs1 : reachable s1) by (apply (reachable_step (Get root) s Hs)).
  assert (E0 : getFlowResult root s = (Slot p, s1)).
  { unfold s1. by rewrite (getFlowResult_miss _ _ Hv Hown). }
  assert (E1 : invocations s1 = invocations s ++ [newInvocation root (length (heap s))]).
  { unfold s1. by rewrite (getFlowResult_miss _ _ Hv Hown). }
  assert (Hc : chains s1 !! length (invocations s) = Some (root, length (heap s))).
  { unfold chains. rewrite E1, fmap_app. apply list_lookup_middle. by rewrite length_fmap. }
  destruct (coalesced s1 _ root _ evs rs Hs1 Hc Hp) as [Hsp Hcache].
  split; [done|]. split; [done|]. split; [|split].
  - fold s2 in Hsp. rewrite Hsp. unfold spawned, chains. rewrite E1, fmap_app, filter_app.
    change (_ <$> [newInvocation root _]) with [(root, length (heap s))].
    rewrite length_app, filter_cons_True by done. cbn. lia.
  - intros evs1 evs2 E. apply getFlowResult_hit. by eapply Hcache.
  - intros evs3 o Ho. split; [|intros evs4; by apply keeps_run].
    set (s3 := run evs3 s2) in *.
    assert (Hs3 : reachable s3) by (by apply reachable_run, reachable_run).
    assert (Hc3 : chains s3 !! length (invocations s) = Some (root, length (heap s))).
    { unfold s3, s2. rewrite <- run_app. clear -Hc.
      revert Hc. generalize s1. induction (evs ++ evs3) as [|e l IH]; intros s0 Hc; [done|].
      rewrite run_cons. apply IH. by apply chains_step_lookup. }
    destruct (chains_has_chain s3 _ _ _ Hc3) as (inv & Hi & HK & Hb).
    destruct (inv_stage s3 (reachable_Inv s3 Hs3) _ inv Hi) as (st & [_ Hst] & _).
    rewrite Hb in Hst. unfold p in Ho.
    destruct st as [|o'|o'|o']; destruct Hst as (H0 & H1 & H2 & _).
    1-3: destruct H2 as [ws H2]; rewrite Ho in H2; discriminate.
    rewrite Ho in H2. by injection H2 as <-.
Qed.

End Stability.

(** ** The theorems at work in the small world *)

Lemma single_flight_witness :
  let evs := [demo_scan 1; Get "/p"; Child 0 (Data "<flow"); demo_scan 2] in
  spawned "/p" (run (H := demo_env) evs (snd (getFlowResult (H := demo_env) "/p" init))) = 1%nat /\
  getFlowResult (H := demo_env) "/p"
    (run (H := demo_env) evs (snd (getFlowResult (H := demo_env) "/p" init))) =
  (Slot 2, run (H := demo_env) evs (snd (getFlowResult (H := demo_env) "/p" init))).
Proof.
  intros evs.
  assert (Hv : vacant init "/p") by (intros p; vm_compute; discriminate).
  assert (Hown : ~ inherited init "/p").
  { intros [_ Hin]. revert Hin. apply (bool_decide_unpack _). vm_compute. exact I. }
  assert (Hp : heap (run (H := demo_env) evs (snd (getFlowResult (H := demo_env) "/p" init)))
                 !! length (heap init) = Some (pending [thenClear "/p" 1]))
    by (vm_compute; reflexivity).
  destruct (single_flight (H := demo_env) init "/p" evs [thenClear "/p" 1]
              (reachable_init (H := demo_env)) Hv Hown Hp) as (_ & _ & Hs & Hsame & _).
  split; [exact Hs|]. apply (Hsame evs []). symmetry. apply app_nil_r.
Defined.

(** C1 at the key [constructor]: the cache of line 90 is a plain
    object, so before any call its lookup at line 92 finds the function
    that every object inherits from [Object.prototype]; that value is
    truthy and is what [getFlowResult] returns.  However many calls are
    made for the key, no invocation is started, the cache is left as it
    was, and a scan of such a project registers nothing: its callback is
    never called (the call of [then] on the function throws). *)
Lemma inherited_key_starts_no_invocation :
  let calls := [Get "constructor"; Get "constructor";
                Scan demo_fs "constructor" "constructor/a.js" (demo_callback 1)] in
  getFlowResult (H := demo_env) "constructor" init = (FromPrototype "constructor", init) /\
  run (H := demo_env) calls init = init /\
  spawned "constructor" (run (H := demo_env) calls init) = 0%nat /\
  callbacks (run (H := demo_env) (calls ++ [Microtask; Microtask; Microtask; Microtask]) init) = [].
Proof.
  intros calls. split; [vm_compute; reflexivity|]. split; [vm_compute; reflexivity|].
  split; vm_compute; reflexivity.
Qed.

Lemma race_has_one_winner_witness :
  let s := run (H := demo_env) [demo_scan 1; TimerFires 0] init in
  heap (step (H := demo_env) (Child 0 (Close 0)) s) = heap s /\
  microtasks (step (H := demo_env) (Child 0 (Close 0)) s) = microtasks s.
Proof.
  intros s.
  assert (Hs : reachable (H := demo_env) s)
    by (apply (reachable_run (H := demo_env)), (reachable_init (H := demo_env))).
  assert (Hi : invocations s !! 0%nat =
               Some {| projectRoot := "/p"; base := 0; resolved := false; timedOut := true;
                       timeoutID := Fired;
                       child := spawnWrapper "/p/node_modules/.bin/flow"
                                  ["--show-all-errors"; "--json"] "/p" |})
    by (vm_compute; reflexivity).
  destruct (race_has_one_winner (H := demo_env) s 0 _ Hs Hi) as (_ & _ & Hlate & _).
  destruct (Hlate eq_refl) as (_ & _ & Hev).
  destruct (Hev (Close 0)) as (Hh & Hq & _). split; [exact Hh|exact Hq].
Defined.

Lemma slot_cleared_witness :
  let s := step (H := demo_env) (demo_scan 1) init in
  _getFlowResults (run (H := demo_env) [TimerFires 0; Microtask; Microtask] s) !! "/p" =
  Some None.
Proof.
  intros s.
  assert (Hs : reachable (H := demo_env) s)
    by (apply (reachable_step (H := demo_env)), (reachable_init (H := demo_env))).
  assert (Hi : invocations s !! 0%nat = Some (newInvocation (H := demo_env) "/p" 0))
    by (vm_compute; reflexivity).
  destruct (slot_cleared_on_settlement (H := demo_env) s Hs) as (_ & _ & Hclear).
  destruct (Hclear 0%nat _ (TimerFires 0) eq_refl Hi eq_refl (or_introl eq_refl))
    as (o & ws & _ & _ & _ & _ & _ & Hc & _).
  exact Hc.
Defined.

(** C3 fails as stated: when the child's error has settled the
    invocation, the key still holds the slot, and a call made then gets
    that slot and starts nothing; the scan that makes it is answered
    with the error of the settled invocation.  The slot goes with the
    second of the two jobs that follow, and the key is then not removed:
    it holds [undefined]. *)
Lemma settled_slot_is_still_cached :
  let err := {| name := "Error"; err_message := "spawn flow ENOENT";
                stack := "Error: spawn flow ENOENT" |} in
  let s := run (H := demo_env) [demo_scan 1; Child 0 (ChildError err)] init in
  heap s !! 0%nat = Some (settled (Rejected err)) /\
  _getFlowResults s !! "/p" = Some (Some 2%nat) /\
  getFlowResult (H := demo_env) "/p" s = (Slot 2, s) /\
  spawned "/p" (step (H := demo_env) (demo_scan 2) s) = 1%nat /\
  callbacks (run (H := demo_env) (demo_scan 2 :: replicate 6 Microtask) s) =
    [(1%nat, (Some err, None)); (2%nat, (Some err, None))] /\
  _getFlowResults (step (H := demo_env) Microtask s) !! "/p" = Some (Some 2%nat) /\
  _getFlowResults (run (H := demo_env) [Microtask; Microtask] s) !! "/p" = Some None /\
  _getFlowResults (run (H := demo_env) [Microtask; Microtask] s) !! "/p" <>
    (None : option (option nat)).
Proof.
  intros err s. repeat split; try (vm_compute; reflexivity). vm_compute. discriminate.
Qed.

(** The three ways an asynchronous scan ends, run from the first call
    to the callback. *)
Example scan_then_success :
  callbacks (run (H := demo_env)
               [demo_scan 1; Child 0 (Data "<flow "); Child 0 (Data "output>");
                Child 0 (Close 0); Microtask; Microtask; Microtask; Microtask] init) =
  [(1%nat, (None, Some {| CodeInspectionReport.errors :=
                           [{| CodeInspectionResult.type := "problem_type_error";
                               CodeInspectionResult.message := "number";
                               CodeInspectionResult.pos :=
                                 {| Pos.line := 4; Pos.ch := 2 |} |}] |}))].
Proof. vm_compute. reflexivity. Qed.

Example scan_then_timeout :
  callbacks (run (H := demo_env)
               [demo_scan 1; TimerFires 0; Child 0 (Close 0);
                Microtask; Microtask; Microtask; Microtask] init) =
  [(1%nat, (None, Some timeoutReport))].
Proof. vm_compute. reflexivity. Qed.

Example scan_then_parse_error :
  callbacks (run (H := demo_env)
               [demo_scan 1; Child 0 (Data "Segmentation fault"); Child 0 (Close 139);
                Microtask; Microtask; Microtask; Microtask] init) =
  [(1%nat, (Some Posix.syntaxError, None))].
Proof. vm_compute. reflexivity. Qed.

(** ** Every scan is answered once *)

Section Counting.
Context `{NodeEnv}.

Lemma sum_insert {A} (f : A -> nat) (l : list A) i x y :
  l !! i = Some x ->
  (sum_list_with f (<[i := y]> l) + f x = sum_list_with f l + f y)%nat.
Proof.
  revert i. induction l as [|a l IH]; intros [|i] Hi; try done; simpl in *.
  - injection Hi as ->. lia.
  - specialize (IH i Hi). lia.
Qed.

Lemma sum_map {A B} (f : B -> nat) (g : A -> B) (l : list A) :
  sum_list_with f (map g l) = sum_list_with (fun a => f (g a)) l.
Proof. induction l as [|a l IH]; cbn; [done|]. by rewrite IH. Qed.

Lemma sum_zero {A} (f : A -> nat) (l : list A) :
  (forall x, x ∈ l -> f x = 0%nat) -> sum_list_with f l = 0%nat.
Proof.
  induction l as [|a l IH]; intros Hz; cbn; [done|].
  rewrite Hz by (by left). rewrite IH; [done|]. intros x Hx. apply Hz. by right.
Qed.

Lemma sum_ext {A} (f g : A -> nat) (l : list A) :
  (forall x, x ∈ l -> f x = g x) -> sum_list_with f l = sum_list_with g l.
Proof.
  induction l as [|a l IH]; intros Hz; cbn; [done|].
  rewrite Hz by (by left). rewrite IH; [done|]. intros x Hx. apply Hz. by right.
Qed.

Lemma hsum_app w h1 h2 : hsum w (h1 ++ h2) = (hsum w h1 + hsum w h2)%nat.
Proof. apply sum_list_with_app. Qed.

Lemma hsum_insert w h p pr pr' :
  h !! p = Some pr ->
  (hsum w (<[p := pr']> h) + sum_list_with w (reactions pr) =
   hsum w h + sum_list_with w (reactions pr'))%nat.
Proof.
  intros Hp. unfold hsum.
  exact (sum_insert (fun pr => sum_list_with w (reactions pr)) h p pr pr' Hp).
Qed.

Lemma hsum_in w h p pr r :
  h !! p = Some pr -> r ∈ reactions pr -> (w r <= hsum w h)%nat.
Proof.
  intros Hp Hr. unfold hsum.
  pose proof (sum_list_with_in pr (fun pr => sum_list_with w (reactions pr)) h
                (list_elem_of_lookup_2 _ _ _ Hp)) as H1.
  pose proof (sum_list_with_in r w (reactions pr) Hr) as H2. cbn in H1. lia.
Qed.

(** How the weight moves with the operations on promises. *)
Lemma weight_settle wq w p o s rs :
  heap s !! p = Some (pending rs) ->
  (weight wq w (settle p o s) + sum_list_with w rs =
   weight wq w s + sum_list_with (fun r => wq (r, o)) rs)%nat.
Proof.
  intros Hp. rewrite (settle_pending _ _ _ _ Hp). unfold weight. cbn.
  rewrite sum_list_with_app, sum_map.
  pose proof (hsum_insert w (heap s) p _ (settled o) Hp) as Hh. cbn in Hh.
  unfold hsum in *. lia.
Qed.

Lemma weight_settle_idle wq w p o s :
  (forall rs, heap s !! p <> Some (pending rs)) -> weight wq w (settle p o s) = weight wq w s.
Proof.
  intros Hp. unfold settle. destruct (heap s !! p) as [[[|o'] rs]|] eqn:E; try done.
  by destruct (Hp rs).
Qed.

Lemma weight_then wq w p onF onR s rs :
  heap s !! p = Some (pending rs) ->
  weight wq w (snd (then_ p onF onR s)) =
  (weight wq w s + w {| on_fulfilled := onF; on_rejected := onR;
                        target := length (heap s) |})%nat.
Proof.
  intros Hp. rewrite (then_pending _ _ _ _ _ Hp). unfold weight, hsum. cbn.
  rewrite sum_list_with_app. cbn.
  pose proof (sum_insert (fun pr => sum_list_with w (reactions pr)) (heap s) p _
                (pending (rs ++ [{| on_fulfilled := onF; on_rejected := onR;
                                    target := length (heap s) |}])) Hp) as Hh.
  cbn in Hh. rewrite sum_list_with_app in Hh. cbn in Hh. lia.
Qed.

Lemma weight_getFlowResult_miss wq w root s :
  vacant s root -> ~ inherited s root ->
  weight wq w (snd (getFlowResult root s)) =
  (weight wq w s + w (thenClear root (length (heap s) + 1))
                 + w (catchClear root (length (heap s) + 2)))%nat.
Proof.
  intros Hv Hown. rewrite (getFlowResult_miss _ _ Hv Hown). unfold weight, hsum. cbn.
  rewrite sum_list_with_app. cbn. lia.
Qed.

Lemma weight_pop wq w s job rest :
  microtasks s = job :: rest ->
  (weight wq w (set_microtasks rest s) + wq job = weight wq w s)%nat.
Proof. intros E. unfold weight, hsum. rewrite E. cbn. lia. Qed.

Lemma weight_same wq w s s' :
  heap s' = heap s -> microtasks s' = microtasks s -> weight wq w s' = weight wq w s.
Proof. intros Eh Eq. unfold weight. by rewrite Eh, Eq. Qed.

Lemma refs_fresh s t : Inv s -> (length (heap s) <= t)%nat -> refs t s = 0%nat.
Proof.
  intros HI Ht. unfold refs, weight.
  rewrite (sum_zero _ (microtasks s)).
  2:{ intros [r o] Hin. destruct (inv_queue s HI r o Hin) as [_ Hlt].
      unfold hits. cbn. rewrite decide_False; [done|lia]. }
  unfold hsum. rewrite (sum_zero _ (heap s)); [done|].
  intros pr Hpr. apply list_elem_of_lookup in Hpr as [p Hp].
  apply sum_zero. intros r Hr. destruct (inv_heap s HI p pr r Hp Hr) as (_ & Hlt & _).
  unfold hits. rewrite decide_False; [done|lia].
Qed.

Lemma refs_occurs s r : occurs s r -> (1 <= refs (target r) s)%nat.
Proof.
  unfold refs, weight. intros [[o Hin]|(p & pr & Hp & Hr)].
  - pose proof (sum_list_with_in (r, o) (fun job => hits (target r) (fst job)) _ Hin) as Hle.
    unfold hits in Hle at 1. cbn in Hle. rewrite decide_True in Hle by done. lia.
  - pose proof (hsum_in (hits (target r)) (heap s) p pr r Hp Hr) as Hle.
    unfold hits in Hle at 1. rewrite decide_True in Hle by done. lia.
Qed.


(** The shape of a job: the handler touches the cache or calls the
    callback, then the derived promise is settled. *)
Lemma run_job_form r o s :
  exists o' calls s0,
    run_job (r, o) s = settle (target r) o' s0 /\
    heap s0 = heap s /\ microtasks s0 = microtasks s /\ invocations s0 = invocations s /\
    callbacks s0 = callbacks s ++ calls /\ handled r o o' calls.
Proof.
  unfold run_job, handled. destruct o as [v|err].
  - destruct (on_fulfilled r) as [[K|fullPath callback]|].
    + cbn. eexists _, [], _. split; [done|]. cbn. by rewrite app_nil_r.
    + cbn. destruct v as [|res].
      * eexists _, [], s. rewrite app_nil_r. done.
      * unfold call_callback. destruct (cb_throws _ _ _); eexists _, _, _; (split; [done|]); done.
    + eexists _, [], s. rewrite app_nil_r. done.
  - destruct (on_rejected r) as [[K|callback]|].
    + cbn. eexists _, [], _. split; [done|]. cbn. by rewrite app_nil_r.
    + cbn. unfold call_callback.
      destruct (decide _); destruct (cb_throws _ _ _);
        eexists _, _, _; (split; [done|]); cbn; eauto 10.
    + eexists _, [], s. rewrite app_nil_r. done.
Qed.

(** A timer or child event either leaves promises, queue and callbacks
    alone or settles a waiting invocation. *)
Lemma quiet_or_settles s e :
  Inv s ->
  match e with TimerFires _ | Child _ _ => True | _ => False end ->
  (heap (step e s) = heap s /\ microtasks (step e s) = microtasks s /\
   callbacks (step e s) = callbacks s) \/
  (exists i inv, invocations s !! i = Some inv /\
     resolved inv || timedOut inv = false /\ settles i inv e).
Proof.
  intros HI He. destruct e as [| |i|i ev|]; try done.
  - destruct (invocations s !! i) as [inv|] eqn:Hi; [|left; cbn [step]; by rewrite Hi].
    destruct (timeoutID inv) as [delay| |] eqn:Hid.
    + right. exists i, inv. split; [done|]. split; [|by left].
      by destruct (armed_waiting s i inv delay HI Hi Hid) as [(-> & -> & _) _].
    + left. cbn [step]. rewrite Hi. destruct inv; cbn in Hid; by subst.
    + left. cbn [step]. rewrite Hi. destruct inv; cbn in Hid; by subst.
  - destruct (invocations s !! i) as [inv|] eqn:Hi; [|left; cbn [step]; by rewrite Hi].
    destruct (resolved inv || timedOut inv) eqn:Hflags.
    { left. destruct (child_event_discarded s i inv ev Hi Hflags) as (? & ? & _ & ?). done. }
    destruct ev as [data|code|err].
    + left. cbn [step]. rewrite Hi. cbn [emit]. unfold update_invocation. by rewrite Hi.
    + destruct (once_close (child inv)) eqn:Hc.
      * right. exists i, inv. split; [done|]. split; [done|]. right; left. eauto.
      * left. cbn [step]. rewrite Hi. cbn [emit]. rewrite Hc.
        unfold update_invocation. by rewrite Hi.
    + destruct (once_error (child inv)) eqn:Hc.
      * right. exists i, inv. split; [done|]. split; [done|]. right; right. eauto.
      * left. cbn [step]. rewrite Hi. cbn [emit]. rewrite Hc.
        unfold update_invocation. by rewrite Hi.
Qed.

Lemma weight_announce wq w s s' b o r1 :
  heap s !! b = Some (pending [r1]) ->
  heap s' = <[b := settled o]> (heap s) ->
  microtasks s' = microtasks s ++ [(r1, o)] ->
  (weight wq w s' + w r1 = weight wq w s + wq (r1, o))%nat.
Proof.
  intros Hb Eh Eq. unfold weight, hsum. rewrite Eh, Eq, sum_list_with_app. cbn.
  pose proof (sum_insert (fun pr => sum_list_with w (reactions pr)) (heap s) b _
                (settled o) Hb) as Hh. cbn in Hh. lia.
Qed.

Lemma Uniq_then p onF onR s rs :
  Inv s -> Uniq s -> heap s !! p = Some (pending rs) -> Uniq (snd (then_ p onF onR s)).
Proof.
  intros HI HU Hp t. unfold refs. rewrite (weight_then _ _ _ _ _ _ _ Hp).
  fold (refs t s). unfold hits at 1. cbn. destruct (decide (length (heap s) = t)) as [<-|Hne].
  - rewrite (refs_fresh s) by done. lia.
  - specialize (HU t). lia.
Qed.

Lemma Uniq_getFlowResult root s : Inv s -> Uniq s -> Uniq (snd (getFlowResult root s)).
Proof.
  intros HI HU t. destruct (lookup_cases root s) as [[Hv Hown]|[[p Hp]|Hin]].
  - unfold refs. rewrite (weight_getFlowResult_miss _ _ _ _ Hv Hown). fold (refs t s).
    unfold hits at 1 2. cbn.
    destruct (decide (length (heap s) <= t)%nat) as [Hge|Hlt].
    + rewrite (refs_fresh s) by done. repeat case_decide; lia.
    + specialize (HU t). repeat case_decide; lia.
  - by rewrite (getFlowResult_hit _ _ _ Hp).
  - by rewrite (getFlowResult_inherited _ _ Hin).
Qed.

Lemma Uniq_step e s : Inv s -> Uniq s -> Uniq (step e s).
Proof.
  intros HI HU.
  assert (Hquiet : forall s', heap s' = heap s -> microtasks s' = microtasks s -> Uniq s').
  { intros s' Eh Eq t. unfold refs. rewrite (weight_same _ _ s s') by done. apply HU. }
  assert (Htimer : match e with TimerFires _ | Child _ _ => True | _ => False end ->
                   Uniq (step e s)).
  { intros He. destruct (quiet_or_settles s e HI He) as [(Eh & Eq & _)|(i & inv & Hi & Hf & Hs)].
    - by apply Hquiet.
    - destruct (settles_step s i inv e HI Hi Hf Hs) as (o & inv' & Eh & Eq & _).
      destruct (flags_down_waiting s i inv HI Hi Hf) as [_ (H0 & _)].
      intros t. pose proof (weight_announce (fun job => hits t (fst job)) (hits t)
                              s (step e s) _ o _ H0 Eh Eq) as Hw.
      cbn [fst] in Hw. specialize (HU t). unfold refs in *. lia. }
  destruct e as [fs root fullPath callback|root|i|i ev|]; try (by apply Htimer).
  - cbn [step]. unfold scanFileWithFlow.
    destruct (negb _); [rewrite call_callback_state; by apply Hquiet|].
    destruct (negb _); [rewrite call_callback_state; by apply Hquiet|].
    destruct (getFlowResult_slot root s HI) as [HI1 Hslot].
    pose proof (Uniq_getFlowResult root s HI HU) as HU1.
    destruct (getFlowResult root s) as [[p|key] s1]; cbn [fst snd] in *; [|done].
    destruct (slot_open s1 root p HI1 Hslot) as [[ws Hp] Hopen].
    pose proof (Inv_then p (Some (ThenReport fullPath callback)) None s1 ws HI1 Hp Hopen
                  ltac:(done) ltac:(done)) as HI2.
    pose proof (Uniq_then p (Some (ThenReport fullPath callback)) None s1 ws HI1 HU1 Hp) as HU2.
    destruct (then_fresh p (Some (ThenReport fullPath callback)) None s1 ws Hp) as (E4 & Hp4 & _).
    destruct (then_ p _ None s1) as [p4 s2]. cbn [fst snd] in *. subst p4.
    pose proof (Uniq_then (length (heap s1)) None (Some (CatchReport callback)) s2 [] HI2 HU2 Hp4)
      as HU3.
    by destruct (then_ (length (heap s1)) None _ s2) as [p5 s3].
  - cbn [step]. by apply Uniq_getFlowResult.
  - cbn [step]. destruct (microtasks s) as [|[r o] rest] eqn:Eq; [done|].
    destruct (run_job_form r o (set_microtasks rest s)) as (o' & calls & s0 & -> & Eh & Eq0 & _).
    intros t.
    assert (Hs0 : (refs t s0 + hits t r = refs t s)%nat).
    { unfold refs. rewrite (weight_same _ _ (set_microtasks rest s) s0) by done.
      exact (weight_pop (fun job => hits t (fst job)) (hits t) s (r, o) rest Eq). }
    specialize (HU t).
    destruct (heap s0 !! target r) as [[[|o''] rs]|] eqn:E.
    + pose proof (weight_settle (fun job => hits t (fst job)) (hits t) _ o' s0 rs E) as Hw.
      change (sum_list_with _ rs) with (sum_list_with (hits t) rs) in Hw at 2.
      unfold refs in *. lia.
    + unfold refs in *. rewrite weight_settle_idle; [lia|]. intros rs'. by rewrite E.
    + unfold refs in *. rewrite weight_settle_idle; [lia|]. intros rs'. by rewrite E.
Qed.

Lemma Uniq_init : Uniq init.
Proof. intros t. vm_compute. lia. Qed.

End Counting.

Section Pairing.
Context `{NodeEnv}.

Lemma chains_quiet e s :
  match e with TimerFires _ | Child _ _ => True | _ => False end ->
  chains (step e s) = chains s.
Proof.
  destruct e as [| |i|i ev|]; try done; intros _; cbn [step].
  - destruct (invocations s !! i) as [[K b r t [delay| |] c]|]; try done.
    rewrite chains_onTimeout, chains_update_invocation; done.
  - destruct (invocations s !! i) as [inv|]; [|done].
    destruct ev as [data|code|err]; cbn [emit].
    + by rewrite chains_update_invocation.
    + destruct (once_close (child inv)); rewrite chains_update_invocation; try done.
      by rewrite chains_onSpawnDone.
    + destruct (once_error (child inv)); rewrite chains_update_invocation; try done.
      by rewrite chains_onSpawnDone.
Qed.

Lemma occurs_scanlike s r :
  Inv s -> occurs s r -> scanlike r ->
  (target r < length (heap s))%nat /\
  forall K b, has_chain s K b ->
    target r <> b /\ target r <> (b + 1)%nat /\ target r <> (b + 2)%nat.
Proof.
  intros HI Hocc [HF HR].
  assert (Ht : rtype s r /\ (target r < length (heap s))%nat).
  { destruct Hocc as [[o Hin]|(p & pr & Hp & Hr)].
    - by apply (inv_queue s HI r o).
    - destruct (inv_heap s HI p pr r Hp Hr) as (? & ? & _). done. }
  destruct Ht as [[(K & b & _ & ->)|[(K & b & _ & ->)|[_ Hfar]]] Hlt].
  - by destruct (HF K).
  - by destruct (HR K).
  - done.
Qed.

Lemma Ledger_transfer s s' :
  Ledger s ->
  chains s' = chains s ->
  (forall r, queued s' r -> occurs s r) ->
  (forall p r, sits s' p r -> sits s p r) ->
  (forall r x, occurs s r -> occurs s' r -> scanlike r ->
     heap s !! target r = Some x -> heap s' !! target r = Some x) ->
  Ledger s'.
Proof.
  intros HL Ec Hq Hs Hk'.
  assert (Hocc : forall r, occurs s' r -> occurs s r).
  { intros r [Hr|[p Hr]]; [by apply Hq|]. right. exists p. by apply Hs. }
  assert (Hk : forall r x, occurs s' r -> scanlike r ->
     heap s !! target r = Some x -> heap s' !! target r = Some x).
  { intros r x Hr. apply Hk'; [by apply Hocc|done]. }
  split.
  - intros r Hr' Hsl. pose proof (led_paired s HL r (Hocc r Hr') Hsl) as Hp.
    unfold paired in *.
    destruct (on_fulfilled r) as [[K|fullPath callback]|];
      destruct (on_rejected r) as [[K'|callback']|]; try done.
    + destruct Hp as [Hpol [t Ht]]. split; [done|]. exists t. by apply Hk.
    + by apply Hk.
  - intros p r Hr' Hsl. pose proof (led_placed s HL p r (Hs p r Hr') Hsl) as Hp.
    unfold placed in *. destruct (on_fulfilled r).
    + destruct Hp as (K & b & Hc & ->). exists K, b. split; [|done].
      by apply (has_chain_same s' s).
    + intros K b Hc. apply (Hp K b). by apply (has_chain_same s s').
Qed.

Lemma Ledger_init : Ledger init.
Proof.
  split.
  - intros r [[o Hin]|(p & pr & Hp & _)] _; [by apply elem_of_nil in Hin|done].
  - intros p r (pr & Hp & _) _. done.
Qed.

Lemma Ledger_getFlowResult root s :
  Inv s -> Ledger s -> Ledger (snd (getFlowResult root s)).
Proof.
  intros HI HL. destruct (lookup_cases root s) as [[Hv Hown]|[[p Hp]|Hin]];
    [|by rewrite (getFlowResult_hit _ _ _ Hp)|by rewrite (getFlowResult_inherited _ _ Hin)].
  pose proof (Inv_getFlowResult_miss root s HI Hv Hown) as HI'.
  revert HI'. rewrite (getFlowResult_miss _ _ Hv Hown). cbn [snd].
  set (s' := {| _getFlowResults := _ |}). intros HI'.
  assert (Hsits : forall p r, sits s' p r -> scanlike r -> sits s p r).
  { intros p r (pr & Hp & Hr) [HF HR]. cbn in Hp.
    apply lookup_app_Some in Hp as [Hp|[Hge Hp]]; [by exists pr|].
    destruct (p - length (heap s))%nat as [|[|[|k]]]; cbn in Hp; simplify_eq; cbn in Hr.
    - apply list_elem_of_singleton in Hr as ->. by destruct (HF root).
    - apply list_elem_of_singleton in Hr as ->. by destruct (HR root).
    - by apply elem_of_nil in Hr. }
  assert (Hocc : forall r, occurs s' r -> scanlike r -> occurs s r).
  { intros r [Hr|[p Hr]] Hsl; [by left|]. right. exists p. by apply Hsits. }
  split.
  - intros r Hr' Hsl. pose proof (led_paired s HL r (Hocc r Hr' Hsl) Hsl) as Hp.
    unfold paired in *.
    destruct (on_fulfilled r) as [[K|fullPath callback]|];
      destruct (on_rejected r) as [[K'|callback']|]; try done.
    + destruct Hp as [Hpol [t Ht]]. split; [done|]. exists t. cbn.
      by apply lookup_app_l_Some.
    + cbn. by apply lookup_app_l_Some.
  - intros p r Hr' Hsl. pose proof (Hsits p r Hr' Hsl) as Hr.
    pose proof (led_placed s HL p r Hr Hsl) as Hp.
    unfold placed in *. destruct (on_fulfilled r).
    + destruct Hp as (K & b & Hc & ->). exists K, b. split; [|done].
      by apply (has_chain_snoc_old s s' (newInvocation root (length (heap s)))).
    + intros K b Hc.
      destruct (has_chain_snoc_inv s s' (newInvocation root (length (heap s))) K b
                  ltac:(done) Hc) as [Hold|[_ Hb]]; [by apply (Hp K b)|].
      cbn in Hb. destruct Hr as (pr & Hpr & _). apply lookup_lt_Some in Hpr. lia.
Qed.

(** The two registrations of a scan, taken together. *)
Lemma scan_waiters p fullPath callback s ws :
  heap s !! p = Some (pending ws) ->
  let n := length (heap s) in
  let first := then_ p (Some (ThenReport fullPath callback)) None s in
  snd (then_ (fst first) None (Some (CatchReport callback)) (snd first)) =
  set_heap (<[p := pending (ws ++ [thenReport fullPath callback n])]> (heap s)
            ++ [pending [catchReport callback (n + 1)]; pending []]) s.
Proof.
  intros Hp n first. subst first. rewrite (then_pending _ _ _ _ _ Hp). cbn [fst snd].
  fold n. fold (thenReport fullPath callback n).
  set (h1 := <[p := pending (ws ++ [thenReport fullPath callback n])]> (heap s)).
  assert (Hlen : length h1 = n) by apply length_insert.
  rewrite (then_pending n None _ _ []).
  2:{ cbn. rewrite <- Hlen. by apply list_lookup_middle. }
  cbn. rewrite length_app, Hlen. cbn [length].
  fold (catchReport callback (n + 1)).
  rewrite (insert_app_r_alt h1 _ n) by lia. rewrite Hlen, Nat.sub_diag. cbn.
  by rewrite <- app_assoc.
Qed.

Lemma Ledger_waiters p fullPath callback s ws K b :
  Inv s -> Ledger s -> polite callback ->
  heap s !! p = Some (pending ws) -> has_chain s K b -> p = (b + 2)%nat ->
  let n := length (heap s) in
  Ledger (set_heap (<[p := pending (ws ++ [thenReport fullPath callback n])]> (heap s)
                    ++ [pending [catchReport callback (n + 1)]; pending []]) s).
Proof.
  intros HI HL Hpol Hp Hc Epb n. set (s' := set_heap _ s).
  set (r4 := thenReport fullPath callback n). set (r5 := catchReport callback (n + 1)).
  pose proof (lookup_lt_Some _ _ _ Hp) as Hpn. fold n in Hpn.
  assert (Hold : forall t, t <> p -> (t < n)%nat -> heap s' !! t = heap s !! t).
  { intros t Htp Htn. cbn. rewrite lookup_app_l by (rewrite length_insert; done).
    by apply list_lookup_insert_ne. }
  assert (Hsits : forall q r, sits s' q r -> sits s q r \/ (q = p /\ r = r4) \/ (q = n /\ r = r5)).
  { intros q r (pr & Hq & Hr). cbn in Hq.
    apply lookup_app_Some in Hq as [Hq|[Hge Hq]].
    - destruct (decide (q = p)) as [->|Hne].
      + rewrite list_lookup_insert_eq in Hq by done. simplify_eq. cbn in Hr.
        apply elem_of_app in Hr as [Hr|Hr].
        * left. by exists (pending ws).
        * apply list_elem_of_singleton in Hr. right; left. done.
      + rewrite list_lookup_insert_ne in Hq by done. left. by exists pr.
    - rewrite length_insert in Hge, Hq. fold n in Hge, Hq.
      destruct (q - n)%nat as [|[|k]] eqn:E; cbn in Hq; simplify_eq; cbn in Hr.
      + apply list_elem_of_singleton in Hr. right; right. split; [lia|done].
      + by apply elem_of_nil in Hr. }
  assert (Hfar : forall r, occurs s r -> scanlike r -> heap s' !! target r = heap s !! target r).
  { intros r Hr Hsl. destruct (occurs_scanlike s r HI Hr Hsl) as [Hlt Hfar].
    destruct (Hfar K b Hc) as (_ & _ & Hne). apply Hold; [lia|done]. }
  assert (Hkeep : forall r, occurs s r -> scanlike r -> paired s' r).
  { intros r Hr Hsl. pose proof (led_paired s HL r Hr Hsl) as Hpr.
    unfold paired in *. rewrite (Hfar r Hr Hsl). exact Hpr. }
  assert (H4 : paired s' r4).
  { split; [done|]. exists (n + 1)%nat. cbn.
    rewrite lookup_app_r by (rewrite length_insert; done).
    rewrite length_insert. fold n. by rewrite Nat.sub_diag. }
  assert (H5 : paired s' r5).
  { unfold paired. cbn.
    rewrite lookup_app_r by (rewrite length_insert; fold n; lia).
    rewrite length_insert. fold n. by replace (n + 1 - n)%nat with 1%nat by lia. }
  split.
  - intros r [Hr|[q Hr]] Hsl.
    + apply Hkeep; [by left|done].
    + destruct (Hsits q r Hr) as [Hr0|[[_ ->]|[_ ->]]]; [|done|done].
      apply Hkeep; [|done]. right. by exists q.
  - intros q r Hr Hsl. destruct (Hsits q r Hr) as [Hr0|[[-> ->]|[-> ->]]].
    + exact (led_placed s HL q r Hr0 Hsl).
    + exists K, b. done.
    + intros K' b' Hc'. pose proof (inv_alloc s HI K' b' Hc') as Hlt. fold n in Hlt. lia.
Qed.

Lemma Ledger_announce s s' K b o :
  Inv s -> Ledger s -> has_chain s K b ->
  heap s !! b = Some (pending [thenClear K (b + 1)]) ->
  heap s' = <[b := settled o]> (heap s) ->
  microtasks s' = microtasks s ++ [(thenClear K (b + 1), o)] ->
  chains s' = chains s ->
  Ledger s'.
Proof.
  intros HI HL Hc Hb Eh Eq Ec. apply (Ledger_transfer s s' HL Ec).
  - intros r [o' Hin]. rewrite Eq in Hin. apply elem_of_app in Hin as [Hin|Hin].
    + left. by exists o'.
    + apply list_elem_of_singleton in Hin. simplify_eq. right. exists b, (pending [thenClear K (b + 1)]).
      split; [done|]. by apply list_elem_of_singleton.
  - intros p r (pr & Hp & Hr). rewrite Eh in Hp. destruct (decide (p = b)) as [->|Hne].
    + rewrite list_lookup_insert_eq in Hp by (by apply lookup_lt_Some in Hb).
      simplify_eq. by apply elem_of_nil in Hr.
    + rewrite list_lookup_insert_ne in Hp by done. by exists pr.
  - intros r x Hr _ Hsl Hx. destruct (occurs_scanlike s r HI Hr Hsl) as [_ Hfar].
    destruct (Hfar K b Hc) as (Hne & _). rewrite Eh. by rewrite list_lookup_insert_ne.
Qed.

Lemma settle_sits t o s q r : sits (settle t o s) q r -> sits s q r.
Proof.
  unfold settle. destruct (heap s !! t) as [[[|o'] rs]|] eqn:E; try done.
  intros (pr & Hq & Hr). cbn in Hq. destruct (decide (q = t)) as [->|Hne].
  - rewrite list_lookup_insert_eq in Hq by (by apply lookup_lt_Some in E).
    simplify_eq. by apply elem_of_nil in Hr.
  - rewrite list_lookup_insert_ne in Hq by done. by exists pr.
Qed.

Lemma settle_queued t o s r : queued (settle t o s) r -> occurs s r.
Proof.
  unfold settle. destruct (heap s !! t) as [[[|o'] rs]|] eqn:E; try (by left).
  intros [o1 Hin]. cbn in Hin. apply elem_of_app in Hin as [Hin|Hin].
  - left. by exists o1.
  - apply list_elem_of_fmap in Hin as (r' & Er & Hin). simplify_eq.
    right. exists t, {| pstatus := Pending; reactions := rs |}. done.
Qed.

Lemma settle_lookup t o s q : q <> t -> heap (settle t o s) !! q = heap s !! q.
Proof.
  intros Hne. unfold settle. destruct (heap s !! t) as [[[|o'] rs]|] eqn:E; try done.
  cbn. by apply list_lookup_insert_ne.
Qed.

Lemma Ledger_microtask s r o rest :
  Inv s -> Uniq s -> Ledger s -> microtasks s = (r, o) :: rest ->
  Ledger (step Microtask s).
Proof.
  intros HI HU HL Eq. rewrite (step_microtask s _ _ Eq).
  pose proof (chains_run_job (r, o) (set_microtasks rest s)) as Ec.
  destruct (run_job_form r o (set_microtasks rest s))
    as (o' & calls & s0 & E & Eh & Eq0 & Ei & _).
  rewrite E in *. clear E. cbn in Eh, Eq0, Ei.
  assert (Hsits : forall q r', sits s0 q r' -> sits s q r').
  { intros q r' (pr & Hq & Hr). rewrite Eh in Hq. by exists pr. }
  assert (Hocc : forall r', occurs s0 r' -> occurs s r').
  { intros r' [[o1 Hin]|[q Hr]].
    - left. exists o1. rewrite Eq0 in Hin. rewrite Eq. by apply list_elem_of_further.
    - right. exists q. by apply Hsits. }
  assert (Hzero : refs (target r) s0 = 0%nat).
  { pose proof (weight_pop (fun job => hits (target r) (fst job)) (hits (target r))
                  s (r, o) rest Eq) as Hw.
    assert (Hh : hits (target r) r = 1%nat) by (unfold hits; by rewrite decide_True).
    cbn beta in Hw. cbn [fst] in Hw. rewrite Hh in Hw.
    specialize (HU (target r)). unfold refs in *.
    rewrite (weight_same _ _ (set_microtasks rest s) s0) by done. lia. }
  apply (Ledger_transfer s _ HL Ec).
  - intros r' Hr. apply Hocc. by apply (settle_queued (target r) o').
  - intros q r' Hr. apply Hsits. by apply (settle_sits (target r) o').
  - intros r' x _ Hr' _ Hx.
    assert (Hr0 : occurs s0 r').
    { destruct Hr' as [Hr'|[q Hr']].
      - by apply (settle_queued (target r) o').
      - right. exists q. by apply (settle_sits (target r) o'). }
    apply refs_occurs in Hr0.
    rewrite settle_lookup; [by rewrite Eh|]. intros Et. rewrite Et in Hr0. lia.
Qed.

Lemma Ledger_step e s :
  Inv s -> Uniq s -> Ledger s -> politeEvent e -> Ledger (step e s).
Proof.
  intros HI HU HL Hpol.
  assert (Hquiet : forall s', heap s' = heap s -> microtasks s' = microtasks s ->
                              chains s' = chains s -> Ledger s').
  { intros s' Eh Eq Ec. apply (Ledger_transfer s s' HL Ec).
    - intros r [o Hin]. left. exists o. by rewrite <- Eq.
    - intros p r (pr & Hp & Hr). exists pr. by rewrite <- Eh.
    - intros r x _ _ _ Hx. by rewrite Eh. }
  assert (Htimer : match e with TimerFires _ | Child _ _ => True | _ => False end ->
                   Ledger (step e s)).
  { intros He. destruct (quiet_or_settles s e HI He) as [(Eh & Eq & _)|(i & inv & Hi & Hf & Hs)].
    - apply Hquiet; [done|done|]. by apply chains_quiet.
    - destruct (settles_step s i inv e HI Hi Hf Hs)
        as (o & inv' & Eh & Eq & _ & _ & Ei & EK & Eb & _).
      destruct (flags_down_waiting s i inv HI Hi Hf) as [_ (H0 & _)].
      apply (Ledger_announce s _ (projectRoot inv) (base inv) o HI HL); try done.
      + by exists i, inv.
      + by apply (chains_update s _ i inv inv'). }
  destruct e as [fs root fullPath callback|root|i|i ev|]; try (by apply Htimer).
  - cbn [step]. unfold scanFileWithFlow.
    destruct (negb _); [rewrite call_callback_state; by apply Hquiet|].
    destruct (negb _); [rewrite call_callback_state; by apply Hquiet|].
    destruct (getFlowResult_slot root s HI) as [HI1 Hslot].
    pose proof (Ledger_getFlowResult root s HI HL) as HL1.
    destruct (getFlowResult root s) as [[p|key] s1]; cbn [fst snd] in *; [|done].
    destruct (slot_open s1 root p HI1 Hslot) as [[ws Hp] Hopen].
    destruct (inv_cache s1 HI1 root p Hslot) as (i & inv & st & Hi & HK & Hpb & _).
    pose proof (scan_waiters p fullPath callback s1 ws Hp) as Eform. cbn zeta in Eform.
    destruct (then_ p _ None s1) as [p4 s2]. cbn [fst snd] in *.
    destruct (then_ p4 None _ s2) as [p5 s3]. cbn [snd] in Eform.
    cbn [snd]. rewrite Eform.
    apply (Ledger_waiters p fullPath callback s1 ws root (base inv)); try done.
    by exists i, inv.
  - cbn [step]. by apply Ledger_getFlowResult.
  - destruct (microtasks s) as [|[r o] rest] eqn:Eq.
    + cbn [step]. by rewrite Eq.
    + by apply (Ledger_microtask s r o rest).
Qed.

End Pairing.

Section Balance.
Context `{NodeEnv}.

Lemma paid_app c s s' calls :
  callbacks s' = callbacks s ++ calls -> paid c s' = (paid c s + callsOf c calls)%nat.
Proof. intros E. unfold paid, callsOf. by rewrite E, sum_list_with_app. Qed.

Lemma paid_same c s s' : callbacks s' = callbacks s -> paid c s' = paid c s.
Proof. intros E. unfold paid. by rewrite E. Qed.

Lemma owedByJob_sum c o rs :
  sum_list_with (fun r => owedByJob c (r, o)) rs =
  (sum_list_with (owedBy c) rs + if isRejected o then sum_list_with (catchW c) rs else 0)%nat.
Proof.
  induction rs as [|r rs IH]; cbn.
  - by destruct (isRejected o).
  - rewrite IH. unfold owedByJob. cbn. destruct (isRejected o); lia.
Qed.

Lemma owed_settle c t o s : owed c (settle t o s) = (owed c s + due c o s t)%nat.
Proof.
  unfold owed, due. destruct (heap s !! t) as [[[|o'] rs]|] eqn:E.
  - pose proof (weight_settle (owedByJob c) (owedBy c) t o s rs E) as Hw.
    rewrite owedByJob_sum in Hw. lia.
  - rewrite weight_settle_idle; [lia|]. intros rs'. by rewrite E.
  - rewrite weight_settle_idle; [lia|]. intros rs'. by rewrite E.
Qed.

Lemma callbacks_settle t o s : callbacks (settle t o s) = callbacks s.
Proof. unfold settle. by destruct (heap s !! t) as [[[|o'] rs]|]. Qed.

(** What waits on the second and on the third promise of a chain never
    reports to a callback on rejection. *)
Lemma due_relay c o s K b :
  Inv s -> has_chain s K b -> due c o s (b + 1) = 0%nat.
Proof.
  intros HI (i & inv & Hi & <- & <-). destruct (inv_stage s HI i inv Hi) as (st & [_ Hp] & _).
  unfold due. destruct st as [|o1|o1|o1]; destruct Hp as (_ & -> & _); cbn;
    by destruct (isRejected o).
Qed.

Lemma due_slot c o s K b :
  Inv s -> Ledger s -> has_chain s K b -> due c o s (b + 2) = 0%nat.
Proof.
  intros HI HL Hc. unfold due.
  destruct (heap s !! (b + 2)%nat) as [[[|o'] rs]|] eqn:E; [|done|done].
  destruct (isRejected o); [|done]. apply sum_zero. intros r Hr.
  assert (Hs : sits s (b + 2) r) by (by exists {| pstatus := Pending; reactions := rs |}).
  destruct (inv_heap s HI _ _ r E Hr) as ([(K1 & b1 & _ & ->)|[(K1 & b1 & _ & ->)|[Hsl _]]] & _);
    [done|done|].
  pose proof (led_placed s HL _ r Hs Hsl) as Hpl.
  pose proof (led_paired s HL r ltac:(right; by exists (b + 2)%nat) Hsl) as Hpr.
  unfold placed, paired, catchW, catchFor in *.
  destruct (on_fulfilled r) as [[K1|fullPath callback]|].
  - done.
  - by destruct (on_rejected r).
  - by destruct (Hpl K b Hc).
Qed.

Lemma balance_microtask c s r o rest :
  Inv s -> Ledger s -> microtasks s = (r, o) :: rest ->
  (paid c (step Microtask s) + owed c (step Microtask s) = paid c s + owed c s)%nat.
Proof.
  intros HI HL Eq. rewrite (step_microtask s _ _ Eq).
  destruct (run_job_form r o (set_microtasks rest s))
    as (o' & calls & s0 & -> & Eh & Eq0 & Ei & Ecb & Hh).
  cbn in Eh, Eq0, Ei, Ecb.
  rewrite owed_settle, (paid_same c s0 (settle _ _ _)) by apply callbacks_settle.
  rewrite (paid_app c s s0 calls Ecb).
  pose proof (weight_pop (owedByJob c) (owedBy c) s (r, o) rest Eq) as Hpop.
  assert (E0 : owed c s0 = owed c (set_microtasks rest s)) by (by apply weight_same).
  fold (owed c s) in Hpop. fold (owed c (set_microtasks rest s)) in Hpop.
  assert (Hdue : due c o' s0 (target r) = due c o' s (target r)).
  { unfold due. by rewrite Eh. }
  rewrite Hdue, E0.
  enough (callsOf c calls + due c o' s (target r) = owedByJob c (r, o))%nat by lia.
  clear Hpop E0 Hdue.
  assert (Hin : (r, o) ∈ microtasks s) by (rewrite Eq; apply list_elem_of_here).
  destruct (inv_queue s HI r o Hin) as [[(K & b & Hc & ->)|[(K & b & Hc & ->)|[Hsl _]]] _].
  - change (target (thenClear K (b + 1))) with (b + 1)%nat.
    rewrite (due_relay c o' s K b HI Hc).
    unfold handled in Hh. cbn in Hh. by destruct o; destruct Hh as [-> ->].
  - change (target (catchClear K (b + 2))) with (b + 2)%nat.
    rewrite (due_slot c o' s K b HI HL Hc).
    unfold handled in Hh. cbn in Hh. by destruct o; destruct Hh as [-> ->].
  - pose proof (led_paired s HL r ltac:(left; by exists o) Hsl) as Hpr.
    unfold paired in Hpr. unfold handled in Hh.
    unfold owedByJob, owedBy, catchW, thenFor, catchFor, due. cbn [fst snd].
    destruct (on_fulfilled r) as [[K|fullPath callback]|];
      destruct (on_rejected r) as [[K'|callback']|]; try done.
    + destruct Hpr as [Hpol [t' ->]]. cbn. unfold catchW, catchFor. cbn.
      destruct o as [[|res]|err].
      * destruct Hh as [-> ->]. cbn. case_bool_decide; lia.
      * destruct Hh as [-> ->]. rewrite Hpol. cbn.
        case_bool_decide; case_decide; try done; lia.
      * destruct Hh as [-> ->]. cbn. case_bool_decide; lia.
    + rewrite Hpr. cbn. destruct o as [v|err].
      * destruct Hh as [-> ->]. cbn. done.
      * destruct Hh as [args ->]. cbn. destruct (isRejected o'); case_bool_decide; case_decide; try done; lia.
Qed.

Lemma callbacks_then p onF onR s : callbacks (snd (then_ p onF onR s)) = callbacks s.
Proof.
  unfold then_, new_promise. cbn.
  by destruct ((heap s ++ [_]) !! p) as [[[|o'] rs]|].
Qed.

Lemma balance_getFlowResult c root s :
  paid c (snd (getFlowResult root s)) = paid c s /\
  owed c (snd (getFlowResult root s)) = owed c s.
Proof.
  destruct (lookup_cases root s) as [[Hv Hown]|[[p Hp]|Hin]];
    [|by rewrite (getFlowResult_hit _ _ _ Hp)|by rewrite (getFlowResult_inherited _ _ Hin)].
  split.
  - apply paid_same. by rewrite (getFlowResult_miss _ _ Hv Hown).
  - unfold owed. rewrite (weight_getFlowResult_miss _ _ _ _ Hv Hown). cbn. lia.
Qed.

Lemma getFlowResult_FromPrototype root s key s1 :
  getFlowResult root s = (FromPrototype key, s1) -> inherited s root.
Proof.
  destruct (lookup_cases root s) as [[Hv Hown]|[[p Hp]|Hin]]; [| |done].
  - by rewrite (getFlowResult_miss _ _ Hv Hown).
  - by rewrite (getFlowResult_hit _ _ _ Hp).
Qed.

(** Every step keeps the books: the calls made plus the calls owed grow
    by one exactly when a scan with the callback is asked for. *)
Lemma balance_step c e s :
  Inv s -> Ledger s -> ownKeyEvent e ->
  (paid c (step e s) + owed c (step e s) = paid c s + owed c s + scanOf c e)%nat.
Proof.
  intros HI HL Hkey.
  assert (Htimer : match e with TimerFires _ | Child _ _ => True | _ => False end ->
                   (paid c (step e s) + owed c (step e s) = paid c s + owed c s)%nat).
  { intros He. destruct (quiet_or_settles s e HI He) as [(Eh & Eq & Ecb)|(i & inv & Hi & Hf & Hs)].
    - rewrite (paid_same c s _ Ecb). unfold owed. by rewrite (weight_same _ _ s (step e s)).
    - destruct (settles_step s i inv e HI Hi Hf Hs) as (o & inv' & Eh & Eq & _ & Ecb & _).
      destruct (flags_down_waiting s i inv HI Hi Hf) as [_ (H0 & _)].
      rewrite (paid_same c s _ Ecb).
      pose proof (weight_announce (owedByJob c) (owedBy c) s (step e s) _ o _ H0 Eh Eq) as Hw.
      cbn in Hw. unfold owed. destruct (isRejected o); lia. }
  destruct e as [fs root fullPath callback|root|i|i ev|].
  - assert (Hsync : forall err result,
      let s' := snd (call_callback callback err result s) in
      (paid c s' + owed c s' = paid c s + owed c s + scanOf c (Scan fs root fullPath callback))%nat).
    { intros err result. cbn zeta. rewrite call_callback_state.
      rewrite (paid_app c s _ [(cb_id callback, (err, result))]) by done.
      unfold owed. rewrite (weight_same _ _ s (set_callbacks _ s)) by done.
      unfold callsOf. cbn. lia. }
    cbn [step]. unfold scanFileWithFlow.
    destruct (negb _); [apply Hsync|]. destruct (negb _); [apply Hsync|].
    destruct (getFlowResult_slot root s HI) as [HI1 Hslot].
    destruct (balance_getFlowResult c root s) as [Ep1 Eo1].
    destruct (getFlowResult root s) as [[p|key] s1] eqn:Eget; cbn [fst snd] in *.
    2:{ destruct (getFlowResult_FromPrototype root s key s1 Eget) as [_ Hin].
        by destruct (Hkey Hin). }
    destruct (slot_open s1 root p HI1 Hslot) as [[ws Hp] Hopen].
    pose proof (callbacks_then p (Some (ThenReport fullPath callback)) None s1) as Ecb2.
    pose proof (weight_then (owedByJob c) (owedBy c) p (Some (ThenReport fullPath callback))
                  None s1 ws Hp) as Eo2.
    destruct (then_fresh p (Some (ThenReport fullPath callback)) None s1 ws Hp) as (E4 & Hp4 & _).
    destruct (then_ p _ None s1) as [p4 s2]. cbn [fst snd] in *. subst p4.
    pose proof (callbacks_then (length (heap s1)) None (Some (CatchReport callback)) s2) as Ecb3.
    pose proof (weight_then (owedByJob c) (owedBy c) (length (heap s1)) None
                  (Some (CatchReport callback)) s2 [] Hp4) as Eo3.
    destruct (then_ (length (heap s1)) None _ s2) as [p5 s3]. cbn [snd] in *.
    rewrite (paid_same c s2 s3 Ecb3), (paid_same c s1 s2 Ecb2), Ep1.
    unfold owed in *. rewrite Eo3, Eo2, Eo1.
    unfold owedBy, thenFor. cbn. case_bool_decide; case_decide; try done; lia.
  - cbn [step scanOf]. destruct (balance_getFlowResult c root s) as [-> ->]. lia.
  - rewrite Htimer by done. cbn. lia.
  - rewrite Htimer by done. cbn. lia.
  - cbn [scanOf]. destruct (microtasks s) as [|[r o] rest] eqn:Eq.
    + cbn [step]. rewrite Eq. lia.
    + rewrite (balance_microtask c s r o rest HI HL Eq). lia.
Qed.

(** When nothing is in flight, nothing is owed. *)
Lemma owed_quiescent c s : Inv s -> Ledger s -> quiescent s -> owed c s = 0%nat.
Proof.
  intros HI HL [Hq Hdone]. unfold owed, weight, hsum. rewrite Hq. cbn.
  apply sum_zero. intros pr Hpr. apply list_elem_of_lookup in Hpr as [p Hp].
  apply sum_zero. intros r Hr.
  destruct (inv_heap s HI p pr r Hp Hr) as ([(K & b & _ & ->)|[(K & b & _ & ->)|[Hsl _]]] & _);
    [done|done|].
  pose proof (led_placed s HL p r ltac:(by exists pr) Hsl) as Hpl.
  unfold placed in Hpl. unfold owedBy, thenFor.
  destruct (on_fulfilled r) as [h|]; [|done]. exfalso.
  destruct Hpl as (K & b & (i & inv & Hi & <- & <-) & ->).
  pose proof (proj1 (Forall_lookup _ _) Hdone i inv Hi) as Hflags. cbn in Hflags.
  destruct (inv_stage s HI i inv Hi) as (st & [Hf Hst] & _).
  unfold promises_ok in Hst. rewrite Hq in Hst.
  destruct st as [|o|o|o].
  - destruct Hf as (Hr1 & Hr2 & _). by rewrite Hr1, Hr2 in Hflags.
  - by destruct Hst as (_ & _ & _ & Hj & _).
  - by destruct Hst as (_ & _ & _ & _ & Hj).
  - destruct Hst as (_ & _ & Hs & _). rewrite Hs in Hp. injection Hp as <-.
    by apply elem_of_nil in Hr.
Qed.

(** The three invariants, and the balance, along a run whose scans are
    given callbacks that return normally. *)
Lemma run_balance c evs s :
  Inv s -> Uniq s -> Ledger s -> Forall politeEvent evs -> Forall ownKeyEvent evs ->
  Inv (run evs s) /\ Ledger (run evs s) /\
  (paid c (run evs s) + owed c (run evs s) = paid c s + owed c s + scans c evs)%nat.
Proof.
  revert s. induction evs as [|e evs IH]; intros s HI HU HL Hpol Hown.
  - cbn. split; [done|]. split; [done|]. lia.
  - apply Forall_cons in Hpol as [He Hpol]. apply Forall_cons in Hown as [Hk Hown].
    rewrite run_cons.
    destruct (IH (step e s) (Inv_step e s HI) (Uniq_step e s HI HU)
                (Ledger_step e s HI HU HL He) Hpol Hown) as (HI' & HL' & Hb).
    split; [done|]. split; [done|].
    rewrite Hb, (balance_step c e s HI HL Hk). unfold scans. cbn. lia.
Qed.

(** X19: exactly one call per scan, where the code achieves it: along
    every run in which the callbacks handed to [scanFileWithFlow] return
    normally when they are given a report, and in which no project root
    names a property the cache inherits, a callback has never been called
    more often than scans were asked for with it, and once nothing is in
    flight (no job queued, every invocation settled) it has been called
    exactly once per scan, whichever way the scan ended; a scan of a
    project without the configuration or without the binary calls it
    before it returns. *)
Theorem callback_called_once (evs : list event) (c : nat) :
  Forall politeEvent evs -> Forall ownKeyEvent evs ->
  let s := run evs init in
  (paid c s <= scans c evs)%nat /\
  (quiescent s -> paid c s = scans c evs) /\
  (forall fs root fullPath callback,
     hasFlowConfig fs root && hasFlowBin fs root = false ->
     exists report,
       callbacks (step (Scan fs root fullPath callback) s) =
       callbacks s ++ [(cb_id callback, (None, Some report))]).
Proof.
  intros Hpol Hown s.
  destruct (run_balance c evs init Inv_init Uniq_init Ledger_init Hpol Hown)
    as (HI & HL & Hb).
  fold s in HI, HL, Hb.
  assert (H0 : (paid c init + owed c init = 0)%nat) by reflexivity.
  split; [lia|]. split.
  - intros Hq. rewrite (owed_quiescent c s HI HL Hq) in Hb. lia.
  - intros fs root fullPath callback Hsync. cbn [step]. unfold scanFileWithFlow.
    destruct (hasFlowConfig fs root); cbn [negb].
    + cbn in Hsync. rewrite Hsync. cbn [negb]. rewrite call_callback_state. by eexists.
    + rewrite call_callback_state. by eexists.
Qed.

End Balance.

Lemma callback_called_once_witness :
  let evs := [demo_scan 1; Child 0 (Data "<flow output>"); Child 0 (Close 0);
              Microtask; Microtask; Microtask; Microtask] in
  paid 1 (run (H := demo_env) evs init) = scans 1 evs.
Proof.
  intros evs.
  assert (Hpol : Forall politeEvent evs).
  { repeat (constructor; [first [exact I | intros ?; reflexivity]|]). constructor. }
  assert (Hown : Forall ownKeyEvent evs).
  { repeat (constructor;
              [first [exact I | apply (bool_decide_unpack _); vm_compute; exact I]|]).
    constructor. }
  destruct (callback_called_once (H := demo_env) evs 1 Hpol Hown) as (_ & Hq & _).
  apply Hq. split; [vm_compute; reflexivity|]. vm_compute. repeat constructor.
Defined.

(** C10 at a callback that throws when it is handed the report: the
    [catch] of lines 156-170 is chained behind the [then] of line 152,
    so it also catches what the callback threw there and calls the
    callback a second time, with that exception as the error.  One scan,
    two calls, and nothing left in flight. *)
Lemma throwing_callback_is_called_twice :
  let evs := [Scan demo_fs "/p" "/p/a.js" (throwing_callback 1);
              Child 0 (Data "<flow output>"); Child 0 (Close 0);
              Microtask; Microtask; Microtask; Microtask] in
  scans 1 evs = 1%nat /\
  paid 1 (run (H := demo_env) evs init) = 2%nat /\
  quiescent (run (H := demo_env) evs init) /\
  exists report thrown,
    callbacks (run (H := demo_env) evs init) =
    [(1%nat, (None, Some report)); (1%nat, (Some thrown, None))].
Proof.
  intros evs. split; [reflexivity|]. split; [vm_compute; reflexivity|].
  split; [split; [vm_compute; reflexivity|vm_compute; repeat constructor]|].
  eexists _, _. vm_compute. reflexivity.
Qed.

Section MapperShape.
Context `{NodeEnv}.

Lemma diagnosticsOf_ext filePath filePath' flowError :
  path_resolve [filePath] = path_resolve [filePath'] ->
  diagnosticsOf filePath flowError = diagnosticsOf filePath' flowError.
Proof.
  intros E. unfold diagnosticsOf. f_equal.
  apply list_filter_iff. intros m. unfold isForFilePath. by rewrite E.
Qed.

Lemma flat_map_ext_in {A B} (f g : A -> list B) (l : list A) :
  (forall x, In x l -> f x = g x) -> flat_map f l = flat_map g l.
Proof.
  induction l as [|x l IH]; intros Hfg; cbn; [done|].
  rewrite (Hfg x) by (by left). rewrite IH; [done|]. intros y Hy. apply Hfg. by right.
Qed.

Lemma map_flat_map {A B C} (f : B -> C) (g : A -> list B) (l : list A) :
  map f (flat_map g l) = flat_map (fun x => map f (g x)) l.
Proof. induction l as [|x l IH]; cbn; [done|]. by rewrite map_app, IH. Qed.

(** X1: findings are mapped one by one and in order: the report of a
    result whose findings are [before ++ after] is the report of
    [before] followed by the report of [after], and a result without
    findings gives the empty report. *)
Theorem report_is_compositional (filePath : string) (before after : list FlowError.t) :
  CodeInspectionReport.errors
    (createCodeInspectionReport filePath {| FlowResult.errors := before ++ after |}) =
  CodeInspectionReport.errors
    (createCodeInspectionReport filePath {| FlowResult.errors := before |}) ++
  CodeInspectionReport.errors
    (createCodeInspectionReport filePath {| FlowResult.errors := after |}) /\
  createCodeInspectionReport filePath {| FlowResult.errors := [] |} =
  {| CodeInspectionReport.errors := [] |}.
Proof.
  split; [|reflexivity].
  rewrite !report_diagnosticsOf. cbn. apply flat_map_app.
Qed.

(** X2: the target file matters only through [path.resolve]: two
    spellings of the target that resolve to the same path give the
    same report. *)
Theorem report_depends_on_resolved_path (filePath filePath' : string)
    (flowResult : FlowResult.t) :
  path_resolve [filePath] = path_resolve [filePath'] ->
  createCodeInspectionReport filePath flowResult =
  createCodeInspectionReport filePath' flowResult.
Proof.
  intros E.
  pose proof (report_diagnosticsOf filePath flowResult) as H1.
  pose proof (report_diagnosticsOf filePath' flowResult) as H2.
  destruct (createCodeInspectionReport filePath flowResult) as [l1].
  destruct (createCodeInspectionReport filePath' flowResult) as [l2].
  cbn in H1, H2. subst. f_equal. apply flat_map_ext_in. intros flowError _.
  by apply diagnosticsOf_ext.
Qed.

(** X3: every diagnostic takes its severity from its own finding: the
    types of the report are, finding after finding, one per message for
    the target file, [problem_type_error] when the level of that
    finding is the string [error] and [problem_type_warning] for every
    other level, [warning] or not. *)
Theorem severity_follows_level (filePath : string) (flowResult : FlowResult.t) :
  let report := CodeInspectionReport.errors (createCodeInspectionReport filePath flowResult) in
  map CodeInspectionResult.type report =
    flat_map (fun flowError =>
                map (fun _ => if decide (FlowError.level flowError = "error")
                              then "problem_type_error" else "problem_type_warning")
                  (filter (isForFilePath filePath) (FlowError.message flowError)))
      (FlowResult.errors flowResult) /\
  Forall (fun d => CodeInspectionResult.type d = "problem_type_error" \/
                   CodeInspectionResult.type d = "problem_type_warning") report /\
  (Forall (fun flowError => FlowError.level flowError = "error") (FlowResult.errors flowResult) ->
   Forall (fun d => CodeInspectionResult.type d = "problem_type_error") report) /\
  (Forall (fun flowError => FlowError.level flowError <> "error") (FlowResult.errors flowResult) ->
   Forall (fun d => CodeInspectionResult.type d = "problem_type_warning") report).
Proof.
  intros report. subst report. rewrite report_diagnosticsOf.
  assert (Hd : forall d, In d (flat_map (diagnosticsOf filePath) (FlowResult.errors flowResult)) ->
    exists flowError, In flowError (FlowResult.errors flowResult) /\
      CodeInspectionResult.type d =
        if decide (FlowError.level flowError = "error")
        then "problem_type_error" else "problem_type_warning").
  { intros d Hin. apply in_flat_map in Hin as (flowError & Hfe & Hin).
    unfold diagnosticsOf in Hin. apply in_map_iff in Hin as (m & <- & _).
    by exists flowError. }
  split; [|split; [|split]].
  - rewrite map_flat_map. apply flat_map_ext_in. intros flowError _.
    unfold diagnosticsOf. by rewrite map_map.
  - apply List.Forall_forall. intros d Hin. destruct (Hd d Hin) as (flowError & _ & ->).
    case_decide; auto.
  - intros Hall. apply List.Forall_forall. intros d Hin.
    destruct (Hd d Hin) as (flowError & Hfe & ->).
    rewrite decide_True; [done|]. by apply (proj1 (List.Forall_forall _ _) Hall).
  - intros Hall. apply List.Forall_forall. intros d Hin.
    destruct (Hd d Hin) as (flowError & Hfe & ->).
    rewrite decide_False; [done|]. by apply (proj1 (List.Forall_forall _ _) Hall).
Qed.

Lemma round_to_double_safe (z : Z) : isSafeInteger z -> round_to_double z = z.
Proof.
  unfold isSafeInteger, round_to_double.
  change (2 ^ 53)%Z with 9007199254740992%Z. intros [Hlo Hhi].
  destruct (Z.leb_spec (Z.log2 (Z.abs z)) 52) as [Hle|Hgt]; [done|]. exfalso.
  destruct (Z.eq_dec (Z.abs z) 0%Z) as [E0|Hne].
  - rewrite E0 in Hgt. cbn in Hgt. lia.
  - assert (Hpos : (0 < Z.abs z)%Z) by lia.
    pose proof (proj1 (Z.log2_lt_pow2 (Z.abs z) 53 Hpos)) as Hlog.
    change (2 ^ 53)%Z with 9007199254740992%Z in Hlog. lia.
Qed.

Lemma Number_sub_safe (z : Z) : isSafeInteger z -> Number_sub z 1 = (z - 1)%Z.
Proof.
  intros Hs. unfold Number_sub. rewrite (round_to_double_safe z Hs).
  change (round_to_double 1) with 1%Z. revert Hs.
  unfold isSafeInteger, round_to_double.
  change (2 ^ 53)%Z with 9007199254740992%Z. intros [Hlo Hhi].
  destruct (Z.leb_spec (Z.log2 (Z.abs (z - 1))) 52) as [Hle|Hgt]; [done|].
  assert (E : (z - 1 = -9007199254740992)%Z).
  { destruct (Z.lt_ge_cases (Z.abs (z - 1)) 9007199254740992) as [Hsmall|Hbig]; [|lia].
    destruct (Z.eq_dec (Z.abs (z - 1)) 0%Z) as [E0|Hne].
    - rewrite E0 in Hgt. cbn in Hgt. lia.
    - assert (Hpos : (0 < Z.abs (z - 1))%Z) by lia.
      pose proof (proj1 (Z.log2_lt_pow2 (Z.abs (z - 1)) 53 Hpos)) as Hlog.
      change (2 ^ 53)%Z with 9007199254740992%Z in Hlog. specialize (Hlog Hsmall). lia. }
  rewrite E. reflexivity.
Qed.

(** X4: the positions of the report are those of the messages for the
    target file, in the order of the raw result and never clamped or
    sorted: [line - 1] and [start - 1] as the subtraction of doubles
    gives them, which for lines and columns that are safe integers is
    the shift from 1-based to 0-based; beyond 2^53 the result is
    rounded. *)
Theorem positions_are_zero_based (filePath : string) (flowResult : FlowResult.t) :
  Forall (fun m => isSafeInteger (FlowMessage.line m) /\ isSafeInteger (FlowMessage.start m))
    (messagesFor filePath flowResult) ->
  map CodeInspectionResult.pos
    (CodeInspectionReport.errors (createCodeInspectionReport filePath flowResult)) =
  map zeroBased (messagesFor filePath flowResult) /\
  Number_sub 9007199254740994 1 = 9007199254740992%Z.
Proof.
  intros Hsafe. split; [|reflexivity].
  rewrite report_diagnosticsOf. unfold messagesFor in *. rewrite !map_flat_map.
  induction (FlowResult.errors flowResult) as [|flowError rest IH]; [done|].
  cbn [flat_map] in *. apply Forall_app in Hsafe as [Hhere Hrest].
  rewrite (IH Hrest). f_equal. unfold diagnosticsOf. rewrite map_map.
  induction Hhere as [|m ms [Hl Hc] _ IHm]; [done|].
  cbn [map]. rewrite IHm. f_equal. unfold zeroBased. cbn.
  by rewrite (Number_sub_safe _ Hl), (Number_sub_safe _ Hc).
Qed.

(** X5: in a result without [Comment] messages the descriptions pass
    through unchanged: the texts of the report are the descriptions of
    the messages for the target file. *)
Theorem descriptions_without_comments (filePath : string) (flowResult : FlowResult.t) :
  (forall flowError m,
     In flowError (FlowResult.errors flowResult) ->
     In m (FlowError.message flowError) -> FlowMessage.type m <> "Comment") ->
  map CodeInspectionResult.message
    (CodeInspectionReport.errors (createCodeInspectionReport filePath flowResult)) =
  map FlowMessage.descr (messagesFor filePath flowResult).
Proof.
  intros Hnone. rewrite report_diagnosticsOf. unfold messagesFor. rewrite !map_flat_map.
  apply flat_map_ext_in. intros flowError Hfe. unfold diagnosticsOf. rewrite map_map.
  assert (Hc : commentsOf flowError = []).
  { unfold commentsOf. specialize (Hnone flowError).
    induction (FlowError.message flowError) as [|m ms IH]; [done|].
    rewrite filter_cons_False by (apply (Hnone m); [done|by left]).
    apply IH. intros m' Hfe' Hm'. apply Hnone; [done|by right]. }
  rewrite Hc. reflexivity.
Qed.

End MapperShape.

Lemma report_depends_on_resolved_path_witness :
  createCodeInspectionReport (H := demo_env) "/p/lib/../a.js" demo_raw =
  createCodeInspectionReport (H := demo_env) "/p/a.js" demo_raw.
Proof.
  apply (report_depends_on_resolved_path (H := demo_env)). vm_compute. reflexivity.
Defined.

Lemma positions_are_zero_based_witness :
  map CodeInspectionResult.pos
    (CodeInspectionReport.errors (createCodeInspectionReport (H := demo_env) "/p/a.js" demo_raw)) =
  [{| Pos.line := 4; Pos.ch := 2 |}].
Proof.
  assert (Hsafe : Forall (fun m => isSafeInteger (FlowMessage.line m) /\
                                   isSafeInteger (FlowMessage.start m))
                         (messagesFor (H := demo_env) "/p/a.js" demo_raw)).
  { let ms := eval vm_compute in (messagesFor (H := demo_env) "/p/a.js" demo_raw) in
    change (messagesFor (H := demo_env) "/p/a.js" demo_raw) with ms.
    constructor; [|constructor]. split; vm_compute; split; reflexivity. }
  rewrite (proj1 (positions_are_zero_based (H := demo_env) "/p/a.js" demo_raw Hsafe)).
  vm_compute. reflexivity.
Defined.

Lemma descriptions_without_comments_witness :
  map CodeInspectionResult.message
    (CodeInspectionReport.errors (createCodeInspectionReport (H := demo_env) "/p/a.js" demo_raw)) =
  map FlowMessage.descr (messagesFor (H := demo_env) "/p/a.js" demo_raw).
Proof.
  apply (descriptions_without_comments (H := demo_env)).
  intros flowError m [<-|[]] [<-|[]]. discriminate.
Defined.

(** ** Command runner: order and logging *)

Section RunnerOrder.

Lemma emit_all_deaf evs child calls :
  once_close child = false -> once_error child = false ->
  snd (emit_calls evs child calls) = calls.
Proof.
  intros Hc He. destruct (emit_all_bounds evs child calls) as (new & -> & Hs & Hf & Hw).
  rewrite Hc in Hs. rewrite He in Hf.
  destruct new as [|call new]; [by rewrite app_nil_r|].
  inversion Hw as [|? ? [[text ->]|[err ->]] _]; subst; cbn in Hs, Hf; unfold count in *;
    cbn in Hs, Hf; lia.
Qed.

Lemma emit_calls_grow evs child calls :
  exists new, snd (emit_calls evs child calls) = calls ++ new.
Proof. destruct (emit_all_bounds evs child calls) as (new & E & _). by exists new. Qed.

Lemma emit_calls_silent evs : forall child calls,
  once_close child = true -> once_error child = true ->
  snd (emit_calls evs child calls) = calls -> Forall isData evs.
Proof.
  induction evs as [|ev evs IH]; intros child calls Hc He Hsame; [constructor|].
  destruct ev as [data|code|err]; rewrite emit_calls_cons in Hsame; cbn [emit] in Hsame.
  - constructor; [by exists data|]. by eapply IH; [| |exact Hsame].
  - exfalso. rewrite Hc in Hsame.
    destruct (emit_calls_grow evs
                {| cmd := cmd child; args := args child; cwd := cwd child;
                   stdout := stdout child; once_close := false;
                   once_error := once_error child |}
                (record_call None (Some (Buffer_concat (stdout child))) calls)) as (new & E).
    rewrite E in Hsame. unfold record_call in Hsame.
    apply (f_equal length) in Hsame. rewrite !length_app in Hsame. cbn in Hsame. lia.
  - exfalso. rewrite He in Hsame.
    destruct (emit_calls_grow evs
                {| cmd := cmd child; args := args child; cwd := cwd child;
                   stdout := stdout child; once_close := once_close child;
                   once_error := false |}
                (record_call (Some err) None calls)) as (new & E).
    rewrite E in Hsame. unfold record_call in Hsame.
    apply (f_equal length) in Hsame. rewrite !length_app in Hsame. cbn in Hsame. lia.
Qed.

(** X6: the callback is not called while the child only writes: there
    is no call exactly when every event so far is a chunk of output. *)
Theorem no_delivery_before_close_or_error (cmd : string) (args : list string) (cwd : string)
    (evs : list child_event) :
  deliveries cmd args cwd evs = [] <-> Forall isData evs.
Proof.
  split.
  - intros Hnone. by apply (emit_calls_silent evs (spawnWrapper cmd args cwd) []).
  - intros Hdata. assert (E : evs = map Data (flat_map
        (fun ev => match ev with Data data => [data] | _ => [] end) evs)).
    { induction Hdata as [|ev evs [data ->] _ IH]; [done|]. cbn. by rewrite <- IH. }
    rewrite E. unfold deliveries. by rewrite emit_all_data.
Qed.

(** X7: when the child emits both [error] and [close], the callback is
    called for each in the order they come; the chunks written between
    an [error] and the [close] are part of the result, the chunks
    written after the [close] are not, and nothing that follows the two
    is delivered. *)
Theorem deliveries_follow_events (exe : string) (argv : list string) (dir : string)
    (chunks chunks' : list string) (code : Z) (err : Error) (rest : list child_event) :
  deliveries exe argv dir
    (map Data chunks ++ ChildError err :: map Data chunks' ++ Close code :: rest) =
  [(Some err, None); (None, Some (Buffer_concat (chunks ++ chunks')))] /\
  deliveries exe argv dir
    (map Data chunks ++ Close code :: map Data chunks' ++ ChildError err :: rest) =
  [(None, Some (Buffer_concat chunks)); (Some err, None)].
Proof.
  split; unfold deliveries.
  - rewrite emit_all_app, emit_all_data, emit_calls_cons.
    cbn [emit once_error once_close spawnWrapper stdout cmd args cwd app].
    rewrite emit_all_app, emit_all_data, emit_calls_cons.
    cbn [emit once_error once_close stdout cmd args cwd].
    by rewrite emit_all_deaf.
  - rewrite emit_all_app, emit_all_data, emit_calls_cons.
    cbn [emit once_error once_close spawnWrapper stdout cmd args cwd app].
    rewrite emit_all_app, emit_all_data, emit_calls_cons.
    cbn [emit once_error once_close stdout cmd args cwd].
    by rewrite emit_all_deaf.
Qed.

Lemma observe_calls evs : forall child calls,
  emit_all (fun tag text seen => seen ++ [Logged tag text])
           (fun err result seen => seen ++ [Called err result])
           evs child (flat_map observedCall calls) =
  (fst (emit_calls evs child calls), flat_map observedCall (snd (emit_calls evs child calls))).
Proof.
  induction evs as [|ev evs IH]; intros child calls; [done|].
  rewrite emit_calls_cons. destruct ev as [data|code|err]; cbn [emit_all emit].
  - apply IH.
  - destruct (once_close child); [|apply IH].
    rewrite <- IH. unfold record_call. by rewrite flat_map_app.
  - destruct (once_error child); [|apply IH].
    rewrite <- IH. unfold record_call. rewrite flat_map_app. cbn. by rewrite <- app_assoc.
Qed.

(** X8: [spawnWrapper] logs [spawn-error] with the stack of the error
    right before it calls the callback with that error, and logs
    nothing else. *)
Theorem failures_are_logged_first (cmd : string) (args : list string) (cwd : string)
    (evs : list child_event) :
  observe cmd args cwd evs = flat_map observedCall (deliveries cmd args cwd evs).
Proof.
  unfold observe, deliveries.
  pose proof (observe_calls evs (spawnWrapper cmd args cwd) []) as E.
  change (flat_map observedCall []) with (@nil observed) in E. by rewrite E.
Qed.

End RunnerOrder.

(** ** What a step leaves alone *)

Section Frames.
Context `{NodeEnv}.

Lemma settle_frame t o s :
  _getFlowResults (settle t o s) = _getFlowResults s /\
  invocations (settle t o s) = invocations s /\
  callbacks (settle t o s) = callbacks s /\
  errorLog (settle t o s) = errorLog s.
Proof. unfold settle. by destruct (heap s !! t) as [[[|o'] rs]|]. Qed.

Lemma update_invocation_frame i f s :
  _getFlowResults (update_invocation i f s) = _getFlowResults s /\
  heap (update_invocation i f s) = heap s /\
  microtasks (update_invocation i f s) = microtasks s /\
  callbacks (update_invocation i f s) = callbacks s /\
  errorLog (update_invocation i f s) = errorLog s /\
  forall j, j <> i -> invocations (update_invocation i f s) !! j = invocations s !! j.
Proof.
  unfold update_invocation. destruct (invocations s !! i); [|done].
  cbn. repeat split. intros j Hne. by apply list_lookup_insert_ne.
Qed.

Lemma then_frame p onF onR s :
  _getFlowResults (snd (then_ p onF onR s)) = _getFlowResults s /\
  invocations (snd (then_ p onF onR s)) = invocations s /\
  callbacks (snd (then_ p onF onR s)) = callbacks s /\
  errorLog (snd (then_ p onF onR s)) = errorLog s.
Proof.
  unfold then_, new_promise. cbn.
  by destruct ((heap s ++ [_]) !! p) as [[[|o'] rs]|].
Qed.

Lemma getFlowResult_frame root s :
  callbacks (snd (getFlowResult root s)) = callbacks s /\
  errorLog (snd (getFlowResult root s)) = errorLog s /\
  microtasks (snd (getFlowResult root s)) = microtasks s /\
  (_getFlowResults (snd (getFlowResult root s)) = _getFlowResults s \/
   exists p, _getFlowResults (snd (getFlowResult root s)) =
             <[root := Some p]> (_getFlowResults s)).
Proof.
  destruct (lookup_cases root s) as [[Hv Hown]|[[p Hp]|Hin]].
  - rewrite (getFlowResult_miss _ _ Hv Hown). cbn. eauto 10.
  - rewrite (getFlowResult_hit _ _ _ Hp). auto.
  - rewrite (getFlowResult_inherited _ _ Hin). auto.
Qed.

Lemma onTimeout_frame i s :
  _getFlowResults (onTimeout i s) = _getFlowResults s /\
  errorLog (onTimeout i s) = errorLog s /\
  forall j, j <> i -> invocations (onTimeout i s) !! j = invocations s !! j.
Proof.
  unfold onTimeout. destruct (invocations s !! i) as [inv|]; [|done].
  destruct (resolved inv || timedOut inv); [done|].
  match goal with |- context [settle ?t ?o ?s1] =>
    destruct (settle_frame t o s1) as (-> & -> & _ & ->) end.
  match goal with |- context [update_invocation i ?f s] =>
    destruct (update_invocation_frame i f s) as (-> & _ & _ & _ & -> & Hj) end.
  done.
Qed.

Lemma onSpawnDone_frame i err result s :
  _getFlowResults (onSpawnDone i err result s) = _getFlowResults s /\
  forall j, j <> i -> invocations (onSpawnDone i err result s) !! j = invocations s !! j.
Proof.
  unfold onSpawnDone. destruct (invocations s !! i) as [inv|]; [|done].
  destruct (resolved inv || timedOut inv); [done|].
  destruct err as [err|]; [|destruct (JSON_parse _) as [res|thrown]].
  all: match goal with |- context [settle ?t ?o ?s1] =>
         destruct (settle_frame t o s1) as (-> & -> & _ & _) end.
  all: cbn [log_error _getFlowResults invocations].
  all: match goal with |- context [update_invocation ?k ?f ?s0] =>
         destruct (update_invocation_frame k f s0) as (-> & _ & _ & _ & _ & Hj) end.
  all: done.
Qed.

(** Timer and child events of invocation [i] touch neither the cache
    nor the closure variables of the other invocations. *)
Lemma step_local i e s :
  (e = TimerFires i \/ exists ev, e = Child i ev) ->
  _getFlowResults (step e s) = _getFlowResults s /\
  forall j, j <> i -> invocations (step e s) !! j = invocations s !! j.
Proof.
  intros [->|[ev ->]]; cbn [step].
  - destruct (invocations s !! i) as [[K b r t [delay| |] c]|]; try done.
    match goal with |- context [onTimeout i ?s1] =>
      destruct (onTimeout_frame i s1) as (-> & _ & Hj) end.
    match goal with |- context [update_invocation i ?f s] =>
      destruct (update_invocation_frame i f s) as (-> & _ & _ & _ & _ & Hj') end.
    split; [done|]. intros j Hne. by rewrite Hj, Hj'.
  - destruct (invocations s !! i) as [inv|]; [|done].
    destruct ev as [data|code|err]; cbn [emit].
    + match goal with |- context [update_invocation i ?f s] =>
        destruct (update_invocation_frame i f s) as (-> & _ & _ & _ & _ & Hj') end. done.
    + destruct (once_close (child inv)).
      * match goal with |- context [update_invocation i ?f ?s1] =>
          destruct (update_invocation_frame i f s1) as (-> & _ & _ & _ & _ & Hj') end.
        destruct (onSpawnDone_frame i None (Some (Buffer_concat (stdout (child inv)))) s)
          as (-> & Hj).
        split; [done|]. intros j Hne. by rewrite Hj', Hj.
      * match goal with |- context [update_invocation i ?f s] =>
          destruct (update_invocation_frame i f s) as (-> & _ & _ & _ & _ & Hj') end. done.
    + destruct (once_error (child inv)).
      * match goal with |- context [update_invocation i ?f ?s1] =>
          destruct (update_invocation_frame i f s1) as (-> & _ & _ & _ & _ & Hj') end.
        destruct (onSpawnDone_frame i (Some err) None (log_error "spawn-error" (stack err) s))
          as (-> & Hj).
        split; [done|]. intros j Hne. by rewrite Hj', Hj.
      * match goal with |- context [update_invocation i ?f s] =>
          destruct (update_invocation_frame i f s) as (-> & _ & _ & _ & _ & Hj') end. done.
Qed.

Lemma onTimeout_callbacks i s : callbacks (onTimeout i s) = callbacks s.
Proof.
  unfold onTimeout. destruct (invocations s !! i) as [inv|]; [|done].
  destruct (resolved inv || timedOut inv); [done|].
  match goal with |- context [settle ?t ?o ?s1] =>
    destruct (settle_frame t o s1) as (_ & _ & -> & _) end.
  match goal with |- context [update_invocation i ?f s] =>
    destruct (update_invocation_frame i f s) as (_ & _ & _ & -> & _) end.
  done.
Qed.

Lemma onSpawnDone_callbacks i err result s :
  callbacks (onSpawnDone i err result s) = callbacks s.
Proof.
  unfold onSpawnDone. destruct (invocations s !! i) as [inv|]; [|done].
  destruct (resolved inv || timedOut inv); [done|].
  destruct err as [err|]; [|destruct (JSON_parse _) as [res|thrown]].
  all: match goal with |- context [settle ?t ?o ?s1] =>
         destruct (settle_frame t o s1) as (_ & _ & -> & _) end.
  all: cbn [log_error callbacks].
  all: match goal with |- context [update_invocation ?k ?f ?s0] =>
         destruct (update_invocation_frame k f s0) as (_ & _ & _ & -> & _) end.
  all: done.
Qed.

Lemma step_local_callbacks e s :
  match e with TimerFires _ | Child _ _ => True | _ => False end ->
  callbacks (step e s) = callbacks s.
Proof.
  destruct e as [| |i|i ev|]; try done; intros _; cbn [step].
  - destruct (invocations s !! i) as [[K b r t [delay| |] c]|]; try done.
    rewrite onTimeout_callbacks.
    match goal with |- context [update_invocation i ?f s] =>
      destruct (update_invocation_frame i f s) as (_ & _ & _ & -> & _) end. done.
  - destruct (invocations s !! i) as [inv|]; [|done].
    destruct ev as [data|code|err]; cbn [emit].
    + match goal with |- context [update_invocation i ?f s] =>
        destruct (update_invocation_frame i f s) as (_ & _ & _ & -> & _) end. done.
    + destruct (once_close (child inv));
        match goal with |- context [update_invocation i ?f ?s1] =>
          destruct (update_invocation_frame i f s1) as (_ & _ & _ & -> & _) end;
        [apply onSpawnDone_callbacks|done].
    + destruct (once_error (child inv));
        match goal with |- context [update_invocation i ?f ?s1] =>
          destruct (update_invocation_frame i f s1) as (_ & _ & _ & -> & _) end;
        [by rewrite onSpawnDone_callbacks|done].
Qed.

End Frames.

Section Coalescing.
Context `{NodeEnv}.

(** X9: invocations are independent: the timer and the child events of
    one invocation change neither the flags, the timer or the child of
    another invocation, nor its three promises, nor the cache. *)
Theorem events_are_local (s : state) (i j : nat) (other : invocation) (e : event) :
  reachable s ->
  (e = TimerFires i \/ exists ev, e = Child i ev) ->
  invocations s !! j = Some other -> i <> j ->
  invocations (step e s) !! j = Some other /\
  heap (step e s) !! base other = heap s !! base other /\
  heap (step e s) !! (base other + 1)%nat = heap s !! (base other + 1)%nat /\
  heap (step e s) !! (base other + 2)%nat = heap s !! (base other + 2)%nat /\
  _getFlowResults (step e s) = _getFlowResults s.
Proof.
  intros Hs He Hj Hij. pose proof (reachable_Inv s Hs) as HI.
  destruct (step_local i e s He) as [Ec Hl].
  split; [by rewrite Hl|].
  assert (Hkind : match e with TimerFires _ | Child _ _ => True | _ => False end)
    by (by destruct He as [->|[ev ->]]).
  destruct (quiet_or_settles s e HI Hkind) as [(Eh & _)|(i' & inv & Hi & Hf & Hset)].
  { by rewrite Eh. }
  assert (i' = i) as ->.
  { destruct He as [->|[ev ->]]; destruct Hset as [E|[(c & E & _)|(c & E & _)]]; congruence. }
  destruct (settles_step s i inv e HI Hi Hf Hset) as (o & inv' & Eh & _).
  pose proof (inv_apart s HI i j inv other Hi Hj Hij) as Hap.
  rewrite Eh. rewrite !list_lookup_insert_ne by lia. done.
Qed.

Lemma run_job_cache job s :
  dom (_getFlowResults s) ⊆ dom (_getFlowResults (run_job job s)).
Proof.
  destruct job as [r [v|err]]; cbn [run_job].
  - destruct (on_fulfilled r) as [[K|fullPath callback]|]; cbn.
    + destruct (settle_frame (target r) (Fulfilled v)
                  (set_cache (<[K := None]> (_getFlowResults s)) s)) as (-> & _).
      cbn. apply dom_insert_subseteq.
    + destruct v as [|res].
      * by destruct (settle_frame (target r) (Rejected typeError) s) as (-> & _).
      * unfold call_callback. destruct (cb_throws _ _ _);
          match goal with |- context [settle ?t ?o ?s1] =>
            destruct (settle_frame t o s1) as (-> & _) end; done.
    + by destruct (settle_frame (target r) (Fulfilled v) s) as (-> & _).
  - destruct (on_rejected r) as [[K|callback]|]; cbn.
    + destruct (settle_frame (target r) (Rejected err)
                  (set_cache (<[K := None]> (_getFlowResults s)) s)) as (-> & _).
      cbn. apply dom_insert_subseteq.
    + unfold call_callback. destruct (decide _); destruct (cb_throws _ _ _);
        match goal with |- context [settle ?t ?o ?s1] =>
          destruct (settle_frame t o s1) as (-> & _) end; done.
    + by destruct (settle_frame (target r) (Rejected err) s) as (-> & _).
Qed.

Lemma step_cache e s : dom (_getFlowResults s) ⊆ dom (_getFlowResults (step e s)).
Proof.
  destruct e as [fs root fullPath callback|root|i|i ev|].
  - cbn [step]. unfold scanFileWithFlow.
    destruct (negb _); [by rewrite call_callback_state|].
    destruct (negb _); [by rewrite call_callback_state|].
    destruct (getFlowResult_frame root s) as (_ & _ & _ & Hc).
    destruct (getFlowResult root s) as [[p|key] s1]; cbn [snd] in Hc.
    2:{ destruct Hc as [->|[q ->]]; [done|apply dom_insert_subseteq]. }
    destruct (then_frame p (Some (ThenReport fullPath callback)) None s1) as (Ec2 & _).
    destruct (then_ p _ None s1) as [p4 s2]. cbn [snd] in Ec2.
    destruct (then_frame p4 None (Some (CatchReport callback)) s2) as (Ec3 & _).
    destruct (then_ p4 None _ s2) as [p5 s3]. cbn [snd] in Ec3.
    rewrite Ec3, Ec2. destruct Hc as [->|[q ->]]; [done|apply dom_insert_subseteq].
  - cbn [step]. destruct (getFlowResult_frame root s) as (_ & _ & _ & [->|[q ->]]);
      [done|apply dom_insert_subseteq].
  - by destruct (step_local i (TimerFires i) s ltac:(by left)) as [-> _].
  - by destruct (step_local i (Child i ev) s ltac:(right; by exists ev)) as [-> _].
  - cbn [step]. destruct (microtasks s) as [|job rest]; [done|].
    apply (run_job_cache job (set_microtasks rest s)).
Qed.

(** X10: a key is never removed from the cache object: once a project
    root has been asked for, its property stays, holding a promise or
    [undefined]. *)
Theorem cache_keys_are_kept (evs : list event) (s : state) :
  dom (_getFlowResults s) ⊆ dom (_getFlowResults (run evs s)).
Proof.
  revert s. induction evs as [|e evs IH]; intros s; [done|].
  rewrite run_cons. etrans; [apply (step_cache e s)|apply IH].
Qed.

Lemma run_job_log job s : errorLog (run_job job s) = errorLog s.
Proof.
  destruct job as [r [v|err]]; cbn [run_job].
  - destruct (on_fulfilled r) as [[K|fullPath callback]|]; cbn.
    + by destruct (settle_frame (target r) (Fulfilled v)
                     (set_cache (<[K := None]> (_getFlowResults s)) s)) as (_ & _ & _ & ->).
    + destruct v as [|res].
      * by destruct (settle_frame (target r) (Rejected typeError) s) as (_ & _ & _ & ->).
      * unfold call_callback. destruct (cb_throws _ _ _);
          match goal with |- context [settle ?t ?o ?s1] =>
            destruct (settle_frame t o s1) as (_ & _ & _ & ->) end; done.
    + by destruct (settle_frame (target r) (Fulfilled v) s) as (_ & _ & _ & ->).
  - destruct (on_rejected r) as [[K|callback]|]; cbn.
    + by destruct (settle_frame (target r) (Rejected err)
                     (set_cache (<[K := None]> (_getFlowResults s)) s)) as (_ & _ & _ & ->).
    + unfold call_callback. destruct (decide _); destruct (cb_throws _ _ _);
        match goal with |- context [settle ?t ?o ?s1] =>
          destruct (settle_frame t o s1) as (_ & _ & _ & ->) end; done.
    + by destruct (settle_frame (target r) (Rejected err) s) as (_ & _ & _ & ->).
Qed.

(** X11: what is logged.  Scans, timeouts and promise jobs log nothing.
    An [error] event of the child is logged as [spawn-error] with its
    stack while the listener is on, also when the timeout has won
    already.  A [close] event is logged, as [getFlowResult-parse-error],
    only when it settles the invocation and the output does not parse;
    the output of a late [close] is not parsed at all. *)
Theorem log_entries (s : state) :
  (forall e, (forall i ev, e <> Child i ev) -> errorLog (step e s) = errorLog s) /\
  (forall i data, errorLog (step (Child i (Data data)) s) = errorLog s) /\
  (forall i inv err,
     invocations s !! i = Some inv -> once_error (child inv) = true ->
     errorLog (step (Child i (ChildError err)) s) =
     errorLog s ++ [("spawn-error", stack err)]) /\
  (forall i inv code,
     invocations s !! i = Some inv -> once_close (child inv) = true ->
     errorLog (step (Child i (Close code)) s) =
     errorLog s ++
       if resolved inv || timedOut inv then []
       else match JSON_parse (Buffer_concat (stdout (child inv))) with
            | inl _ => []
            | inr thrown => [("getFlowResult-parse-error", stack thrown)]
            end).
Proof.
  split; [|split; [|split]].
  - intros e Hno. destruct e as [fs root fullPath callback|root|i|i ev|].
    + cbn [step]. unfold scanFileWithFlow.
      destruct (negb _); [by rewrite call_callback_state|].
      destruct (negb _); [by rewrite call_callback_state|].
      destruct (getFlowResult_frame root s) as (_ & E1 & _).
      destruct (getFlowResult root s) as [[p|key] s1]; cbn [snd] in E1; [|done].
      destruct (then_frame p (Some (ThenReport fullPath callback)) None s1) as (_ & _ & _ & E2).
      destruct (then_ p _ None s1) as [p4 s2]. cbn [snd] in E2.
      destruct (then_frame p4 None (Some (CatchReport callback)) s2) as (_ & _ & _ & E3).
      destruct (then_ p4 None _ s2) as [p5 s3]. cbn [snd] in E3. congruence.
    + cbn [step]. by destruct (getFlowResult_frame root s) as (_ & -> & _).
    + cbn [step]. destruct (invocations s !! i) as [[K b r t [delay| |] c]|]; try done.
      match goal with |- context [onTimeout i ?s1] =>
        destruct (onTimeout_frame i s1) as (_ & -> & _) end.
      match goal with |- context [update_invocation i ?f s] =>
        destruct (update_invocation_frame i f s) as (_ & _ & _ & _ & -> & _) end. done.
    + by destruct (Hno i ev).
    + cbn [step]. destruct (microtasks s) as [|job rest]; [done|].
      by rewrite run_job_log.
  - intros i data. cbn [step]. destruct (invocations s !! i) as [inv|]; [|done].
    cbn [emit].
    match goal with |- context [update_invocation i ?f s] =>
      destruct (update_invocation_frame i f s) as (_ & _ & _ & _ & -> & _) end. done.
  - intros i inv err Hi Hon. cbn [step]. rewrite Hi. cbn [emit]. rewrite Hon.
    match goal with |- context [update_invocation i ?f ?s1] =>
      destruct (update_invocation_frame i f s1) as (_ & _ & _ & _ & -> & _) end.
    unfold onSpawnDone. cbn [invocations log_error]. rewrite Hi.
    destruct (resolved inv || timedOut inv); [done|].
    match goal with |- context [settle ?t ?o ?s1] =>
      destruct (settle_frame t o s1) as (_ & _ & _ & ->) end.
    match goal with |- context [update_invocation i ?f ?s1] =>
      destruct (update_invocation_frame i f s1) as (_ & _ & _ & _ & -> & _) end. done.
  - intros i inv code Hi Hon. cbn [step]. rewrite Hi. cbn [emit]. rewrite Hon.
    match goal with |- context [update_invocation i ?f ?s1] =>
      destruct (update_invocation_frame i f s1) as (_ & _ & _ & _ & -> & _) end.
    unfold onSpawnDone. rewrite Hi.
    destruct (resolved inv || timedOut inv); [by rewrite app_nil_r|].
    cbn [default]. destruct (JSON_parse _) as [res|thrown].
    + match goal with |- context [settle ?t ?o ?s1] =>
        destruct (settle_frame t o s1) as (_ & _ & _ & ->) end.
      match goal with |- context [update_invocation i ?f ?s1] =>
        destruct (update_invocation_frame i f s1) as (_ & _ & _ & _ & -> & _) end.
      by rewrite app_nil_r.
    + match goal with |- context [settle ?t ?o ?s1] =>
        destruct (settle_frame t o s1) as (_ & _ & _ & ->) end.
      cbn [log_error errorLog].
      match goal with |- context [update_invocation i ?f ?s1] =>
        destruct (update_invocation_frame i f s1) as (_ & _ & _ & _ & -> & _) end. done.
Qed.

Lemma settles_with s i inv e :
  Inv s -> invocations s !! i = Some inv ->
  resolved inv || timedOut inv = false -> settles i inv e ->
  heap (step e s) = <[base inv := settled (outcomeOf inv e)]> (heap s) /\
  microtasks (step e s) =
    microtasks s ++ [(thenClear (projectRoot inv) (base inv + 1), outcomeOf inv e)].
Proof.
  intros HI Hi Hflags He.
  destruct (flags_down_waiting s i inv HI Hi Hflags) as [(Hr & Ht & Hid) (H0 & _)].
  assert (Hlt : (i < length (invocations s))%nat) by (by eapply lookup_lt_Some).
  destruct He as [->|[(code & -> & Hc)|(err & -> & Hc)]].
  - rewrite (step_timer_armed s i inv _ Hi Hid).
    unfold onTimeout, update_invocation. rewrite Hi. cbn [invocations set_invocations].
    rewrite list_lookup_insert_eq by done.
    cbn [resolved timedOut base projectRoot timeoutID child]. rewrite Hr, Ht. cbn [orb].
    erewrite settle_pending by (cbn; exact H0). done.
  - cbn [step outcomeOf]. rewrite Hi. cbn [emit]. rewrite Hc.
    unfold onSpawnDone, update_invocation, parsed. rewrite Hi, Hflags.
    cbn [invocations set_invocations default].
    destruct (JSON_parse _) as [res|err];
      erewrite settle_pending by (cbn; exact H0); cbn;
      rewrite list_lookup_insert_eq by done; done.
  - cbn [step outcomeOf]. rewrite Hi. cbn [emit]. rewrite Hc.
    unfold onSpawnDone, update_invocation. cbn [log_error invocations]. rewrite Hi, Hflags.
    cbn [invocations set_invocations].
    erewrite settle_pending by (cbn; exact H0). cbn.
    rewrite list_lookup_insert_eq by done. done.
Qed.

Lemma step_data i inv data s :
  invocations s !! i = Some inv ->
  step (Child i (Data data)) s =
  set_invocations
    (<[i := {| projectRoot := projectRoot inv; base := base inv; resolved := resolved inv;
               timedOut := timedOut inv; timeoutID := timeoutID inv;
               child := {| cmd := cmd (child inv); args := args (child inv);
                           cwd := cwd (child inv);
                           stdout := stdout (child inv) ++ [data];
                           once_close := once_close (child inv);
                           once_error := once_error (child inv) |} |}]> (invocations s)) s.
Proof. intros Hi. cbn [step]. rewrite Hi. cbn [emit]. unfold update_invocation. by rewrite Hi. Qed.

(** The chunks the child writes are kept in the order they come. *)
Lemma data_accumulates i chunks : forall s inv,
  invocations s !! i = Some inv ->
  exists inv',
    invocations (run (map (fun data => Child i (Data data)) chunks) s) !! i = Some inv' /\
    base inv' = base inv /\ resolved inv' = resolved inv /\ timedOut inv' = timedOut inv /\
    once_close (child inv') = once_close (child inv) /\
    stdout (child inv') = stdout (child inv) ++ chunks.
Proof.
  induction chunks as [|data chunks IH]; intros s inv Hi.
  - exists inv. by rewrite app_nil_r.
  - cbn [map]. rewrite run_cons, (step_data i inv data s Hi).
    match goal with |- context [set_invocations (<[i := ?x]> _) s] => set (inv1 := x) end.
    destruct (IH (set_invocations (<[i := inv1]> (invocations s)) s) inv1)
      as (inv' & Hi' & Hb & Hr & Ht & Hc & Ho).
    { cbn [invocations set_invocations]. apply list_lookup_insert_eq.
      by apply lookup_lt_Some in Hi. }
    exists inv'. cbn in Hb, Hr, Ht, Hc, Ho. rewrite <- app_assoc in Ho. done.
Qed.

(** X12: what an invocation settles with.  When the child closes first,
    the text parsed is everything it wrote until then, chunk after
    chunk, and the promise is fulfilled with the parsed value or
    rejected with what [JSON.parse] threw; an [error] event rejects
    with that error, and the timer with an error named
    [TimeoutError]. *)
Theorem invocation_outcome (s : state) (i : nat) (inv : invocation) :
  reachable s -> invocations s !! i = Some inv ->
  resolved inv || timedOut inv = false ->
  (forall chunks code,
     once_close (child inv) = true ->
     heap (run (map (fun data => Child i (Data data)) chunks ++ [Child i (Close code)]) s)
       !! base inv =
     Some (settled (parsed (Buffer_concat (stdout (child inv) ++ chunks))))) /\
  (forall err,
     once_error (child inv) = true ->
     heap (step (Child i (ChildError err)) s) !! base inv = Some (settled (Rejected err))) /\
  heap (step (TimerFires i) s) !! base inv = Some (settled (Rejected timeoutError)) /\
  name timeoutError = "TimeoutError".
Proof.
  intros Hs Hi Hflags. pose proof (reachable_Inv s Hs) as HI.
  assert (Hb : (base inv < length (heap s))%nat).
  { destruct (flags_down_waiting s i inv HI Hi Hflags) as [_ (H0 & _)].
    by apply lookup_lt_Some in H0. }
  split; [|split; [|split; [|done]]].
  - intros chunks code Hc. rewrite run_app.
    set (s' := run (map _ chunks) s).
    assert (Hs' : reachable s') by (by apply reachable_run).
    destruct (data_accumulates i chunks s inv Hi) as (inv' & Hi' & Eb & Er & Et & Ec & Eo).
    fold s' in Hi'. pose proof (reachable_Inv s' Hs') as HI'.
    assert (Hflags' : resolved inv' || timedOut inv' = false) by (by rewrite Er, Et).
    destruct (settles_with s' i inv' (Child i (Close code)) HI' Hi' Hflags') as [Eh _].
    { right; left. exists code. split; [done|]. by rewrite Ec. }
    cbn [run fold_left]. rewrite Eh. cbn [outcomeOf]. rewrite Eo, Eb.
    apply list_lookup_insert_eq.
    destruct (flags_down_waiting s' i inv' HI' Hi' Hflags') as [_ (H0 & _)].
    rewrite Eb in H0. by apply lookup_lt_Some in H0.
  - intros err Hc.
    destruct (settles_with s i inv (Child i (ChildError err)) HI Hi Hflags) as [Eh _].
    { right; right. by exists err. }
    rewrite Eh. by apply list_lookup_insert_eq.
  - destruct (settles_with s i inv (TimerFires i) HI Hi Hflags) as [Eh _]; [by left|].
    rewrite Eh. by apply list_lookup_insert_eq.
Qed.

End Coalescing.

(** ** The entry point *)

Section Orchestration.
Context `{NodeEnv}.

(** X13: without the configuration file the callback gets the empty
    report, and with it but without the [flow] binary the one
    diagnostic that asks to install it; either way the call is made
    before [scanFileWithFlow] returns and nothing else happens: no
    promise, no invocation, no entry in the cache.  A path that is not
    a file, or that [statSync] cannot read, counts as absent; the
    binary looked for is [flow] on every platform. *)
Theorem scan_without_flow (fs : string -> option bool) (root fullPath : string)
    (callback : callback_fn) (s : state) :
  (fs (path_join [root; ".flowconfig"]) <> Some true ->
   step (Scan fs root fullPath callback) s =
   set_callbacks
     (callbacks s ++
        [(cb_id callback, (None, Some {| CodeInspectionReport.errors := [] |}))]) s) /\
  (fs (path_join [root; ".flowconfig"]) = Some true ->
   fs (path_join [root; "node_modules"; ".bin"; "flow"]) <> Some true ->
   step (Scan fs root fullPath callback) s =
   set_callbacks
     (callbacks s ++
        [(cb_id callback,
          (None,
           Some {| CodeInspectionReport.errors :=
                     [{| CodeInspectionResult.type := "problem_type_error";
                         CodeInspectionResult.message :=
                           "FlowError: Can't locate node_modules/.bin/flow in your project, please install flow-bin";
                         CodeInspectionResult.pos := {| Pos.line := 0; Pos.ch := 0 |} |}] |}))])
     s).
Proof.
  assert (Habsent : forall p, fs p <> Some true -> fileExists fs p = false).
  { intros p Hp. unfold fileExists. destruct (fs p) as [[|]|]; done. }
  split.
  - intros Hc. cbn [step]. unfold scanFileWithFlow, hasFlowConfig.
    rewrite (Habsent _ Hc). cbn [negb]. apply call_callback_state.
  - intros Hc Hb. cbn [step]. unfold scanFileWithFlow, hasFlowConfig, hasFlowBin.
    unfold fileExists at 1. rewrite Hc, (Habsent _ Hb). cbn [negb]. apply call_callback_state.
Qed.

(** What the asynchronous branch of [scanFileWithFlow] (lines 152-170)
    leaves behind. *)
Lemma scan_registers (fs : string -> option bool) (root fullPath : string)
    (callback : callback_fn) (s : state) :
  reachable s -> hasFlowConfig fs root = true -> hasFlowBin fs root = true ->
  let s' := step (Scan fs root fullPath callback) s in
  (inherited s root -> s' = s) /\
  (~ inherited s root ->
   callbacks s' = callbacks s /\ microtasks s' = microtasks s /\ errorLog s' = errorLog s /\
   exists p ws t,
     _getFlowResults s' !! root = Some (Some p) /\
     heap s' !! p = Some (pending (ws ++ [thenReport fullPath callback t])) /\
     heap s' !! t = Some (pending [catchReport callback (t + 1)]) /\
     heap s' !! (t + 1)%nat = Some (pending []) /\
     (vacant s root ->
        ws = [] /\
        invocations s' = invocations s ++ [newInvocation root (length (heap s))]) /\
     (forall q, _getFlowResults s !! root = Some (Some q) ->
        p = q /\ heap s !! q = Some (pending ws) /\ invocations s' = invocations s)).
Proof.
  intros Hs Hc Hb s'. subst s'. pose proof (reachable_Inv s Hs) as HI.
  cbn [step]. unfold scanFileWithFlow. rewrite Hc, Hb. cbn [negb].
  split; [intros Hin; by rewrite (getFlowResult_inherited _ _ Hin)|].
  intros Hown.
  destruct (getFlowResult_slot root s HI) as [HI1 Hslot].
  destruct (getFlowResult_frame root s) as (Ecb & Elog & Eq & _).
  assert (Hstart :
    (vacant s root ->
       fst (getFlowResult root s) = Slot (length (heap s) + 2) /\
       heap (snd (getFlowResult root s)) !! (length (heap s) + 2)%nat = Some (pending []) /\
       invocations (snd (getFlowResult root s)) =
         invocations s ++ [newInvocation root (length (heap s))]) /\
    (forall q, _getFlowResults s !! root = Some (Some q) ->
       getFlowResult root s = (Slot q, s))).
  { split.
    - intros Hv. rewrite (getFlowResult_miss _ _ Hv Hown). cbn. split; [done|]. split; [|done].
      rewrite lookup_app_r by lia. by replace (length (heap s) + 2 - length (heap s))%nat
        with 2%nat by lia.
    - intros q Hq. by apply getFlowResult_hit. }
  pose proof (getFlowResult_FromPrototype root s) as Hproto.
  destruct (getFlowResult root s) as [[p|key] s1]; cbn [fst snd] in *;
    [|by destruct (Hown (Hproto key s1 eq_refl))].
  clear Hproto.
  destruct (slot_open s1 root p HI1 Hslot) as [[ws Hp] _].
  pose proof (scan_waiters p fullPath callback s1 ws Hp) as Eform. cbn zeta in Eform.
  destruct (then_ p _ None s1) as [p4 s2]. cbn [fst snd] in *.
  destruct (then_ p4 None _ s2) as [p5 s3]. cbn [snd] in *. subst s3.
  cbn [callbacks microtasks errorLog set_heap].
  split; [done|]. split; [done|]. split; [done|].
  pose proof (lookup_lt_Some _ _ _ Hp) as Hlt.
  exists p, ws, (length (heap s1)). cbn [_getFlowResults heap set_heap invocations].
  split; [done|]. split; [|split; [|split; [|split]]].
  - rewrite lookup_app_l by (by rewrite length_insert). by apply list_lookup_insert_eq.
  - rewrite lookup_app_r by (by rewrite length_insert).
    by rewrite length_insert, Nat.sub_diag.
  - rewrite lookup_app_r by (rewrite length_insert; lia).
    rewrite length_insert. by replace (length (heap s1) + 1 - length (heap s1))%nat
      with 1%nat by lia.
  - intros Hv. destruct (proj1 Hstart Hv) as (Ep & Hp0 & Hinv). injection Ep as ->.
    rewrite Hp in Hp0. split; [|done]. by injection Hp0.
  - intros q Hq. pose proof (proj2 Hstart q Hq) as E. injection E as -> ->. done.
Qed.

(** X14: with configuration and binary present [scanFileWithFlow] calls
    nothing before it returns.  For a key that the cache holds, or that
    names no property the cache inherits, it puts its [then] reaction
    last on the slot of the key, with its [catch] reaction behind it,
    and starts an invocation exactly when the key is vacant.  For a key
    that the cache does not hold and that names a property of
    [Object.prototype], line 92 returns the inherited value: nothing is
    registered and nothing is started, the state is left as it was (and
    the call of [then] on that value throws to the caller). *)
Theorem scan_registers_a_waiter (fs : string -> option bool) (root fullPath : string)
    (callback : callback_fn) (s : state) :
  reachable s -> hasFlowConfig fs root = true -> hasFlowBin fs root = true ->
  let s' := step (Scan fs root fullPath callback) s in
  (inherited s root -> s' = s) /\
  (~ inherited s root ->
   callbacks s' = callbacks s /\ microtasks s' = microtasks s /\ errorLog s' = errorLog s /\
   exists p ws t,
     _getFlowResults s' !! root = Some (Some p) /\
     heap s' !! p = Some (pending (ws ++ [thenReport fullPath callback t])) /\
     heap s' !! t = Some (pending [catchReport callback (t + 1)]) /\
     heap s' !! (t + 1)%nat = Some (pending []) /\
     (vacant s root ->
        ws = [] /\
        invocations s' = invocations s ++ [newInvocation root (length (heap s))]) /\
     (forall q, _getFlowResults s !! root = Some (Some q) ->
        p = q /\ heap s !! q = Some (pending ws) /\ invocations s' = invocations s)).
Proof. exact (scan_registers fs root fullPath callback s). Qed.

Lemma run_job_calls job s :
  exists new, callbacks (run_job job s) = callbacks s ++ new /\ Forall wellAnswered new.
Proof.
  assert (Hno : forall t o s0, callbacks s0 = callbacks s ->
    exists new, callbacks (settle t o s0) = callbacks s ++ new /\ Forall wellAnswered new).
  { intros t o s0 E. exists []. destruct (settle_frame t o s0) as (_ & _ & -> & _).
    by rewrite app_nil_r. }
  assert (Hone : forall t o o' s' callback err result,
    wellAnswered (cb_id callback, (err, result)) ->
    call_callback callback err result s = (o', s') ->
    exists new, callbacks (settle t o s') = callbacks s ++ new /\ Forall wellAnswered new).
  { intros t o o' s' callback err result Hw E.
    exists [(cb_id callback, (err, result))].
    destruct (settle_frame t o s') as (_ & _ & -> & _).
    pose proof (call_callback_state callback err result s) as E'. rewrite E in E'.
    cbn [snd] in E'. subst s'. split; [done|]. by constructor. }
  destruct job as [r [v|err]]; cbn [run_job].
  - destruct (on_fulfilled r) as [[K|fullPath callback]|]; cbn [run_onFulfilled].
    + by apply Hno.
    + destruct v as [|res]; [by apply Hno|].
      destruct (call_callback _ _ _ s) as [o' s'] eqn:E.
      by apply (Hone (target r) o' o' s' callback None
                  (Some (createCodeInspectionReport fullPath res))).
    + by apply Hno.
  - destruct (on_rejected r) as [[K|callback]|]; cbn [run_onRejected].
    + by apply Hno.
    + destruct (decide (name err = "TimeoutError")) as [Ht|Ht].
      * destruct (call_callback _ _ _ s) as [o' s'] eqn:E.
        by apply (Hone (target r) o' o' s' callback None (Some timeoutReport)).
      * destruct (call_callback _ _ _ s) as [o' s'] eqn:E.
        by apply (Hone (target r) o' o' s' callback (Some err) None).
    + by apply Hno.
Qed.

Lemma step_calls e s :
  exists new, callbacks (step e s) = callbacks s ++ new /\ Forall wellAnswered new.
Proof.
  assert (Hsame : callbacks (step e s) = callbacks s ->
    exists new, callbacks (step e s) = callbacks s ++ new /\ Forall wellAnswered new).
  { intros E. exists []. by rewrite app_nil_r. }
  destruct e as [fs root fullPath callback|root|i|i ev|].
  - cbn [step]. unfold scanFileWithFlow.
    destruct (negb _); [rewrite call_callback_state; eexists; split; [done|by constructor]|].
    destruct (negb _); [rewrite call_callback_state; eexists; split; [done|by constructor]|].
    exists []. rewrite app_nil_r. split; [|done].
    destruct (getFlowResult_frame root s) as (E1 & _).
    destruct (getFlowResult root s) as [[p|key] s1]; cbn [snd] in E1; [|done].
    destruct (then_frame p (Some (ThenReport fullPath callback)) None s1) as (_ & _ & E2 & _).
    destruct (then_ p _ None s1) as [p4 s2]. cbn [snd] in E2.
    destruct (then_frame p4 None (Some (CatchReport callback)) s2) as (_ & _ & E3 & _).
    destruct (then_ p4 None _ s2) as [p5 s3]. cbn [snd] in E3. congruence.
  - apply Hsame. cbn [step]. by destruct (getFlowResult_frame root s) as (-> & _).
  - apply Hsame. by apply step_local_callbacks.
  - apply Hsame. by apply step_local_callbacks.
  - cbn [step]. destruct (microtasks s) as [|job rest].
    + exists []. by rewrite app_nil_r.
    + apply (run_job_calls job (set_microtasks rest s)).
Qed.

(** X15: every call of a completion callback hands over a report and no
    error, or an error and no report, and the error is never the
    timeout: calls made so far stay, and each new one is of that
    form. *)
Theorem callbacks_are_well_answered (evs : list event) (s : state) :
  exists new,
    callbacks (run evs s) = callbacks s ++ new /\ Forall wellAnswered new.
Proof.
  revert s. induction evs as [|e evs IH]; intros s.
  - exists []. by rewrite app_nil_r.
  - rewrite run_cons. destruct (step_calls e s) as (new1 & E1 & H1).
    destruct (IH (step e s)) as (new2 & E2 & H2).
    exists (new1 ++ new2). rewrite E2, E1, <- app_assoc. split; [done|].
    by apply Forall_app.
Qed.

End Orchestration.

(** ** Every waiter gets the answer for its file *)

Section Broadcast.
Context `{NodeEnv}.

Lemma run_sound evs s :
  Inv s -> Uniq s -> Ledger s -> Forall politeEvent evs ->
  Inv (run evs s) /\ Uniq (run evs s) /\ Ledger (run evs s).
Proof.
  revert s. induction evs as [|e evs IH]; intros s HI HU HL Hpol; [done|].
  apply Forall_cons in Hpol as [He Hpol]. rewrite run_cons.
  apply IH; [by apply Inv_step|by apply Uniq_step|by apply Ledger_step|done].
Qed.

Lemma run_jobs n s : run (replicate (S n) Microtask) s = run (replicate n Microtask) (step Microtask s).
Proof. reflexivity. Qed.

Lemma step_thenReport s fullPath callback t t' o rest :
  microtasks s = (thenReport fullPath callback t, o) :: rest ->
  polite callback ->
  heap s !! t = Some (pending [catchReport callback t']) ->
  callbacks (step Microtask s) = callbacks s ++ thenCalls o (thenReport fullPath callback t) /\
  microtasks (step Microtask s) = rest ++ [(catchReport callback t', thenOutcome o)].
Proof.
  intros Eq Hpol Ht. rewrite (step_microtask s _ _ Eq). cbn [run_job thenReport on_fulfilled
    on_rejected target].
  destruct o as [[|res]|err]; cbn [run_onFulfilled thenCalls thenOutcome].
  - erewrite settle_pending by (cbn; exact Ht). cbn. by rewrite app_nil_r.
  - unfold call_callback. rewrite Hpol.
    erewrite settle_pending by (cbn; exact Ht). done.
  - erewrite settle_pending by (cbn; exact Ht). cbn. by rewrite app_nil_r.
Qed.

Lemma step_catchReport s callback t o rest :
  microtasks s = (catchReport callback t, o) :: rest ->
  heap s !! t = Some (pending []) ->
  callbacks (step Microtask s) = callbacks s ++ catchCalls (catchReport callback t, o) /\
  microtasks (step Microtask s) = rest.
Proof.
  intros Eq Ht. rewrite (step_microtask s _ _ Eq). cbn [run_job catchReport on_fulfilled
    on_rejected target].
  destruct o as [v|err]; cbn [run_onRejected catchCalls fst snd on_rejected].
  - erewrite settle_pending by (cbn; exact Ht). cbn. by rewrite !app_nil_r.
  - unfold call_callback. destruct (decide _); destruct (cb_throws _ _ _);
      erewrite settle_pending by (cbn; exact Ht); cbn; case_decide; try done;
      by rewrite app_nil_r.
Qed.

Lemma thenReport_scanlike fullPath callback t : scanlike (thenReport fullPath callback t).
Proof. split; intros K; discriminate. Qed.

Lemma catchReport_scanlike callback t : scanlike (catchReport callback t).
Proof. split; intros K; discriminate. Qed.

(** The [then] jobs of the waiters run in the order of the queue; each
    leaves its [catch] job at the end. *)
Lemma then_phase o rs : forall s q,
  Inv s -> Uniq s -> Ledger s -> Forall isWaiter rs ->
  microtasks s = map (fun r => (r, o)) rs ++ q ->
  let s' := run (replicate (length rs) Microtask) s in
  Inv s' /\ Uniq s' /\ Ledger s' /\
  exists qs,
    microtasks s' = q ++ qs /\ Forall2 (follows o) rs qs /\
    callbacks s' = callbacks s ++ flat_map (thenCalls o) rs.
Proof.
  induction rs as [|r rs IH]; intros s q HI HU HL Hrs Eq.
  - cbn. split; [done|]. split; [done|]. split; [done|].
    exists []. rewrite !app_nil_r. split; [done|]. split; [constructor|done].
  - inversion Hrs as [|? ? (fullPath & callback & t & ->) Hrs']; subst.
    cbn [map app] in Eq. cbn [length]. rewrite run_jobs.
    assert (Hocc : occurs s (thenReport fullPath callback t)).
    { left. exists o. rewrite Eq. apply list_elem_of_here. }
    pose proof (led_paired s HL _ Hocc (thenReport_scanlike _ _ _)) as Hp.
    cbn in Hp. destruct Hp as [Hpol [t' Ht]].
    destruct (step_thenReport s fullPath callback t t' o _ Eq Hpol Ht) as [Ecb Eq1].
    rewrite <- app_assoc in Eq1.
    destruct (IH (step Microtask s) (q ++ [(catchReport callback t', thenOutcome o)])
                (Inv_step Microtask s HI) (Uniq_step Microtask s HI HU)
                (Ledger_step Microtask s HI HU HL I) Hrs' Eq1)
      as (HI' & HU' & HL' & qs & Eq' & Hf & Ecb').
    split; [done|]. split; [done|]. split; [done|].
    exists ((catchReport callback t', thenOutcome o) :: qs).
    rewrite Eq', <- app_assoc. split; [done|]. split.
    + constructor; [|done]. by exists fullPath, callback, t, t'.
    + rewrite Ecb', Ecb, <- app_assoc. done.
Qed.

Lemma catch_phase qs : forall s q,
  Inv s -> Uniq s -> Ledger s ->
  Forall (fun job => exists callback t, fst job = catchReport callback t) qs ->
  microtasks s = qs ++ q ->
  let s' := run (replicate (length qs) Microtask) s in
  microtasks s' = q /\ callbacks s' = callbacks s ++ flat_map catchCalls qs.
Proof.
  induction qs as [|[r o] qs IH]; intros s q HI HU HL Hqs Eq.
  - cbn. by rewrite app_nil_r.
  - inversion Hqs as [|? ? (callback & t & Er) Hqs']; subst. cbn [fst] in Er. subst r.
    cbn [app] in Eq. cbn [length]. rewrite run_jobs.
    assert (Hocc : occurs s (catchReport callback t)).
    { left. exists o. rewrite Eq. apply list_elem_of_here. }
    pose proof (led_paired s HL _ Hocc (catchReport_scanlike _ _)) as Hp. cbn in Hp.
    destruct (step_catchReport s callback t o _ Eq Hp) as [Ecb Eq1].
    destruct (IH (step Microtask s) q
                (Inv_step Microtask s HI) (Uniq_step Microtask s HI HU)
                (Ledger_step Microtask s HI HU HL I) Hqs' Eq1) as (Eq' & Ecb').
    split; [done|]. rewrite Ecb', Ecb, <- app_assoc. done.
Qed.

Lemma answers_add_up o rs qs :
  Forall2 (follows o) rs qs ->
  flat_map (thenCalls o) rs ++ flat_map catchCalls qs = flat_map (answerTo o) rs.
Proof.
  intros Hf.
  assert (Hcases :
    (flat_map (thenCalls o) rs = flat_map (answerTo o) rs /\ flat_map catchCalls qs = []) \/
    (flat_map (thenCalls o) rs = [] /\ flat_map catchCalls qs = flat_map (answerTo o) rs)).
  { destruct o as [[|res]|err].
    - right. induction Hf as [|r job rs qs (fullPath & callback & t & t' & -> & ->) _ [IH1 IH2]];
        [done|]. cbn. split; [done|]. by rewrite IH2.
    - left. induction Hf as [|r job rs qs (fullPath & callback & t & t' & -> & ->) _ [IH1 IH2]];
        [done|]. cbn. split; [|done]. cbn in IH1. by rewrite IH1.
    - right. induction Hf as [|r job rs qs (fullPath & callback & t & t' & -> & ->) _ [IH1 IH2]];
        [done|]. cbn. split; [done|]. by rewrite IH2. }
  destruct Hcases as [[-> ->]|[-> ->]]; [by rewrite app_nil_r|done].
Qed.

Lemma run_job_clear_callbacks s K t o :
  callbacks (run_job (thenClear K t, o) s) = callbacks s /\
  callbacks (run_job (catchClear K t, o) s) = callbacks s.
Proof.
  split; destruct o; cbn;
    match goal with |- context [settle ?t ?o ?s1] =>
      destruct (settle_frame t o s1) as (_ & _ & -> & _) end; done.
Qed.

(** What waits on a slot are reactions of scans. *)
Lemma slot_waiters s i inv ws :
  Inv s -> Ledger s -> invocations s !! i = Some inv ->
  heap s !! (base inv + 2)%nat = Some (pending ws) -> Forall isWaiter ws.
Proof.
  intros HI HL Hi Hp. apply List.Forall_forall. intros r Hr. apply list_elem_of_In in Hr.
  assert (Hc : has_chain s (projectRoot inv) (base inv)) by (by exists i, inv).
  assert (Hapart : forall K1 b1, has_chain s K1 b1 ->
            b1 = base inv \/ (b1 + 3 <= base inv)%nat \/ (base inv + 3 <= b1)%nat).
  { intros K1 b1 (j & inv1 & Hj & _ & <-). destruct (decide (j = i)) as [->|Hne].
    - left. congruence.
    - right. destruct (inv_apart s HI j i inv1 inv Hj Hi Hne); auto. }
  destruct (inv_heap s HI _ _ r Hp Hr) as (Hty & _ & Hpos).
  destruct Hty as [(K1 & b1 & Hc1 & ->)|[(K1 & b1 & Hc1 & ->)|[Hsl _]]].
  - destruct (Hpos K1 b1 Hc1) as [Hp1 _]. specialize (Hp1 eq_refl).
    destruct (Hapart K1 b1 Hc1) as [?|[?|?]]; lia.
  - destruct (Hpos K1 b1 Hc1) as [_ Hp2]. specialize (Hp2 eq_refl).
    destruct (Hapart K1 b1 Hc1) as [?|[?|?]]; lia.
  - assert (Hs : sits s (base inv + 2) r) by (by exists (pending ws)).
    pose proof (led_placed s HL _ r Hs Hsl) as Hpl.
    pose proof (led_paired s HL r ltac:(right; by exists (base inv + 2)%nat) Hsl) as Hpr.
    unfold placed, paired in *. destruct r as [onF onR t]. cbn in *.
    destruct onF as [[K1|fullPath callback]|].
    + done.
    + destruct onR; [done|]. by exists fullPath, callback, t.
    + by destruct (Hpl _ _ Hc).
Qed.

(** The settlement of an idle invocation and the two jobs of its own
    handlers. *)
Lemma settlement_steps s i inv e :
  Inv s -> microtasks s = [] -> invocations s !! i = Some inv ->
  resolved inv || timedOut inv = false -> settles i inv e ->
  let s3 := run [e; Microtask; Microtask] s in
  exists ws,
    heap s !! (base inv + 2)%nat = Some (pending ws) /\
    microtasks s3 = map (fun r => (r, outcomeOf inv e)) ws /\
    callbacks s3 = callbacks s.
Proof.
  intros HI Hq Hi Hflags He s3.
  destruct (flags_down_waiting s i inv HI Hi Hflags) as [_ (H0 & H1 & [ws H2] & _)].
  set (K := projectRoot inv) in *. set (b := base inv) in *.
  set (o := outcomeOf inv e).
  destruct (settles_with s i inv e HI Hi Hflags He) as (Eh1 & Eq1).
  destruct (settles_step s i inv e HI Hi Hflags He) as (_ & _ & _ & _ & _ & Ecb1 & _).
  fold K b o in Eh1, Eq1. rewrite Hq in Eq1. cbn [app] in Eq1.
  set (s1 := step e s) in *.
  assert (Hb1 : (b < length (heap s))%nat) by (by eapply lookup_lt_Some).
  assert (Hb2 : (b + 1 < length (heap s))%nat) by (by eapply lookup_lt_Some).
  assert (Hb3 : (b + 2 < length (heap s))%nat) by (by eapply lookup_lt_Some).
  assert (E2 : step Microtask s1 =
               run_job (thenClear K (b + 1), o) (set_microtasks [] s1))
    by (by apply step_microtask).
  destruct (run_job_thenClear (set_microtasks [] s1) K (b + 1) o [catchClear K (b + 2)])
    as (Eh2 & Eq2 & _).
  { cbn [heap set_microtasks]. rewrite Eh1. by rewrite list_lookup_insert_ne by lia. }
  destruct (run_job_clear_callbacks (set_microtasks [] s1) K (b + 1) o) as [Ecb2 _].
  rewrite <- E2 in Eh2, Eq2, Ecb2. set (s2 := step Microtask s1) in *.
  cbn [heap microtasks callbacks set_microtasks app map] in Eh2, Eq2, Ecb2.
  assert (E3 : step Microtask s2 =
               run_job (catchClear K (b + 2), o) (set_microtasks [] s2))
    by (by apply step_microtask).
  destruct (run_job_catchClear (set_microtasks [] s2) K (b + 2) o ws) as (_ & Eq3 & _).
  { cbn [heap set_microtasks]. rewrite Eh2, Eh1. by rewrite !list_lookup_insert_ne by lia. }
  destruct (run_job_clear_callbacks (set_microtasks [] s2) K (b + 2) o) as [_ Ecb3].
  rewrite <- E3 in Eq3, Ecb3.
  change s3 with (step Microtask s2). clear s3.
  cbn [microtasks callbacks set_microtasks app] in Eq3, Ecb3.
  exists ws. split; [done|]. split; [done|]. congruence.
Qed.

(** The answers to the waiters of an idle invocation, from the
    settling event to the last [catch] job. *)
Lemma idle_settlement_answers (s : state) (i : nat) (inv : invocation) (e : event) :
  Inv s -> Uniq s -> Ledger s ->
  microtasks s = [] -> invocations s !! i = Some inv ->
  resolved inv || timedOut inv = false -> settles i inv e ->
  exists ws,
    heap s !! (base inv + 2)%nat = Some (pending ws) /\
    Forall isWaiter ws /\
    let s' := run (e :: replicate (2 + 2 * length ws) Microtask) s in
    callbacks s' = callbacks s ++ flat_map (answerTo (outcomeOf inv e)) ws /\
    microtasks s' = [].
Proof.
  intros HI HU HL Hq Hi Hflags He.
  destruct (settlement_steps s i inv e HI Hq Hi Hflags He) as (ws & Hws & Eq3 & Ecb3).
  pose proof (slot_waiters s i inv ws HI HL Hi Hws) as Hwaiters.
  exists ws. split; [done|]. split; [done|].
  set (o := outcomeOf inv e) in *.
  assert (Hpol3 : Forall politeEvent [e; Microtask; Microtask]).
  { repeat constructor. by destruct He as [->|[(code & -> & _)|(err & -> & _)]]. }
  destruct (run_sound [e; Microtask; Microtask] s HI HU HL Hpol3) as (HI3 & HU3 & HL3).
  set (s3 := run [e; Microtask; Microtask] s) in *.
  assert (Esplit : e :: replicate (2 + 2 * length ws) Microtask =
                   ([e; Microtask; Microtask] ++ replicate (length ws) Microtask)
                   ++ replicate (length ws) Microtask).
  { cbn [app]. change (2 + 2 * length ws)%nat with (S (S (2 * length ws))).
    cbn [replicate]. do 3 f_equal. rewrite <- replicate_add. f_equal. lia. }
  cbn zeta. rewrite Esplit, !run_app. clear Esplit. fold s3.
  rewrite <- (app_nil_r (map _ ws)) in Eq3.
  destruct (then_phase o ws s3 [] HI3 HU3 HL3 Hwaiters Eq3)
    as (HI4 & HU4 & HL4 & qs & Eq4 & Hf & Ecb4).
  set (s4 := run (replicate (length ws) Microtask) s3) in *.
  cbn [app] in Eq4. rewrite <- (app_nil_r qs) in Eq4.
  assert (Hlen : length qs = length ws) by (symmetry; by eapply Forall2_length).
  assert (Hqs : Forall (fun job => exists callback t, fst job = catchReport callback t) qs).
  { clear -Hf. induction Hf as [|r job rs qs (fullPath & callback & t & t' & -> & ->) _ IH];
      constructor; [by exists callback, t'|done]. }
  destruct (catch_phase qs s4 [] HI4 HU4 HL4 Hqs Eq4) as [Eq5 Ecb5].
  rewrite Hlen in Eq5, Ecb5. split; [|done].
  rewrite Ecb5, Ecb4, Ecb3, <- app_assoc. f_equal. by apply answers_add_up.
Qed.

(** X16: when an idle invocation settles, every scan waiting on its
    slot is answered, in the order the scans were made, each with the
    answer for its own file: the report mapped from the shared result,
    the timeout diagnostic, or the error.  The answers are complete
    after the two jobs of the invocation and two jobs per waiter, and
    the queue is empty again. *)
Theorem waiters_are_answered_in_order (evs : list event) (i : nat) (inv : invocation)
    (e : event) :
  Forall politeEvent evs ->
  let s := run evs init in
  microtasks s = [] -> invocations s !! i = Some inv ->
  resolved inv || timedOut inv = false -> settles i inv e ->
  exists ws,
    heap s !! (base inv + 2)%nat = Some (pending ws) /\
    Forall isWaiter ws /\
    let s' := run (e :: replicate (2 + 2 * length ws) Microtask) s in
    callbacks s' = callbacks s ++ flat_map (answerTo (outcomeOf inv e)) ws /\
    microtasks s' = [].
Proof.
  intros Hpol s Hq Hi Hflags He.
  destruct (run_sound evs init Inv_init Uniq_init Ledger_init Hpol) as (HI & HU & HL).
  exact (idle_settlement_answers (run evs init) i inv e HI HU HL Hq Hi Hflags He).
Qed.



End Broadcast.

(** ** The invocation properties at work in the small world *)

Lemma events_are_local_witness :
  let s := run (H := demo_env)
             [demo_scan 1; Scan demo_fs "/q" "/q/b.js" (demo_callback 2)] init in
  invocations (step (H := demo_env) (TimerFires 0) s) !! 1%nat =
  Some (newInvocation (H := demo_env) "/q" 5).
Proof.
  intros s.
  assert (Hs : reachable (H := demo_env) s)
    by (apply (reachable_run (H := demo_env)), (reachable_init (H := demo_env))).
  assert (Hj : invocations s !! 1%nat = Some (newInvocation (H := demo_env) "/q" 5))
    by (vm_compute; reflexivity).
  destruct (events_are_local (H := demo_env) s 0 1 _ (TimerFires 0) Hs
              (or_introl eq_refl) Hj ltac:(lia)) as (Hinv & _).
  exact Hinv.
Defined.

Lemma invocation_outcome_witness :
  let s := step (H := demo_env) (demo_scan 1) init in
  heap (run (H := demo_env)
          [Child 0 (Data "<flow "); Child 0 (Data "output>"); Child 0 (Close 0)] s) !! 0%nat =
  Some (settled (Fulfilled (VFlowResult demo_raw))).
Proof.
  intros s.
  assert (Hs : reachable (H := demo_env) s)
    by (apply (reachable_step (H := demo_env)), (reachable_init (H := demo_env))).
  assert (Hi : invocations s !! 0%nat = Some (newInvocation (H := demo_env) "/p" 0))
    by (vm_compute; reflexivity).
  destruct (invocation_outcome (H := demo_env) s 0 _ Hs Hi eq_refl) as (Hclose & _).
  exact (Hclose ["<flow "; "output>"] 0%Z eq_refl).
Defined.

Lemma scan_registers_a_waiter_witness :
  callbacks (step (H := demo_env) (demo_scan 1) init) = [] /\
  microtasks (step (H := demo_env) (demo_scan 1) init) = [] /\
  step (H := demo_env) (Scan demo_fs "toString" "toString/a.js" (demo_callback 1)) init = init.
Proof.
  destruct (scan_registers_a_waiter (H := demo_env) demo_fs "/p" "/p/a.js" (demo_callback 1)
              init (reachable_init (H := demo_env)) eq_refl eq_refl) as [_ Hreg].
  destruct Hreg as (Hc & Hq & _).
  { intros [_ Hin]. revert Hin. apply (bool_decide_unpack _). vm_compute. exact I. }
  destruct (scan_registers_a_waiter (H := demo_env) demo_fs "toString" "toString/a.js"
              (demo_callback 1) init (reachable_init (H := demo_env)) eq_refl eq_refl)
    as [Hinh _].
  split; [exact Hc|]. split; [exact Hq|].
  apply Hinh. split; [reflexivity|]. apply (bool_decide_unpack _). vm_compute. exact I.
Defined.

Lemma waiters_are_answered_in_order_witness :
  let evs := [demo_scan 1; Scan demo_fs "/p" "/p/b.js" (demo_callback 2)] in
  callbacks (run (H := demo_env) (TimerFires 0 :: replicate 6 Microtask)
               (run (H := demo_env) evs init)) =
  [(1%nat, (None, Some timeoutReport)); (2%nat, (None, Some timeoutReport))].
Proof.
  intros evs.
  assert (Hpol : Forall politeEvent evs).
  { repeat (constructor; [first [exact I | intros ?; reflexivity]|]). constructor. }
  assert (Hi : invocations (run (H := demo_env) evs init) !! 0%nat =
               Some (newInvocation (H := demo_env) "/p" 0)) by (vm_compute; reflexivity).
  destruct (waiters_are_answered_in_order (H := demo_env) evs 0 _ (TimerFires 0) Hpol
              eq_refl Hi eq_refl (or_introl eq_refl)) as (ws & Hws & _ & Hcb & _).
  vm_compute in Hws. injection Hws as <-. exact Hcb.
Defined.



(** ** One invocation in flight per key *)

Section OnePerKey.
Context `{NodeEnv}.

Lemma waiting_holds_the_key s i inv :
  Inv s -> invocations s !! i = Some inv -> resolved inv || timedOut inv = false ->
  _getFlowResults s !! projectRoot inv = Some (Some (base inv + 2)%nat).
Proof.
  intros HI Hi Hflags. destruct (inv_stage s HI i inv Hi) as (st & [Hf _] & Hlive).
  destruct st as [|o|o|o]; [by apply Hlive|..];
    destruct Hf as [(Hr & _)|(_ & Ht & _)];
    rewrite ?Hr, ?Ht in Hflags; try done; by rewrite orb_true_r in Hflags.
Qed.

(** X17: at any time at most one invocation per project root is
    unsettled: two invocations for the same key that have neither
    completed nor timed out are the same invocation, and while there is
    one the key holds its slot, so [getFlowResult] returns that slot
    and starts nothing. *)
Theorem one_unsettled_invocation_per_key (s : state) (i j : nat) (inv inv' : invocation) :
  reachable s ->
  invocations s !! i = Some inv -> invocations s !! j = Some inv' ->
  resolved inv || timedOut inv = false ->
  (resolved inv' || timedOut inv' = false -> projectRoot inv = projectRoot inv' -> i = j) /\
  getFlowResult (projectRoot inv) s = (Slot (base inv + 2)%nat, s).
Proof.
  intros Hs Hi Hj Hflags. pose proof (reachable_Inv s Hs) as HI.
  pose proof (waiting_holds_the_key s i inv HI Hi Hflags) as Hc.
  split; [|by apply getFlowResult_hit].
  intros Hflags' HK.
  pose proof (waiting_holds_the_key s j inv' HI Hj Hflags') as Hc'.
  rewrite <- HK, Hc in Hc'. destruct (decide (i = j)) as [|Hne]; [done|].
  destruct (inv_apart s HI i j inv inv' Hi Hj Hne); simplify_eq; lia.
Qed.

End OnePerKey.

Lemma one_unsettled_invocation_per_key_witness :
  let s := run (H := demo_env)
             [demo_scan 1; Scan demo_fs "/p" "/p/b.js" (demo_callback 2)] init in
  getFlowResult (H := demo_env) "/p" s = (Slot 2%nat, s).
Proof.
  intros s.
  assert (Hs : reachable (H := demo_env) s)
    by (apply (reachable_run (H := demo_env)), (reachable_init (H := demo_env))).
  assert (Hi : invocations s !! 0%nat = Some (newInvocation (H := demo_env) "/p" 0))
    by (vm_compute; reflexivity).
  destruct (one_unsettled_invocation_per_key (H := demo_env) s 0 0 _ _ Hs Hi Hi eq_refl)
    as [_ Hget].
  exact Hget.
Defined.
